(** * Entwine builder: chunk, overflow and insertion driver

    A shallow embedding of the parts of entwine's builder that decide how a
    point lands in a chunk (builder/chunk.cpp, builder/overflow.hpp), how the
    driver schedules sources (builder/builder.cpp) and of the iterator helpers
    of util/algorithm.hpp, followed by the properties proved about them.

    Conventions.  A [uint64_t] is a [Z] reduced with [wrap64] after every
    arithmetic step.  A container is a [list]; an iterator into it is the
    position it points at, [last] being the length.  Locks are not modelled:
    every function below is the sequential meaning of one call. *)

From Stdlib Require Import ZArith Lia Bool Sorted.
From stdpp Require Import base option list gmap strings pretty.

Local Open Scope Z_scope.

(* ===================================================================== *)
(** * util/algorithm.hpp *)
(* ===================================================================== *)

Module algorithm.

(** [operator<] of the element type, for the overloads without a comparator. *)
Class Less (A : Type) := less : A → A → bool.

(** The loop shared by the four templates

      for ( ; curr != last; ++curr) if (better( *curr, *best)) best = curr;

    [rest] are the elements from [curr] up to [last]; the iterator [best] is
    kept as its position together with the element it points at. *)
Fixpoint scan {A : Type} (better : A → A → bool)
    (rest : list A) (curr : nat) (best : nat * A) : nat * A :=
  match rest with
  | [] => best
  | x :: rest' =>
      scan better rest' (S curr) (if better x best.2 then (curr, x) else best)
  end.

(** [min_element(curr, last, comp)]: [comp( *curr, *smallest)] replaces. *)
Definition min_element_comp {A : Type} (comp : A → A → bool) (l : list A) : nat :=
  match l with
  | [] => length l
  | x :: rest => (scan (λ c smallest, comp c smallest) rest 1%nat (0%nat, x)).1
  end.

(** [max_element(curr, last, comp)]: [comp( *largest, *curr)] replaces. *)
Definition max_element_comp {A : Type} (comp : A → A → bool) (l : list A) : nat :=
  match l with
  | [] => length l
  | x :: rest => (scan (λ c largest, comp largest c) rest 1%nat (0%nat, x)).1
  end.

(** [min_element(curr, last)]: [*curr < *smallest] replaces. *)
Definition min_element {A : Type} `{Less A} (l : list A) : nat :=
  match l with
  | [] => length l
  | x :: rest => (scan (λ c smallest, less c smallest) rest 1%nat (0%nat, x)).1
  end.

(** [max_element(curr, last)]: [*largest < *curr] replaces. *)
Definition max_element {A : Type} `{Less A} (l : list A) : nat :=
  match l with
  | [] => length l
  | x :: rest => (scan (λ c largest, less largest c) rest 1%nat (0%nat, x)).1
  end.

(** What the C++ standard asks of a [Compare]: a strict weak ordering. *)
Record StrictWeakOrder {A : Type} (comp : A → A → bool) : Prop := {
  swo_irrefl : ∀ x, comp x x = false;
  swo_trans : ∀ x y z, comp x y = true → comp y z = true → comp x z = true;
  swo_incomp : ∀ x y z,
    comp x y = false → comp y x = false →
    comp y z = false → comp z y = false →
    comp x z = false ∧ comp z x = false
}.

(** Position [i] holds the first minimum of [l]: nothing in [l] is below it,
    and everything before it is strictly above it. *)
Definition first_min_at {A : Type} (comp : A → A → bool) (l : list A) (i : nat) : Prop :=
  ∃ m, l !! i = Some m
     ∧ (∀ j x, l !! j = Some x → comp x m = false)
     ∧ (∀ j x, (j < i)%nat → l !! j = Some x → comp m x = true).

(** Position [i] holds the first maximum of [l]. *)
Definition first_max_at {A : Type} (comp : A → A → bool) (l : list A) (i : nat) : Prop :=
  ∃ m, l !! i = Some m
     ∧ (∀ j x, l !! j = Some x → comp m x = false)
     ∧ (∀ j x, (j < i)%nat → l !! j = Some x → comp x m = true).

#[global] Instance Z_less : Less Z := Z.ltb.

End algorithm.

(* ===================================================================== *)
(** * The types the builder works on *)
(* ===================================================================== *)

(** [uint64_t] and [uint32_t] arithmetic. *)
Definition wrap64 (n : Z) : Z := n mod 2 ^ 64.
Definition wrap32 (n : Z) : Z := n mod 2 ^ 32.

(** Modelled from the spec: the octants [Dir] of types/dir.hpp, "octant
    direction Dir in {0..7}", with their integral values. *)
Inductive Dir := swd | sed | nwd | ned | swu | seu | nwu | neu.

Definition toIntegral (d : Dir) : nat :=
  match d with
  | swd => 0 | sed => 1 | nwd => 2 | ned => 3
  | swu => 4 | seu => 5 | nwu => 6 | neu => 7
  end%nat.

(** [toDir(i)] is a cast; the builder applies it to 0..7 only. *)
Definition toDir (i : nat) : Dir :=
  match i with
  | 0 => swd | 1 => sed | 2 => nwd | 3 => ned
  | 4 => swu | 5 => seu | 6 => nwu | _ => neu
  end%nat.

Definition dirEnd : nat := 8.

(** Modelled from the spec: [Xyz] of types/key.hpp, the integer grid
    coordinates (x, y, z) of a position; builder/clipper.hpp builds one from
    three [uint64_t]. *)
Record Xyz := mkXyz { pos_x : Z; pos_y : Z; pos_z : Z }.

(** Modelled from the spec: [Dxyz], "the canonical (depth, x, y, z)
    identifier" of a chunk. *)
Abbreviation Dxyz := (Z * Z * Z * Z)%type.

(** The raw bytes of one point record ([pointSize] of them). *)
Abbreviation Payload := (list Byte.byte).

(** Modelled from the spec: [MemBlock], "a bump-allocated arena of
    fixed-size point slots", kept as the slots handed out so far. *)
Abbreviation MemBlock := (list Payload).

(** Modelled from the spec: the codecs a [data_type] selects, raw binary,
    LAS-compressed or entropy-coded, as util/io.hpp names them. *)
Inductive DataType := Binary | Laszip | Zstandard.

(** Points and bounds come from types/point.hpp and types/bounds.hpp, which
    compute on [double].  The builder only needs the operations below, so
    they are taken as an interface; [Dist] stands for the [double] returned
    by [sqDist3d] and [dist_lt] for [<] on it, which never holds in both
    directions. *)
Class Geometry := {
  Point : Type;
  Bounds : Type;
  Subset : Type;
  Dist : Type;
  mid : Bounds → Point;
  sqDist3d : Point → Point → Dist;
  dist_lt : Dist → Dist → bool;
  getDirection : Point → Point → Dir;
  overlaps : Bounds → Bounds → bool;
  intersection : Bounds → Bounds → Bounds;
  getBounds : Bounds → Subset → Bounds;
  dist_lt_asym : ∀ a b, dist_lt a b = true → dist_lt b a = false
}.

Section types.
Context `{G : Geometry}.

(** Modelled from the spec: [Key] of types/key.hpp, the descent key of a
    point, with the bounds and the grid position it has reached. *)
Record Key := mkKey { key_bounds : Bounds; key_position : Xyz }.

(** Modelled from the spec: [ChunkKey] of types/key.hpp, "a (bounds, depth,
    position) triple identifying a chunk cell", and its [dxyz()]. *)
Record ChunkKey := mkChunkKey {
  ck_bounds : Bounds;
  ck_depth : Z;
  ck_position : Xyz
}.

Definition dxyz (ck : ChunkKey) : Dxyz :=
  (ck_depth ck, pos_x (ck_position ck), pos_y (ck_position ck),
   pos_z (ck_position ck)).

(** Modelled from the spec: the fields of [Metadata] (types/metadata.hpp)
    the builder reads; [sharedDepth] and [startDepth] hold what
    [getSharedDepth(m)] and [getStartDepth(m)] return. *)
Record Metadata := mkMetadata {
  span : Z;
  minNodeSize : Z;
  maxNodeSize : Z;
  sharedDepth : Z;
  startDepth : Z;
  dataType : DataType;
  bounds : Bounds;
  boundsConforming : Bounds;
  subset : option Subset
}.

(** Modelled from the spec: a [Voxel] (types/voxel.hpp) handed to the chunk
    by a caller, its point and the bytes its data pointer refers to.  The callee may exchange both ([swapDeep]), which
    the caller sees; hence every function below returns the voxel too. *)
Record Voxel := mkVoxel { v_point : Point; v_data : Payload }.

(** Modelled from the spec: a [Voxel] owned by a chunk; its data pointer
    refers to a slot of the [MemBlock] it was allocated from. *)
Record Resident := mkResident { r_point : Point; r_slot : nat }.

(** Modelled from the spec: [MemBlock::size()], the slots handed out, and
    [MemBlock::next()], which hands out a fresh one. *)
Definition MemBlock_size (b : MemBlock) : Z := Z.of_nat (length b).

Definition MemBlock_next (b : MemBlock) : nat * MemBlock := (length b, b ++ [[]]).

(** Modelled from the spec: the voxel a resident stands for, with the bytes
    its data pointer refers to. *)
Definition deref (b : MemBlock) (r : Resident) : option Voxel :=
  mkVoxel (r_point r) <$> b !! r_slot r.

(** Modelled from the spec: [dst.initDeep(point, data, size)], the "deep
    copy" of point and bytes into the slot of [dst]. *)
Definition initDeep (b : MemBlock) (slot : nat) (v : Voxel) : Resident * MemBlock :=
  (mkResident (v_point v) slot, <[slot := v_data v]> b).

End types.

(** [Hierarchy]: point count per persisted chunk. *)
Abbreviation Hierarchy := (gmap Dxyz Z).

Module hierarchy.

(** Modelled from the spec: [hierarchy::get] of builder/hierarchy.hpp, the
    lookup in the "sparse mapping dxyz -> point_count (u64)"; the constructor
    of [Chunk] tests its result with [!], so a node that is absent reads 0. *)
Definition get (h : Hierarchy) (k : Dxyz) : Z := default 0 (h !! k).

End hierarchy.

(** Key arithmetic lives in types/key.hpp; the builder uses these three
    operations of it, and the postfix of a chunk's file name. *)
Class KeyOps `{G : Geometry} := {
  step : Key → Point → Key;
  getStep : ChunkKey → Dir → ChunkKey;
  toString : ChunkKey → string;
  getPostfix : Metadata → Z → string
}.

(* ===================================================================== *)
(** * builder/overflow.hpp *)
(* ===================================================================== *)

Module overflow.
Section overflow.
Context `{G : Geometry}.

(** An entry's voxel points at the slot of [block] it was given by
    [block.next()].  Nothing writes to that slot while the overflow is
    attached to its chunk, so the entry carries the bytes of its slot. *)
Record Entry := mkEntry { e_voxel : Voxel; e_key : Key }.

Record Overflow := mkOverflow {
  o_chunkKey : ChunkKey;
  o_block : MemBlock;
  o_list : list Entry
}.

(** [Overflow(chunkKey, pointSize)] *)
Definition make (ck : ChunkKey) : Overflow := mkOverflow ck [] [].

(** [Overflow::insert(voxel, key)] *)
Definition insert (o : Overflow) (voxel : Voxel) (key : Key) : Overflow :=
  let '(slot, blk) := MemBlock_next (o_block o) in
  let '(_, blk) := initDeep blk slot voxel in
  mkOverflow (o_chunkKey o) blk
    (o_list o ++ [mkEntry (mkVoxel (v_point voxel) (v_data voxel)) key]).

End overflow.
End overflow.

(* ===================================================================== *)
(** * builder/chunk.cpp *)
(* ===================================================================== *)

Module chunk.
Import overflow.

(** [VoxelTube::map]: [std::map<uint32_t, Voxel>]; a key without an entry is
    a voxel whose data pointer is still null. *)
Abbreviation VoxelTube := (gmap Z Resident).

Section chunk.
Context `{K : KeyOps}.

Record Chunk := mkChunk {
  m_metadata : Metadata;
  m_span : Z;
  m_chunkKey : ChunkKey;
  m_childKeys : Dir → ChunkKey;
  m_grid : list VoxelTube;
  m_gridBlock : MemBlock;
  m_overflows : list (option Overflow);
  m_overflowCount : Z
}.

(** One call [cache.insert(voxel, key, ck, clipper)].  ChunkCache::insert
    works on the chunk named [ck] and on chunks below it, never on the chunk
    that calls; the calls a chunk makes are therefore returned as a trace. *)
Record CacheInsert := mkCacheInsert {
  ci_voxel : Voxel;
  ci_key : Key;
  ci_chunkKey : ChunkKey
}.

(** One call [io::write(type, metadata, endpoints, filename, table, bounds)]. *)
Record IoWrite := mkIoWrite {
  w_type : DataType;
  w_filename : string;
  w_table : list Payload;
  w_bounds : Bounds
}.

Definition set_grid (c : Chunk) (g : list VoxelTube) (b : MemBlock) : Chunk :=
  mkChunk (m_metadata c) (m_span c) (m_chunkKey c) (m_childKeys c) g b
          (m_overflows c) (m_overflowCount c).

Definition set_overflows (c : Chunk) (o : list (option Overflow)) (n : Z) : Chunk :=
  mkChunk (m_metadata c) (m_span c) (m_chunkKey c) (m_childKeys c) (m_grid c)
          (m_gridBlock c) o n.

(** [childAt(dir)]; the array [m_childKeys] is kept as a function of the
    octant. *)
Definition childAt (c : Chunk) (dir : Dir) : ChunkKey := m_childKeys c dir.

(** [Chunk::Chunk(m, ck, hierarchy)] *)
Definition make (m : Metadata) (ck : ChunkKey) (h : Hierarchy) : Chunk :=
  let childKeys (dir : Dir) : ChunkKey := getStep ck dir in
  let overflow_at (i : nat) : option Overflow :=
    let dir := toDir i in
    (* If there are already points here, it gets no overflow. *)
    if hierarchy.get h (dxyz (childKeys dir)) =? 0
    then Some (overflow.make (getStep ck dir))
    else None in
  mkChunk m (span m) ck childKeys
          (replicate (Z.to_nat (wrap64 (span m * span m))) ∅)
          []
          (overflow_at <$> seq 0 dirEnd)
          0.

(** Modelled from the spec: [voxel.swapDeep(dst, pointSize)], which "swaps
    their deep payloads", points and bytes. *)
Definition swapDeep (b : MemBlock) (voxel : Voxel) (dst : Resident)
    : option (Voxel * Resident * MemBlock) :=
  bytes ← b !! r_slot dst;
  Some (mkVoxel (r_point dst) bytes,
        mkResident (v_point voxel) (r_slot dst),
        <[r_slot dst := v_data voxel]> b).

(** [Chunk::doOverflow(cache, clipper, dir)]; [None] is the failed
    [assert(m_overflows[dir])]. *)
Definition doOverflow (c : Chunk) (dir : nat) : option (Chunk * list CacheInsert) :=
  match m_overflows c !! dir with
  | Some (Some active) =>
      let c' :=
        set_overflows c (<[dir := None]> (m_overflows c))
          (wrap64 (m_overflowCount c - MemBlock_size (o_block active))) in
      let ck := m_childKeys c (toDir dir) in
      let calls :=
        (λ entry,
           mkCacheInsert (e_voxel entry)
             (step (e_key entry) (v_point (e_voxel entry))) ck)
        <$> o_list active in
      Some (c', calls)
  | _ => None
  end.

(** The search of [maybeOverflow] for the overflow with the largest point
    count: [d] runs over the buckets [rest], [sel] is
    [(selectedIndex, selectedSize)]. *)
Fixpoint select (rest : list (option Overflow)) (d : nat) (sel : nat * Z) : nat * Z :=
  match rest with
  | [] => sel
  | current :: rest' =>
      select rest' (S d)
        match current with
        | Some o =>
            if sel.2 <? MemBlock_size (o_block o)
            then (d, MemBlock_size (o_block o))
            else sel
        | None => sel
        end
  end.

(** [Chunk::maybeOverflow(cache, clipper)] *)
Definition maybeOverflow (c : Chunk) : option (Chunk * list CacheInsert) :=
  (* See if our resident size is big enough to overflow. *)
  let gridSize := MemBlock_size (m_gridBlock c) in
  let ourSize := wrap64 (gridSize + m_overflowCount c) in
  if ourSize <? maxNodeSize (m_metadata c) then Some (c, []) else
  let '(selectedIndex, selectedSize) := select (m_overflows c) 0 (0%nat, 0) in
  (* Make sure our largest overflow is large enough to necessitate
     overflowing into its own node. *)
  if selectedSize <? minNodeSize (m_metadata c) then Some (c, []) else
  doOverflow c selectedIndex.

(** [Chunk::insertOverflow(cache, clipper, voxel, key)] *)
Definition insertOverflow (c : Chunk) (voxel : Voxel) (key : Key)
    : option (bool * Chunk * list CacheInsert) :=
  if ck_depth (m_chunkKey c) <? sharedDepth (m_metadata c)
  then Some (false, c, []) else
  let dir := getDirection (mid (ck_bounds (m_chunkKey c))) (v_point voxel) in
  let i := toIntegral dir in
  match m_overflows c !! i with
  | Some (Some o) =>
      let overflows := <[i := Some (overflow.insert o voxel key)]> (m_overflows c) in
      let count := wrap64 (m_overflowCount c + 1) in
      let c' := set_overflows c overflows count in
      (* Overflow inserted, update metric and perform overflow if needed. *)
      if minNodeSize (m_metadata c) <=? count
      then '(c'', calls) ← maybeOverflow c'; Some (true, c'', calls)
      else Some (true, c', [])
  | _ => Some (false, c, [])
  end.

(** The index [i] of the tube of [key] in [m_grid]; [% 0] has no meaning. *)
Definition tube_index (c : Chunk) (key : Key) : option nat :=
  let pos := key_position key in
  if m_span c =? 0 then None
  else Some (Z.to_nat
         (wrap64 ((pos_y pos mod m_span c) * m_span c + pos_x pos mod m_span c))).

(** The key of [pos.z] in a tube's [std::map<uint32_t, Voxel>]. *)
Definition tube_key (key : Key) : Z := wrap32 (pos_z (key_position key)).

(** [Chunk::insert(cache, clipper, voxel, key)]; the voxel comes back as the
    caller finds it afterwards. *)
Definition insert (c : Chunk) (voxel : Voxel) (key : Key)
    : option (bool * Chunk * Voxel * list CacheInsert) :=
  i ← tube_index c key;
  tube ← m_grid c !! i;
  match tube !! tube_key key with
  | Some dst =>
      let mid := mid (key_bounds key) in
      '(voxel, c) ←
        (if dist_lt (sqDist3d (v_point voxel) mid) (sqDist3d (r_point dst) mid)
         then '(voxel, dst, blk) ← swapDeep (m_gridBlock c) voxel dst;
              Some (voxel,
                    set_grid c (<[i := <[tube_key key := dst]> tube]> (m_grid c)) blk)
         else Some (voxel, c));
      '(done, c, calls) ← insertOverflow c voxel key;
      Some (done, c, voxel, calls)
  | None =>
      let '(slot, blk) := MemBlock_next (m_gridBlock c) in
      let '(dst, blk) := initDeep blk slot voxel in
      Some (true,
            set_grid c (<[i := <[tube_key key := dst]> tube]> (m_grid c)) blk,
            voxel, [])
  end.

(** [Chunk::save(endpoints)]: the count returned and the write issued. *)
Definition save (c : Chunk) : Z * IoWrite :=
  let np :=
    foldl (λ np o, match o with
                   | Some o => wrap64 (np + MemBlock_size (o_block o))
                   | None => np
                   end)
          (MemBlock_size (m_gridBlock c)) (m_overflows c) in
  let table :=
    foldl (λ table o, match o with
                      | Some o => table ++ o_block o
                      | None => table
                      end)
          (m_gridBlock c) (m_overflows c) in
  let filename :=
    toString (m_chunkKey c) +:+ getPostfix (m_metadata c) (ck_depth (m_chunkKey c)) in
  (np, mkIoWrite (dataType (m_metadata c)) filename table (ck_bounds (m_chunkKey c))).

End chunk.
End chunk.

(* ===================================================================== *)
(** * builder/builder.cpp *)
(* ===================================================================== *)

Module builder.
Section builder.
Context `{G : Geometry}.

(** The fields of [SourceInfo], [Source] and [BuildItem] the driver uses. *)
Record SourceInfo := mkSourceInfo {
  errors : list string;
  points : Z;
  info_bounds : Bounds
}.

Record Source := mkSource { path : string; info : SourceInfo }.

Record BuildItem := mkBuildItem { source : Source; inserted : bool }.

Record Builder := mkBuilder {
  metadata : Metadata;
  manifest : list BuildItem
}.

(** What a call can throw: a [std::exception] with its [what()], or
    anything else. *)
Inductive Thrown := StdException (what : string) | OtherException.

(** [Builder::insert] reads one source through PDAL and feeds the chunk
    cache.  For the driver it is a step that leaves the builder in some
    state and either returns or throws. *)
Variable insert : Builder → Z → Builder * option Thrown.

(** The [what()] of the [std::out_of_range] thrown by [manifest.at]. *)
Variable out_of_range : string.

Definition push_error (what : string) (item : BuildItem) : BuildItem :=
  mkBuildItem
    (mkSource (path (source item))
       (mkSourceInfo (errors (info (source item)) ++ [what])
          (points (info (source item))) (info_bounds (info (source item)))))
    (inserted item).

Definition set_inserted (item : BuildItem) : BuildItem :=
  mkBuildItem (source item) true.

(** A write through the reference [item = manifest.at(originId)]. *)
Definition with_item (b : Builder) (originId : Z) (f : BuildItem → BuildItem) : Builder :=
  mkBuilder (metadata b) (alter f (Z.to_nat originId) (manifest b)).

(** [Builder::tryInsert(cache, originId, counter)]: the builder afterwards
    and what the call throws, if anything. *)
Definition tryInsert (b : Builder) (originId : Z) : Builder * option Thrown :=
  match manifest b !! Z.to_nat originId with
  | None => (b, Some (StdException out_of_range))
  | Some _ =>
      let '(b, thrown) := insert b originId in
      let b :=
        match thrown with
        | None => b
        | Some (StdException what) => with_item b originId (push_error what)
        | Some OtherException =>
            with_item b originId (push_error "Unknown error during build")
        end in
      (with_item b originId set_inserted, None)
  end.

(** The bounds [active] of [runInserts]. *)
Definition active (m : Metadata) : Bounds :=
  match subset m with
  | Some s => intersection (getBounds (bounds m) s) (boundsConforming m)
  | None => boundsConforming m
  end.

(** The test of [runInserts] on one manifest item. *)
Definition wanted (active : Bounds) (item : BuildItem) : bool :=
  negb (inserted item)
  && negb (points (info (source item)) =? 0)
  && overlaps active (info_bounds (info (source item))).

(** The loop of [runInserts]: [rest] are the items from [origin] on, the
    result the origins handed to [pool.add], in the order of the calls. *)
Fixpoint submit (active : Bounds) (limit : Z) (rest : list BuildItem)
    (origin filesInserted : Z) : list Z :=
  match rest with
  | [] => []
  | item :: rest' =>
      if (limit =? 0) || (filesInserted <? limit) then
        if wanted active item
        then origin ::
             submit active limit rest' (wrap64 (origin + 1)) (wrap64 (filesInserted + 1))
        else submit active limit rest' (wrap64 (origin + 1)) filesInserted
      else []
  end.

(** [Builder::runInserts(threads, limit, counter)]: the [tryInsert] tasks
    submitted to the pool. *)
Definition runInserts (b : Builder) (limit : Z) : list Z :=
  submit (active (metadata b)) limit (manifest b) 0 0.

End builder.
End builder.

(* ===================================================================== *)
(** * Vocabulary of the properties *)
(* ===================================================================== *)

Module props.
Import overflow chunk builder.
Section props.
Context `{K : KeyOps}.

(** The voxel resident in the grid cell of [key], if any. *)
Definition cell (c : Chunk) (key : Key) : option Resident :=
  i ← tube_index c key;
  tube ← m_grid c !! i;
  tube !! tube_key key.

(** The same with the bytes it points at. *)
Definition cell_voxel (c : Chunk) (key : Key) : option Voxel :=
  r ← cell c key; deref (m_gridBlock c) r.

(** The bucket of octant [i], if present. *)
Definition bucket (c : Chunk) (i : nat) : option Overflow :=
  mjoin (m_overflows c !! i).

Definition bucket_size (o : Overflow) : Z := MemBlock_size (o_block o).

(** The hierarchy has a persisted child at [k]: a non-zero count is stored. *)
Definition persisted (h : Hierarchy) (k : Dxyz) : Prop := hierarchy.get h k ≠ 0.

(** Bucket [i], which is [o], is the present bucket of largest size, the
    lowest such index on ties. *)
Definition largest_present (c : Chunk) (i : nat) (o : Overflow) : Prop :=
  bucket c i = Some o
  ∧ (∀ j o', bucket c j = Some o' → bucket_size o' ≤ bucket_size o)
  ∧ (∀ j o', (j < i)%nat → bucket c j = Some o' → bucket_size o' < bucket_size o).

(** What [maybeOverflow] can rely on when [insertOverflow] calls it: a split
    threshold that is not zero, or a bucket that holds a point. *)
Definition splittable (c : Chunk) : Prop :=
  0 < minNodeSize (m_metadata c)
  ∨ ∃ j o, bucket c j = Some o ∧ 0 < bucket_size o.

(** The chunk [insertOverflow] has built when it looks at the thresholds. *)
Definition with_entry (c : Chunk) (i : nat) (o : Overflow)
    (voxel : Voxel) (key : Key) : Chunk :=
  set_overflows c
    (<[i := Some (mkOverflow (o_chunkKey o) (o_block o ++ [v_data voxel])
                    (o_list o ++ [mkEntry voxel key]))]> (m_overflows c))
    (wrap64 (m_overflowCount c + 1)).

(** The blocks of the present buckets, in octant order. *)
Definition present_blocks (c : Chunk) : list MemBlock :=
  omap (fmap o_block) (m_overflows c).

(** The size a bucket slot contributes to the total. *)
Definition slot_size (o : option Overflow) : Z :=
  match o with
  | Some o => bucket_size o
  | None => 0
  end.

(** The points held by the present buckets, and the bookkeeping of
    [m_overflowCount]: it counts them. *)
Definition overflow_total (c : Chunk) : Z :=
  foldr Z.add 0 (MemBlock_size <$> present_blocks c).

Definition counted (c : Chunk) : Prop := m_overflowCount c = overflow_total c.

(** The points of a chunk: the grid block, then the present buckets. *)
Definition chunk_points (c : Chunk) : list Payload :=
  m_gridBlock c ++ concat (present_blocks c).

(** The span the specification text prescribes for a chunk at [depth]:
    2^(depth - start_depth), clamped to the root tile width. *)
Definition spec_span (m : Metadata) (depth : Z) : Z :=
  Z.min (2 ^ (depth - startDepth m)) (span m).

(** The origins of the manifest items that pass the test of [runInserts],
    in manifest order. *)
Definition wanted_origins (active : Bounds) (items : list BuildItem) : list Z :=
  omap (λ p : nat * BuildItem,
          if wanted active p.2 then Some (Z.of_nat p.1) else None)
       (imap pair items).

(** The wanted origins of the items [rest] that start at origin [k]. *)
Definition wanted_from (active : Bounds) (k : nat) (rest : list BuildItem) : list Z :=
  omap (λ p : nat * BuildItem,
          if wanted active p.2 then Some (Z.of_nat p.1) else None)
       (imap (λ j item, ((k + j)%nat, item)) rest).

(** The text [tryInsert] records for what [insert] threw. *)
Definition recorded (thrown : option Thrown) : list string :=
  match thrown with
  | None => []
  | Some (StdException what) => [what]
  | Some OtherException => ["Unknown error during build"]
  end.

(** The nearest-kept rule of [Chunk::insert] with respect to a reference
    point [m]: when the cell of [key] holds [r] with bytes [bytes], the cell
    ends up with whichever of the new voxel and [r] is nearer to [m] (the
    resident on a tie), so that the other one is not strictly nearer; nothing is written unless the new voxel is strictly
    nearer, the buckets are as before when [insertOverflow] is called, and
    the other voxel is what [insertOverflow] gets and what the caller's voxel
    holds afterwards. *)
Definition keeps_nearest_to (m : Point) (c : Chunk) (voxel : Voxel) (key : Key) : Prop :=
  ∀ r bytes,
    cell c key = Some r →
    m_gridBlock c !! r_slot r = Some bytes →
    let resident := mkVoxel (r_point r) bytes in
    let closer := dist_lt (sqDist3d (v_point voxel) m) (sqDist3d (r_point r) m) in
    let kept := if closer then voxel else resident in
    let loser := if closer then resident else voxel in
    ∃ c1 done c' calls,
      cell_voxel c1 key = Some kept
      ∧ (closer = false → c1 = c)
      ∧ set_overflows c1 (m_overflows c) (m_overflowCount c) = c1
      ∧ insertOverflow c1 loser key = Some (done, c', calls)
      ∧ chunk.insert c voxel key = Some (done, c', loser, calls)
      ∧ cell_voxel c' key = Some kept
      ∧ dist_lt (sqDist3d (v_point loser) m) (sqDist3d (v_point kept) m) = false.

End props.
End props.

(* ===================================================================== *)
(** * An instance: integer boxes *)
(* ===================================================================== *)

(** Modelled from the spec: points with integer coordinates, the boxes
    between two of them with their midpoint and "8-way subdivision by octant
    direction", and keys that "descend one more level" per step.  The
    examples are stated on this instance. *)
Module cube.
Import overflow chunk builder.

Record P3 := mkP3 { px : Z; py : Z; pz : Z }.

Record Box := mkBox { b_min : P3; b_max : P3 }.

Definition box_mid (b : Box) : P3 :=
  mkP3 ((px (b_min b) + px (b_max b)) / 2)
       ((py (b_min b) + py (b_max b)) / 2)
       ((pz (b_min b) + pz (b_max b)) / 2).

Definition sq_dist (a b : P3) : Z :=
  (px a - px b) * (px a - px b)
  + (py a - py b) * (py a - py b)
  + (pz a - pz b) * (pz a - pz b).

Definition isEast (d : Dir) : bool := Nat.odd (toIntegral d).
Definition isNorth (d : Dir) : bool := Nat.odd (toIntegral d / 2).
Definition isUp (d : Dir) : bool := Nat.odd (toIntegral d / 4).

(** The octant of [p] seen from [m]: bit 0 east, bit 1 north, bit 2 up. *)
Definition direction (m p : P3) : Dir :=
  toDir ((if px m <=? px p then 1 else 0)
         + (if py m <=? py p then 2 else 0)
         + (if pz m <=? pz p then 4 else 0)).

Definition box_overlaps (a b : Box) : bool :=
  (px (b_min a) <=? px (b_max b)) && (px (b_min b) <=? px (b_max a))
  && (py (b_min a) <=? py (b_max b)) && (py (b_min b) <=? py (b_max a))
  && (pz (b_min a) <=? pz (b_max b)) && (pz (b_min b) <=? pz (b_max a)).

Definition box_intersection (a b : Box) : Box :=
  mkBox (mkP3 (Z.max (px (b_min a)) (px (b_min b)))
              (Z.max (py (b_min a)) (py (b_min b)))
              (Z.max (pz (b_min a)) (pz (b_min b))))
        (mkP3 (Z.min (px (b_max a)) (px (b_max b)))
              (Z.min (py (b_max a)) (py (b_max b)))
              (Z.min (pz (b_max a)) (pz (b_max b)))).

(** The octant [d] of a box. *)
Definition box_go (b : Box) (d : Dir) : Box :=
  let m := box_mid b in
  mkBox (mkP3 (if isEast d then px m else px (b_min b))
              (if isNorth d then py m else py (b_min b))
              (if isUp d then pz m else pz (b_min b)))
        (mkP3 (if isEast d then px (b_max b) else px m)
              (if isNorth d then py (b_max b) else py m)
              (if isUp d then pz (b_max b) else pz m)).

#[export] Instance geometry : Geometry := {|
  Point := P3;
  Bounds := Box;
  Subset := Dir;
  Dist := Z;
  mid := box_mid;
  sqDist3d := sq_dist;
  dist_lt := Z.ltb;
  getDirection := direction;
  overlaps := box_overlaps;
  intersection := box_intersection;
  getBounds := box_go;
  dist_lt_asym := λ a b H,
    proj2 (Z.ltb_ge b a) (Z.lt_le_incl a b (proj1 (Z.ltb_lt a b) H))
|}.

Definition pos_step (p : Xyz) (d : Dir) : Xyz :=
  mkXyz (wrap64 (2 * pos_x p + (if isEast d then 1 else 0)))
        (wrap64 (2 * pos_y p + (if isNorth d then 1 else 0)))
        (wrap64 (2 * pos_z p + (if isUp d then 1 else 0))).

Definition key_step (k : Key) (p : P3) : Key :=
  let d := direction (box_mid (key_bounds k)) p in
  mkKey (box_go (key_bounds k) d) (pos_step (key_position k) d).

Definition ck_step (ck : ChunkKey) (d : Dir) : ChunkKey :=
  mkChunkKey (box_go (ck_bounds ck) d) (wrap64 (ck_depth ck + 1))
             (pos_step (ck_position ck) d).

Definition dash : string := "-".

Definition ck_string (ck : ChunkKey) : string :=
  pretty (ck_depth ck) +:+ dash +:+ pretty (pos_x (ck_position ck))
  +:+ dash +:+ pretty (pos_y (ck_position ck))
  +:+ dash +:+ pretty (pos_z (ck_position ck)).

Definition postfix (m : Metadata) (depth : Z) : string :=
  match subset m with
  | Some s => if depth <? sharedDepth m then dash +:+ pretty (toIntegral s) else EmptyString
  | None => EmptyString
  end.

#[export] Instance key_ops : KeyOps := {|
  step := key_step;
  getStep := ck_step;
  toString := ck_string;
  getPostfix := postfix
|}.

(** The cube [lo, hi)^3. *)
Definition box (lo hi : Z) : Box := mkBox (mkP3 lo lo lo) (mkP3 hi hi hi).

(** A dataset on [0, 32)^3 with 8 x 8 tubes per chunk. *)
Definition meta (minNode maxNode : Z) : Metadata :=
  mkMetadata 8 minNode maxNode 0 3 Binary (box 0 32) (box 0 32) None.

Definition root : ChunkKey := mkChunkKey (box 0 32) 0 (mkXyz 0 0 0).

(** The chunk [0, 4)^3 at depth 3. *)
Definition deep : ChunkKey := mkChunkKey (box 0 4) 3 (mkXyz 0 0 0).

(** The key of the voxel cell [0, 4)^3 of the root chunk. *)
Definition key000 : Key := mkKey (box 0 4) (mkXyz 0 0 0).

Definition voxel (x y z : Z) (tag : Byte.byte) : Voxel :=
  mkVoxel (mkP3 x y z) [tag].

(** The chunk a call of [insert] leaves. *)
Definition after (c : Chunk) (v : Voxel) (k : Key) : Chunk :=
  match chunk.insert c v k with
  | Some (_, c', _, _) => c'
  | None => c
  end.

(** The root chunk of a new dataset that splits buckets of 2 points or more
    once the chunk holds 3; then with a first point, which takes its cell;
    with a second point of the same cell, no nearer to its middle, which
    goes to the bucket of octant 0; and as [insertOverflow] has it when a
    third such point has been added to that bucket. *)
Definition fresh : Chunk := chunk.make (meta 2 3) root ∅.
Definition one : Chunk := after fresh (voxel 3 3 3 Byte.x01) key000.
Definition two : Chunk := after one (voxel 1 1 1 Byte.x02) key000.
Definition bucket0 : Overflow :=
  mkOverflow (ck_step root swd) [[Byte.x02]]
    [mkEntry (voxel 1 1 1 Byte.x02) key000].
Definition full : Chunk := props.with_entry two 0 bucket0 (voxel 0 0 0 Byte.x03) key000.
Definition bucket0_full : Overflow :=
  mkOverflow (ck_step root swd) [[Byte.x02]; [Byte.x03]]
    [mkEntry (voxel 1 1 1 Byte.x02) key000; mkEntry (voxel 0 0 0 Byte.x03) key000].

(** A manifest of three sources, the first one already inserted, and a
    builder on it. *)
Definition item (name : string) (np : Z) (done : bool) : BuildItem :=
  mkBuildItem (mkSource name (mkSourceInfo [] np (box 0 8))) done.

Definition sources : Builder :=
  mkBuilder (meta 2 3) [item "a.laz" 5 true; item "b.laz" 7 false; item "c.laz" 9 false].

(** An [insert] that fails on origin 1 and returns otherwise. *)
Definition failing (b : Builder) (origin : Z) : Builder * option Thrown :=
  (b, if origin =? 1 then Some (StdException "Unable to open file") else None).

End cube.

(* ===================================================================== *)
(** * Vocabulary: the shape of a chunk in use *)
(* ===================================================================== *)

Module inv.
Import overflow chunk props.
Section inv.
Context `{K : KeyOps}.

(** The grid has the [span * span] tubes the constructor gave it, for a span
    whose square fits [uint64_t]. *)
Definition grid_sized (c : Chunk) : Prop :=
  0 < m_span c < 2 ^ 32
  ∧ length (m_grid c) = Z.to_nat (m_span c * m_span c).

(** Every voxel of the grid points at a slot of the grid block. *)
Definition slots_valid (c : Chunk) : Prop :=
  ∀ i tube z r,
    m_grid c !! i = Some tube → tube !! z = Some r →
    (r_slot r < length (m_gridBlock c))%nat.

(** No two voxels of the grid point at the same slot. *)
Definition slots_distinct (c : Chunk) : Prop :=
  ∀ i tube z r i' tube' z' r',
    m_grid c !! i = Some tube → tube !! z = Some r →
    m_grid c !! i' = Some tube' → tube' !! z' = Some r' →
    r_slot r = r_slot r' → i = i' ∧ z = z'.

(** The grid block has one slot per voxel of the grid. *)
Definition grid_counted (c : Chunk) : Prop :=
  Z.of_nat (sum_list (size <$> m_grid c)) = MemBlock_size (m_gridBlock c).

(** The block of a bucket holds the bytes of its entries, slot by slot. *)
Definition synced_bucket (o : Overflow) : Prop :=
  o_block o = (λ e, v_data (e_voxel e)) <$> o_list o.

Definition synced (c : Chunk) : Prop :=
  ∀ i o, bucket c i = Some o → synced_bucket o.

(** What holds of a chunk from its construction on. *)
Definition sound (c : Chunk) : Prop :=
  grid_sized c ∧ slots_valid c ∧ slots_distinct c ∧ grid_counted c
  ∧ synced c ∧ counted c.

(** The chunk after the calls [insert(voxel, key)] of [ops], one after the
    other; [None] when one of them does not return. *)
Definition grow (c : Chunk) (ops : list (Voxel * Key)) : option Chunk :=
  foldl (λ st op, c ← st; (λ r, r.1.1.2) <$> chunk.insert c op.1 op.2)
        (Some c) ops.

(** The cell a key addresses: its tube and its key in the tube. *)
Definition cell_id (c : Chunk) (key : Key) : option nat * Z :=
  (tube_index c key, tube_key key).

(** The bytes of the voxels handed to [cache.insert]. *)
Definition calls_data (calls : list CacheInsert) : list Payload :=
  (λ call, v_data (ci_voxel call)) <$> calls.

(** The chunk after the calls [insert(voxel, key)] of [ops], with the bytes
    of the points that left it on the way, in the order they left: those of
    the voxels a split handed to [cache.insert], and those of the voxel a
    call that returned false left with its caller. *)
Fixpoint grow_log (c : Chunk) (ops : list (Voxel * Key))
    : option (Chunk * list Payload) :=
  match ops with
  | [] => Some (c, [])
  | op :: ops' =>
      match chunk.insert c op.1 op.2 with
      | Some (done, c1, voxel', calls) =>
          match grow_log c1 ops' with
          | Some (c', out) =>
              Some (c', calls_data calls
                          ++ (if done then [] else [v_data voxel']) ++ out)
          | None => None
          end
      | None => None
      end
  end.

End inv.
End inv.

(* ===================================================================== *)
(** * builder/chunk-cache.hpp: ReffedChunk *)
(* ===================================================================== *)

(** A call that returns a value or throws a [std::runtime_error]. *)
Inductive outcome (A : Type) :=
  | returned (a : A)
  | thrown (what : string).
Arguments returned {A} a.
Arguments thrown {A} what.

Module reffed.
Import chunk.
Section reffed.
Context `{K : KeyOps}.

Record ReffedChunk := mkReffedChunk {
  m_refs : Z;
  m_chunk : option Chunk
}.

(** [ReffedChunk(m, ck, h)] *)
Definition make (m : Metadata) (ck : ChunkKey) (h : Hierarchy) : ReffedChunk :=
  mkReffedChunk 0 (Some (chunk.make m ck h)).

(** [add()] *)
Definition add (r : ReffedChunk) : ReffedChunk :=
  mkReffedChunk (wrap64 (m_refs r + 1)) (m_chunk r).

(** [del()]: the count returned and the object afterwards. *)
Definition del (r : ReffedChunk) : outcome (Z * ReffedChunk) :=
  if m_refs r =? 0 then thrown "Negative"
  else returned (wrap64 (m_refs r - 1),
                 mkReffedChunk (wrap64 (m_refs r - 1)) (m_chunk r)).

(** [count()] *)
Definition count (r : ReffedChunk) : Z := m_refs r.

(** [chunk()] *)
Definition chunk (r : ReffedChunk) : outcome Chunk :=
  match m_chunk r with
  | Some c => returned c
  | None => thrown "Missing chunk"
  end.

(** [reset()] *)
Definition reset (r : ReffedChunk) : ReffedChunk := mkReffedChunk (m_refs r) None.

(** [exists()] *)
Definition exists_ (r : ReffedChunk) : bool :=
  match m_chunk r with Some _ => true | None => false end.

(** [assign(m, ck, h)]; [None] is the failed [assert(!exists())]. *)
Definition assign (r : ReffedChunk) (m : Metadata) (ck : ChunkKey) (h : Hierarchy)
    : option ReffedChunk :=
  if exists_ r then None
  else Some (mkReffedChunk (m_refs r) (Some (chunk.make m ck h))).

(** [n] calls of [add()], and [n] calls of [del()] that stop at the first
    one that throws. *)
Fixpoint acquire (n : nat) (r : ReffedChunk) : ReffedChunk :=
  match n with
  | O => r
  | S n => acquire n (add r)
  end.

Fixpoint release (n : nat) (r : ReffedChunk) : outcome ReffedChunk :=
  match n with
  | O => returned r
  | S n =>
      match del r with
      | returned (_, r') => release n r'
      | thrown what => thrown what
      end
  end.

End reffed.
End reffed.

(* ===================================================================== *)
(** * util/pipeline.cpp *)
(* ===================================================================== *)

#[local] Set Warnings "-register-all".

(** A [json] value of nlohmann::json, as util/pipeline.cpp and the builder
    use it for pipelines: an array of stages, each an object from keys to
    values.  Numbers are integers here. *)
Inductive Json :=
  | JNull
  | JBool (b : bool)
  | JNumber (n : Z)
  | JString (s : string)
  | JArray (items : list Json)
  | JObject (fields : gmap string Json).

(** What nlohmann::json throws where a value has the wrong type, or an array
    the wrong size. *)
Inductive JsonError := type_error | out_of_range.

Inductive tried (A : Type) :=
  | ok (a : A)
  | raised (e : JsonError).
Arguments ok {A} a.
Arguments raised {A} e.

Module pipeline.

(** [stage.value("type", "")]: the string at key "type" of an object, the
    default where the key is missing; anything else throws. *)
Definition value_type (stage : Json) : tried string :=
  match stage with
  | JObject fields =>
      match fields !! "type" with
      | Some (JString s) => ok s
      | Some _ => raised type_error
      | None => ok ""
      end
  | _ => raised type_error
  end.

(** The [std::find_if] of [findStage]: [i] is the position of the first of
    the stages [rest]; the end is the position after the last one. *)
Fixpoint find_from (i : nat) (rest : list Json) (type : string) : tried nat :=
  match rest with
  | [] => ok i
  | stage :: rest' =>
      match value_type stage with
      | raised e => raised e
      | ok t => if String.eqb t type then ok i else find_from (S i) rest' type
      end
  end.

(** [findStage(pipeline, type)], for a pipeline that is an array: the
    position found, [pipeline.end()] being the length. *)
Definition findStage (pipeline : list Json) (type : string) : tried nat :=
  find_from 0 pipeline type.

(** [findOrAppendStage(pipeline, type)]: the pipeline afterwards and the
    position of the stage returned by reference. *)
Definition findOrAppendStage (pipeline : list Json) (type : string)
    : tried (list Json * nat) :=
  match findStage pipeline type with
  | raised e => raised e
  | ok it =>
      if bool_decide (it ≠ length pipeline) then ok (pipeline, it)
      else ok (pipeline ++ [JObject {[ "type" := JString type ]}],
               length pipeline)
  end.

(** [omitStage(pipeline, type)] *)
Definition omitStage (pipeline : list Json) (type : string) : tried (list Json) :=
  match findStage pipeline type with
  | raised e => raised e
  | ok it =>
      if bool_decide (it = length pipeline) then ok pipeline
      else ok (delete it pipeline)
  end.

(** A stage [findStage] can read the type of: an object whose "type", if it
    has one, is a string. *)
Definition typed (stage : Json) : Prop := ∃ t, value_type stage = ok t.

(** Whether a stage is an object whose "type" is [type]. *)
Definition is_type (type : string) (stage : Json) : bool :=
  match value_type stage with
  | ok t => String.eqb t type
  | raised _ => false
  end.

(** A list without the first of its elements that passes a test. *)
Fixpoint remove_first {A : Type} (test : A → bool) (l : list A) : list A :=
  match l with
  | [] => []
  | x :: l' => if test x then l' else x :: remove_first test l'
  end.

(** A list with [f] applied to the first of its elements that passes a
    test, and with [fresh] at its end when none does. *)
Fixpoint update_first {A : Type} (test : A → bool) (f : A → A) (fresh : A)
    (l : list A) : list A :=
  match l with
  | [] => [fresh]
  | x :: l' =>
      if test x then f x :: l' else x :: update_first test f fresh l'
  end.

(** A [pdal::Stage] as these functions see it: its name, whether it is a
    [pdal::Reader], and its inputs. *)
Inductive Stage := mkStage (name : string) (reader : bool) (inputs : list Stage).

Definition name (s : Stage) : string := let 'mkStage n _ _ := s in n.
Definition is_reader (s : Stage) : bool := let 'mkStage _ r _ := s in r.
Definition getInputs (s : Stage) : list Stage := let 'mkStage _ _ i := s in i.

Definition must_be_linear : string := "Invalid pipeline - must be linear".

(** [findStage(last, type)] on stages; [None] is [nullptr]. *)
Fixpoint findStage_pdal (current : Stage) (type : string) : outcome (option Stage) :=
  let 'mkStage n r inputs := current in
  if String.eqb n type then returned (Some current)
  else match inputs with
       | [] => returned None
       | [input] => findStage_pdal input type
       | _ :: _ :: _ => thrown must_be_linear
       end.

(** [getFirst(last)] *)
Fixpoint getFirst (current : Stage) : outcome Stage :=
  let 'mkStage n r inputs := current in
  match inputs with
  | [] => returned current
  | [input] => getFirst input
  | _ :: _ :: _ => thrown must_be_linear
  end.

(** [getReader(last)] *)
Definition getReader (last : Stage) : outcome Stage :=
  match getFirst last with
  | returned first =>
      if is_reader first then returned first
      else thrown "Invalid pipeline - must start with reader"
  | thrown what => thrown what
  end.

(** [getStage(pm)], [pm.getStage()] being the last stage or [nullptr]. *)
Definition getStage (pm : option Stage) : outcome Stage :=
  match pm with
  | Some s => returned s
  | None => thrown "Invalid pipeline - no stages"
  end.

(** The stages from [s] along the first inputs, while there is one input. *)
Fixpoint chain (s : Stage) : list Stage :=
  let 'mkStage _ _ inputs := s in
  s :: match inputs with
       | [input] => chain input
       | _ => []
       end.

(** No stage of the chain has more than one input. *)
Definition linear (s : Stage) : Prop :=
  ∀ x, x ∈ chain s → (length (getInputs x) ≤ 1)%nat.

End pipeline.

(* ===================================================================== *)
(** * builder/builder.cpp: Builder::insert *)
(* ===================================================================== *)

Module heuristics.

(** [heuristics::sleepCount] *)
Definition sleepCount : Z := 65536 * 32.

End heuristics.

Module ingest.
Import chunk pipeline.

(** The pipeline [Builder::insert] hands to PDAL, from the pipeline of the
    source, the local path of the file and whether statistics are needed. *)
Definition set_filename (stage : Json) (localPath : string) : tried Json :=
  match stage with
  | JNull => ok (JObject {[ "filename" := JString localPath ]})
  | JObject fields => ok (JObject (<["filename" := JString localPath]> fields))
  | _ => raised type_error
  end.

(** The stages of the pipeline of a source: one empty stage if it has no
    pipeline. *)
Definition stages_of (info_pipeline : Json) : list Json :=
  match info_pipeline with
  | JNull => [JObject ∅]
  | JArray stages => stages
  | _ => []
  end.

Definition prepare (info_pipeline : Json) (localPath : string) (needsStats : bool)
    : tried (list Json) :=
  let pipeline :=
    match info_pipeline with
    | JNull => JArray [JObject ∅]
    | _ => info_pipeline
    end in
  match pipeline with
  | JArray [] => raised out_of_range
  | JArray (first :: rest) =>
      match set_filename first localPath with
      | raised e => raised e
      | ok first =>
          let pipeline := first :: rest in
          if needsStats then
            match findOrAppendStage pipeline "filters.stats" with
            | raised e => raised e
            | ok (pipeline, it) =>
                match pipeline !! it with
                | Some (JObject statsFilter) =>
                    match statsFilter !! "enumerate" with
                    | Some _ => ok pipeline
                    | None =>
                        ok (<[it := JObject (<["enumerate" := JString "Classification"]>
                                               statsFilter)]> pipeline)
                    end
                | _ => raised type_error
                end
            end
          else ok pipeline
      end
  | _ => raised type_error
  end.

(** The pipeline as the comments of [Builder::insert] describe it, to be
    compared with [prepare]: the first stage reads the local file; if
    statistics are needed, the first "filters.stats" stage enumerates the
    classification unless it says what to enumerate, and a stage that does
    is added at the end when there is none. *)
Definition reader_stage (first : Json) (localPath : string) : Json :=
  JObject (<["filename" := JString localPath]>
             match first with
             | JObject fields => fields
             | _ => ∅
             end).

Definition with_enumerate (stage : Json) : Json :=
  match stage with
  | JObject fields =>
      match fields !! "enumerate" with
      | Some _ => stage
      | None => JObject (<["enumerate" := JString "Classification"]> fields)
      end
  | _ => stage
  end.

Definition described (info_pipeline : Json) (localPath : string) (needsStats : bool)
    : list Json :=
  match stages_of info_pipeline with
  | [] => []
  | first :: rest =>
      let pipeline := reader_stage first localPath :: rest in
      if needsStats
      then update_first (is_type "filters.stats") with_enumerate
             (with_enumerate (JObject {[ "type" := JString "filters.stats" ]}))
             pipeline
      else pipeline
  end.

(** What [Builder::insert] uses of PDAL's point tables and of types/: the
    test [Bounds::contains(point)]; the bytes of a point after
    [setField(OriginId, originId)] and [setField(PointId, pointId)];
    [voxel.clip(so)] for the scale and offset of the schema, the identity if
    it has none; [key.init(point)] on a key of the metadata;
    [ChunkKey(metadata.bounds, getStartDepth(metadata))] and [ck.reset()]. *)
Class TableOps `{G : Geometry} := {
  contains : Bounds → Point → bool;
  set_ids : Z → Z → Payload → Payload;
  clip : Voxel → Voxel;
  key_init : Metadata → Point → Key;
  ck_init : Metadata → ChunkKey;
  ck_reset : ChunkKey → ChunkKey
}.

Section process.
Context `{T : TableOps}.

(** What the callback asks of its collaborators: [clipper.clip()], or
    [cache.insert(voxel, key, ck, clipper)]. *)
Inductive Event :=
  | Clip
  | Insert (voxel : Voxel) (key : Key) (ck : ChunkKey).

(** The variables the callback captures: [inserted], [pointId], [ck], the
    shared [counter], and the calls made so far. *)
Record State := mkState {
  inserted : Z;
  pointId : Z;
  ck : ChunkKey;
  counter : Z;
  trace : list Event
}.

(** [boundsSubset] of [Builder::insert]. *)
Definition boundsSubset (m : Metadata) : option Bounds :=
  match subset m with
  | Some s => Some (getBounds (bounds m) s)
  | None => None
  end.

(** The test a point passes to be inserted. *)
Definition inside (m : Metadata) (point : Point) : bool :=
  contains (boundsConforming m) point
  && match boundsSubset m with
     | Some b => contains b point
     | None => true
     end.

(** A point of the table as the loop hands it on: stamped with the origin
    and its id, then clipped. *)
Definition stamp (originId pid : Z) (row : Voxel) : Voxel :=
  clip (mkVoxel (v_point row) (set_ids originId pid (v_data row))).

(** The loop over the points of one batch: [pid] is [pointId], [inserts] is
    [counts.inserts], [events] the calls of this batch so far. *)
Fixpoint points (m : Metadata) (originId : Z) (rest : list Voxel)
    (pid inserts : Z) (ck : ChunkKey) (events : list Event)
    : Z * Z * ChunkKey * list Event :=
  match rest with
  | [] => (pid, inserts, ck, events)
  | row :: rest' =>
      let voxel := stamp originId pid row in
      let pid := wrap64 (pid + 1) in
      let point := v_point voxel in
      let ck := ck_reset ck in
      if inside m point
      then points m originId rest' pid (wrap64 (inserts + 1)) ck
             (events ++ [Insert voxel (key_init m point) ck])
      else points m originId rest' pid inserts ck events
  end.

(** The callback [table.setProcess] is given, run on one batch. *)
Definition process (m : Metadata) (originId : Z) (st : State) (table : list Voxel)
    : State :=
  let inserted := wrap64 (inserted st + Z.of_nat (length table)) in
  let '(inserted, clipped) :=
    if heuristics.sleepCount <? inserted then (0, [Clip]) else (inserted, []) in
  let '(pid, inserts, ck, events) :=
    points m originId table (pointId st) 0 (ck st) clipped in
  mkState inserted pid ck (wrap64 (counter st + inserts)) (trace st ++ events).

(** The callback over the batches the reader delivers, from the state
    [Builder::insert] starts with. *)
Definition batches (m : Metadata) (originId : Z) (counter0 : Z)
    (tables : list (list Voxel)) : State :=
  foldl (process m originId) (mkState 0 0 (ck_init m) counter0 []) tables.

(** The calls of [cache.insert] in a trace, and the number of clips. *)
Definition inserts_of (events : list Event) : list (Voxel * Key * ChunkKey) :=
  omap (λ e, match e with
             | Insert voxel key ck => Some (voxel, key, ck)
             | Clip => None
             end) events.

Definition is_clip (e : Event) : bool :=
  match e with
  | Clip => true
  | Insert _ _ _ => false
  end.

Definition clips_of (events : list Event) : nat :=
  length (List.filter is_clip events).

(** The call of [cache.insert] for the point at position [k] of a source, if
    it passes the test. *)
Definition insert_of (m : Metadata) (originId : Z) (k : nat) (row : Voxel)
    : option (Voxel * Key * ChunkKey) :=
  let voxel := stamp originId (Z.of_nat k) row in
  if inside m (v_point voxel)
  then Some (voxel, key_init m (v_point voxel), Nat.iter (S k) ck_reset (ck_init m))
  else None.

(** The calls for the points of a source: those that pass the test, in the
    order of the source, each numbered by its position among all points. *)
Definition expected (m : Metadata) (originId : Z) (rows : list Voxel)
    : list (Voxel * Key * ChunkKey) :=
  omap (λ kr, insert_of m originId kr.1 kr.2) (imap pair rows).

(** The same from position [k] on, and a call as an event. *)
Definition expected_from (m : Metadata) (originId : Z) (k : nat) (rows : list Voxel)
    : list (Voxel * Key * ChunkKey) :=
  omap (λ kr, insert_of m originId kr.1 kr.2)
       (imap (λ i row, ((k + i)%nat, row)) rows).

Definition to_event (call : Voxel * Key * ChunkKey) : Event :=
  Insert call.1.1 call.1.2 call.2.

End process.
End ingest.

(* ===================================================================== *)
(** * builder/builder.cpp: the tasks of runInserts, and mergeOne *)
(* ===================================================================== *)

Module driver.
Import builder.
Section driver.
Context `{G : Geometry}.

Variable insert : Builder → Z → Builder * option Thrown.
Variable out_of_range : string.

(** The tasks [runInserts] added to the pool, each a call of [tryInsert],
    run to their end as [pool.join()] waits for them; they work on different
    items of the manifest, and are taken here in the order they were
    added. *)
Definition run_tasks (b : Builder) (origins : list Z) : Builder :=
  foldl (λ b origin, (tryInsert insert out_of_range b origin).1) b origins.

(** The builder when [pool.join()] of [runInserts(threads, limit, counter)]
    returns. *)
Definition joined (b : Builder) (limit : Z) : Builder :=
  run_tasks b (runInserts b limit).

(** What the driver relies on: [Builder::insert] writes the statistics of a
    source into its schema and nothing of what [runInserts] tests. *)
Definition keeps_wanted : Prop :=
  ∀ b origin,
    metadata (insert b origin).1 = metadata b
    ∧ ∀ active, wanted active <$> manifest (insert b origin).1
                = wanted active <$> manifest b.

End driver.

(** The positions of the flags that are set, counted from [k]. *)
Definition marked_from (k : nat) (flags : list bool) : list Z :=
  omap (λ p : nat * bool, if p.2 then Some (Z.of_nat p.1) else None)
       (imap (λ j flag, ((k + j)%nat, flag)) flags).

(** The flags with those at the positions [origins] cleared. *)
Definition cleared (flags : list bool) (origins : list Z) : list bool :=
  foldl (λ flags origin, <[Z.to_nat origin := false]> flags) flags origins.

End driver.

Module merge.

(** [key.d] of a [Dxyz]. *)
Definition d (key : Dxyz) : Z := key.1.1.1.

(** Modelled from the spec: [hierarchy::set] of builder/hierarchy.hpp, the
    update "hierarchy[dxyz] = np" of the sparse mapping. *)
Definition set (h : Hierarchy) (key : Dxyz) (count : Z) : Hierarchy :=
  <[key := count]> h.

(** What [mergeOne] calls outside builder.cpp.  The [ChunkCache] was built
    on the hierarchy of the destination and holds a reference to it, so that
    a call of [cache.insert], and the release of the [Clipper] when
    [mergeOne] returns, work on the hierarchy together with the state
    [Cache] of the cache and the clipper, and may write both.  [io_read] are
    the points [io::read] delivers for a file of the subset, batch after
    batch; these files are not written while [mergeOne] runs.  [pk_init] and
    [ck_init] are [pk.init(point, depth)] and [ck.init(point, depth)] on a
    key of the metadata; [dxyz_toString] is [key.toString()] and
    [getPostfix_of] is [getPostfix(metadata)]. *)
Class MergeOps `{G : Geometry} := {
  Cache : Type;
  cache_insert : Hierarchy * Cache → Voxel → Key → ChunkKey → Hierarchy * Cache;
  clipper_release : Hierarchy * Cache → Hierarchy * Cache;
  io_read : DataType → Metadata → string → list (list Voxel);
  pk_init : Metadata → Point → Z → Key;
  ck_init : Metadata → Point → Z → ChunkKey;
  dxyz_toString : Dxyz → string;
  getPostfix_of : Metadata → string
}.

Section merge.
Context `{M : MergeOps}.

(** The hierarchy of the destination and the state of the cache during a
    call, with the files read and the calls of [cache.insert] so far. *)
Record Run := mkRun {
  st_hierarchy : Hierarchy;
  st_cache : Cache;
  st_reads : list string;
  st_calls : list (Voxel * Key * ChunkKey)
}.

(** The callback [table.setProcess] is given, on one batch of the chunk of
    [key]; [None] is the failed [assert(ck.dxyz() == key)]. *)
Fixpoint process (metadata : Metadata) (key : Dxyz) (table : list Voxel) (st : Run)
    : option Run :=
  match table with
  | [] => Some st
  | voxel :: rest =>
      let point := v_point voxel in
      let pk := pk_init metadata point (d key) in
      let ck := ck_init metadata point (d key) in
      if bool_decide (dxyz ck = key) then
        let after := cache_insert (st_hierarchy st, st_cache st) voxel pk ck in
        process metadata key rest
          (mkRun after.1 after.2 (st_reads st) (st_calls st ++ [(voxel, pk, ck)]))
      else None
  end.

(** [io::read(..., stem, table)]: the callback on every batch delivered. *)
Fixpoint read (metadata : Metadata) (key : Dxyz) (batches : list (list Voxel))
    (st : Run) : option Run :=
  match batches with
  | [] => Some st
  | table :: rest =>
      match process metadata key table st with
      | Some st' => read metadata key rest st'
      | None => None
      end
  end.

(** The name of the chunk file of a node of the subset [src]. *)
Definition stem (src : Metadata) (key : Dxyz) : string :=
  dxyz_toString key +:+ getPostfix_of src.

(** The loop of [mergeOne] over the entries [nodes] of [src.hierarchy.map],
    in its order; [metadata] is [dst.metadata], [src] is [src.metadata].
    [None] is a failed [assert]. *)
Fixpoint nodes_loop (metadata src : Metadata) (nodes : list (Dxyz * Z)) (st : Run)
    : option Run :=
  match nodes with
  | [] => Some st
  | (key, count) :: rest =>
      if count =? 0 then nodes_loop metadata src rest st
      else if sharedDepth src <=? d key then
        if hierarchy.get (st_hierarchy st) key =? 0
        then nodes_loop metadata src rest
               (mkRun (set (st_hierarchy st) key count) (st_cache st)
                      (st_reads st) (st_calls st))
        else None
      else
        match read metadata key (io_read (dataType metadata) metadata (stem src key))
                (mkRun (st_hierarchy st) (st_cache st)
                       (st_reads st ++ [stem src key]) (st_calls st)) with
        | Some st' => nodes_loop metadata src rest st'
        | None => None
        end
  end.

(** [builder::mergeOne(dst, src, cache)]: the loop, then the destructor of
    the [Clipper]. *)
Definition mergeOne (metadata src : Metadata) (nodes : list (Dxyz * Z))
    (dst : Hierarchy) (cache : Cache) : option Run :=
  match nodes_loop metadata src nodes (mkRun dst cache [] []) with
  | Some st =>
      let after := clipper_release (st_hierarchy st, st_cache st) in
      Some (mkRun after.1 after.2 (st_reads st) (st_calls st))
  | None => None
  end.

(** The nodes [mergeOne] copies, and the nodes it reads back. *)
Definition copied (src : Metadata) (node : Dxyz * Z) : bool :=
  negb (node.2 =? 0) && (sharedDepth src <=? d node.1).

Definition streamed (src : Metadata) (node : Dxyz * Z) : bool :=
  negb (node.2 =? 0) && negb (sharedDepth src <=? d node.1).

(** The points of the chunk file of a node, the call of [cache.insert] for
    one of them, and whether the chunk key found for it is the node's. *)
Definition points_of (metadata src : Metadata) (key : Dxyz) : list Voxel :=
  concat (io_read (dataType metadata) metadata (stem src key)).

Definition call_of (metadata : Metadata) (key : Dxyz) (voxel : Voxel)
    : Voxel * Key * ChunkKey :=
  (voxel, pk_init metadata (v_point voxel) (d key),
   ck_init metadata (v_point voxel) (d key)).

Definition in_node (metadata : Metadata) (key : Dxyz) (voxel : Voxel) : Prop :=
  dxyz (ck_init metadata (v_point voxel) (d key)) = key.

(** The calls for the nodes read back, node after node. *)
Definition streamed_calls (metadata src : Metadata) (nodes : list (Dxyz * Z))
    : list (Voxel * Key * ChunkKey) :=
  concat ((λ node, call_of metadata node.1 <$> points_of metadata src node.1)
          <$> List.filter (streamed src) nodes).

(** A call of [cache.insert] leaves the hierarchy as it is: the cache
    writes the count of a chunk when it serialises it, after the clipper
    has released it. *)
Definition leaves_hierarchy : Prop :=
  ∀ shared voxel key ck, (cache_insert shared voxel key ck).1 = shared.1.

End merge.

(** The sum of the counts of a hierarchy. *)
Definition total (h : Hierarchy) : Z := map_fold (λ _ count sum, count + sum) 0 h.

End merge.

(* ===================================================================== *)
(** * More inputs on integer boxes *)
(* ===================================================================== *)

Module sample.
Import overflow chunk builder ingest pipeline cube.

#[local] Existing Instance cube.geometry.
#[local] Existing Instance cube.key_ops.

(** Two points for the cell [0, 4)^3 of the root chunk. *)
Definition ops : list (Voxel * Key) :=
  [(voxel 3 3 3 Byte.x01, key000); (voxel 1 1 1 Byte.x02, key000)].

(** The same with a third point for that cell. *)
Definition three : list (Voxel * Key) := ops ++ [(voxel 0 0 0 Byte.x03, key000)].

(** The key of the voxel cell above [key000], in the same tube. *)
Definition key001 : Key := mkKey (mkBox (mkP3 0 0 4) (mkP3 4 4 8)) (mkXyz 0 0 1).

(** The chunk [full] when the bucket of octant 0 has been split off,
    and after one more point of that octant has come. *)
Definition closed : Chunk :=
  match doOverflow full 0 with
  | Some (c, _) => c
  | None => full
  end.

Definition closed_calls : list CacheInsert :=
  match doOverflow full 0 with
  | Some (_, calls) => calls
  | None => []
  end.

Definition late : list (Voxel * Key) := [(voxel 0 0 0 Byte.x05, key000)].

Definition regrown : Chunk := default closed (inv.grow closed late).

(** A reference-counted root chunk. *)
Definition reffed_root : reffed.ReffedChunk := reffed.make (meta 2 3) root ∅.

(** A pipeline of a reader and a crop filter, and one with two statistics
    filters. *)
Definition stage (type : string) : Json := JObject {[ "type" := JString type ]}.

Definition template : list Json := [stage "readers.las"; stage "filters.crop"].

(** A pipeline with two statistics filters, and what [Builder::insert]
    makes of it for the local file /tmp/a.laz. *)
Definition two_stats : list Json :=
  [stage "readers.las"; stage "filters.stats"; stage "filters.stats"].

Definition two_stats_prepared : list Json :=
  [JObject (<["filename" := JString "/tmp/a.laz"]>
              {[ "type" := JString "readers.las" ]});
   JObject (<["enumerate" := JString "Classification"]>
              {[ "type" := JString "filters.stats" ]});
   stage "filters.stats"].

(** A PDAL pipeline reader <- crop <- stats. *)
Definition las : Stage := mkStage "readers.las" true [].
Definition crop : Stage := mkStage "filters.crop" false [las].
Definition stats : Stage := mkStage "filters.stats" false [crop].

(** The table operations on integer boxes: half-open containment, the ids
    appended to the bytes of the point as one byte each, no scaling, the key
    of the voxel cell at the start depth, and the root chunk key. *)
Definition box_contains (b : Box) (p : P3) : bool :=
  (px (b_min b) <=? px p) && (px p <? px (b_max b))
  && (py (b_min b) <=? py p) && (py p <? py (b_max b))
  && (pz (b_min b) <=? pz p) && (pz p <? pz (b_max b)).

Definition id_byte (n : Z) : Byte.byte :=
  default Byte.x00 (Byte.of_N (Z.to_N (n mod 256))).

Definition stamp_ids (originId pointId : Z) (data : Payload) : Payload :=
  data ++ [id_byte originId; id_byte pointId].

Definition descend (m : Metadata) (p : P3) : Key :=
  Nat.iter (Z.to_nat (startDepth m)) (λ k, key_step k p)
           (mkKey (bounds m) (mkXyz 0 0 0)).

Definition to_root (ck : ChunkKey) : ChunkKey :=
  mkChunkKey (ck_bounds ck) 0 (mkXyz 0 0 0).

#[export] Instance table_ops : TableOps := {|
  contains := box_contains;
  set_ids := stamp_ids;
  clip := id;
  key_init := descend;
  ck_init := λ m, mkChunkKey (bounds m) 0 (mkXyz 0 0 0);
  ck_reset := to_root
|}.

(** Two batches of a source: the second point lies outside [0, 32)^3. *)
Definition tables : list (list Voxel) :=
  [[voxel 3 3 3 Byte.x01; voxel 40 1 1 Byte.x02];
   [voxel 1 1 1 Byte.x03]].

(** The hierarchy of a merged build so far, and the nodes of a subset that
    shares the two upper levels. *)
Definition merged : Hierarchy := {[ (2, 0, 0, 0) := 5 ]}.

Definition nodes : list (Dxyz * Z) :=
  [((0, 0, 0, 0), 7); ((2, 1, 0, 0), 3); ((3, 0, 0, 0), 0)].

Definition subset_meta : Metadata :=
  mkMetadata 8 2 3 2 3 Binary (box 0 32) (box 0 32) (Some swd).

(** What [mergeOne] calls, on integer boxes: a cache that keeps the calls
    it gets and writes nothing, a store with one chunk file of two batches,
    keys that descend to the depth asked for, and the names of the files. *)
Definition key_at (m : Metadata) (p : P3) (depth : Z) : Key :=
  Nat.iter (Z.to_nat (startDepth m + depth)) (λ k, key_step k p)
           (mkKey (bounds m) (mkXyz 0 0 0)).

Definition chunk_key_at (m : Metadata) (p : P3) (depth : Z) : ChunkKey :=
  Nat.iter (Z.to_nat depth)
           (λ ck, ck_step ck (direction (box_mid (ck_bounds ck)) p))
           (mkChunkKey (bounds m) 0 (mkXyz 0 0 0)).

Definition dxyz_string (key : Dxyz) : string :=
  pretty key.1.1.1 +:+ dash +:+ pretty key.1.1.2
  +:+ dash +:+ pretty key.1.2 +:+ dash +:+ pretty key.2.

Definition subset_postfix (m : Metadata) : string :=
  match subset m with
  | Some s => dash +:+ pretty (toIntegral s)
  | None => EmptyString
  end.

Definition store (stem : string) : list (list Voxel) :=
  if String.eqb stem "0-0-0-0-0"
  then [[voxel 3 3 3 Byte.x01]; [voxel 20 1 1 Byte.x02]]
  else [].

#[export] Instance merge_ops : merge.MergeOps := {|
  merge.Cache := list (Voxel * Key * ChunkKey);
  merge.cache_insert := λ shared voxel key ck, (shared.1, shared.2 ++ [(voxel, key, ck)]);
  merge.clipper_release := λ shared, shared;
  merge.io_read := λ _ _ stem, store stem;
  merge.pk_init := key_at;
  merge.ck_init := chunk_key_at;
  merge.dxyz_toString := dxyz_string;
  merge.getPostfix_of := subset_postfix
|}.

End sample.

(* ===================================================================== *)
(** * Properties of util/algorithm.hpp *)
(* ===================================================================== *)

Section algorithm_facts.
Import algorithm.
Context {A : Type} (comp : A → A → bool) (Hswo : StrictWeakOrder comp).

(** A strict weak order splits at every third element. *)
Lemma swo_cotrans x y z :
  comp x y = true → comp x z = true ∨ comp z y = true.
Proof.
  intros Hxy.
  destruct (comp x z) eqn:Hxz; [by left|].
  destruct (comp z y) eqn:Hzy; [by right|].
  exfalso.
  destruct (comp z x) eqn:Hzx.
  { rewrite (swo_trans comp Hswo z x y) in Hzy; done. }
  destruct (comp y z) eqn:Hyz.
  { rewrite (swo_trans comp Hswo x y z) in Hxz; done. }
  destruct (swo_incomp comp Hswo x z y) as [Hno _]; congruence.
Qed.

Lemma swo_flip : StrictWeakOrder (λ a b, comp b a).
Proof.
  split.
  - intros x. apply (swo_irrefl comp Hswo).
  - intros x y z Hxy Hyz. by apply (swo_trans comp Hswo z y x).
  - intros x y z H1 H2 H3 H4.
    destruct (swo_incomp comp Hswo x y z) as [? ?]; auto.
Qed.

(** The invariant of the loop: [best] is the first minimum of the elements
    visited so far. *)
Lemma scan_first_min (rest visited : list A) (b : nat) (vb : A) :
  first_min_at comp visited b →
  visited !! b = Some vb →
  first_min_at comp (visited ++ rest)
    (scan (λ c smallest, comp c smallest) rest (length visited) (b, vb)).1
  ∧ (visited ++ rest) !!
      (scan (λ c smallest, comp c smallest) rest (length visited) (b, vb)).1
    = Some (scan (λ c smallest, comp c smallest) rest (length visited) (b, vb)).2.
Proof.
  revert visited b vb.
  induction rest as [|x rest IH]; intros visited b vb Hmin Hb.
  { rewrite app_nil_r. done. }
  replace (visited ++ x :: rest) with ((visited ++ [x]) ++ rest)
    by (by rewrite <- app_assoc).
  cbn [scan snd].
  replace (S (length visited)) with (length (visited ++ [x]))
    by (rewrite length_app; simpl; lia).
  destruct Hmin as (m & Hm & Hlow & Hbefore).
  assert (m = vb) as -> by congruence.
  destruct (comp x vb) eqn:Hx.
  - (* the new element is strictly smaller: it becomes the best *)
    apply IH.
    + exists x. split_and!.
      * by rewrite lookup_app_r, Nat.sub_diag.
      * intros j y Hy.
        destruct (decide (j < length visited)%nat) as [Hlt|Hge].
        -- rewrite lookup_app_l in Hy by done.
           destruct (comp y x) eqn:Hyx; [|done].
           pose proof (swo_trans comp Hswo y x vb Hyx Hx) as Ht.
           by rewrite (Hlow j y Hy) in Ht.
        -- rewrite lookup_app_r in Hy by lia.
           destruct (j - length visited)%nat eqn:E; simplify_eq/=.
           apply (swo_irrefl comp Hswo).
      * intros j y Hj Hy.
        rewrite lookup_app_l in Hy by done.
        destruct (swo_cotrans x vb y Hx) as [?|Hyvb]; [done|].
        by rewrite (Hlow j y Hy) in Hyvb.
    + by rewrite lookup_app_r, Nat.sub_diag.
  - (* otherwise the best stays *)
    apply IH.
    + exists vb. split_and!.
      * rewrite lookup_app_l; [done|]. by eapply lookup_lt_Some.
      * intros j y Hy.
        destruct (decide (j < length visited)%nat) as [Hlt|Hge].
        -- rewrite lookup_app_l in Hy by done. eauto.
        -- rewrite lookup_app_r in Hy by lia.
           destruct (j - length visited)%nat eqn:E; by simplify_eq/=.
      * intros j y Hj Hy.
        assert (b < length visited)%nat by by eapply lookup_lt_Some.
        rewrite lookup_app_l in Hy by lia. eauto.
    + rewrite lookup_app_l; [done|]. by eapply lookup_lt_Some.
Qed.

Lemma min_element_comp_first_min (l : list A) :
  l ≠ [] → first_min_at comp l (min_element_comp comp l).
Proof.
  destruct l as [|x rest]; [done|]; intros _.
  unfold min_element_comp.
  apply (scan_first_min rest [x] 0%nat x); [|done].
  exists x. split_and!; [done| |].
  - intros [|j] y Hy; simplify_eq/=. apply (swo_irrefl comp Hswo).
  - intros j y Hj. lia.
Qed.

End algorithm_facts.

Lemma Zltb_strict_weak_order : algorithm.StrictWeakOrder Z.ltb.
Proof.
  split.
  - intros x. apply Z.ltb_irrefl.
  - intros x y z. rewrite !Z.ltb_lt. lia.
  - intros x y z. rewrite !Z.ltb_ge. lia.
Qed.

(** C10. For a comparison that is a strict weak ordering, the four templates
    [min_element] / [max_element] (with a comparator and with [operator<])
    return [last] on an empty range, and on a non-empty one the position of
    the first element that attains the minimum (respectively the maximum):
    nothing in the range is strictly below (above) it, and every element
    before it is strictly above (below) it. *)
Theorem C10_min_max_element_first_extremum
    {A : Type} (comp : A → A → bool) (l : list A) :
  algorithm.StrictWeakOrder comp →
  (l = [] →
     algorithm.min_element_comp comp l = length l
     ∧ algorithm.max_element_comp comp l = length l
     ∧ @algorithm.min_element A comp l = length l
     ∧ @algorithm.max_element A comp l = length l)
  ∧ (l ≠ [] →
     algorithm.first_min_at comp l (algorithm.min_element_comp comp l)
     ∧ algorithm.first_max_at comp l (algorithm.max_element_comp comp l)
     ∧ algorithm.first_min_at comp l (@algorithm.min_element A comp l)
     ∧ algorithm.first_max_at comp l (@algorithm.max_element A comp l)).
Proof.
  intros Hswo. split.
  - intros ->. done.
  - intros Hne.
    pose proof (min_element_comp_first_min comp Hswo l Hne) as Hmin.
    pose proof (min_element_comp_first_min (λ a b, comp b a)
                  (swo_flip comp Hswo) l Hne) as Hmax.
    split_and!; [exact Hmin | exact Hmax | exact Hmin | exact Hmax].
Qed.

Lemma C10_witness :
  algorithm.first_min_at Z.ltb [3; 1; 2; 1; 3] 1
  ∧ algorithm.first_max_at Z.ltb [3; 1; 2; 1; 3] 0.
Proof.
  pose proof (C10_min_max_element_first_extremum Z.ltb [3; 1; 2; 1; 3]
                Zltb_strict_weak_order) as [_ H].
  destruct H as (Hmin & Hmax & _); [done|].
  split; [exact Hmin | exact Hmax].
Defined.

(* ===================================================================== *)
(** * Properties of builder/chunk.cpp: construction *)
(* ===================================================================== *)

Section chunk_make_facts.
Import overflow chunk props.
Context `{K : KeyOps}.

Lemma toDir_toIntegral (d : Dir) : toDir (toIntegral d) = d.
Proof. by destruct d. Qed.

Lemma make_bucket (m : Metadata) (ck : ChunkKey) (h : Hierarchy) (d : Dir) :
  m_overflows (make m ck h) !! toIntegral d
  = Some (if hierarchy.get h (dxyz (getStep ck d)) =? 0
          then Some (overflow.make (getStep ck d)) else None).
Proof. by destruct d. Qed.

Lemma make_overflows_length (m : Metadata) (ck : ChunkKey) (h : Hierarchy) :
  length (m_overflows (make m ck h)) = 8%nat.
Proof. done. Qed.

(** C4. Right after construction, the overflow bucket of each octant [d] is
    present exactly when the hierarchy holds no persisted child (no non-zero
    count) at the dxyz of [childAt(d)], which is the key one step into [d];
    a bucket that is absent therefore comes with a hierarchy entry at that
    child. *)
Theorem C4_overflow_present_iff_no_persisted_child
    (m : Metadata) (ck : ChunkKey) (h : Hierarchy) (d : Dir) :
  childAt (make m ck h) d = getStep ck d
  ∧ (is_Some (bucket (make m ck h) (toIntegral d))
     ↔ ¬ persisted h (dxyz (childAt (make m ck h) d)))
  ∧ (bucket (make m ck h) (toIntegral d) = None →
     ∃ count, h !! dxyz (childAt (make m ck h) d) = Some count ∧ count ≠ 0).
Proof.
  unfold bucket, persisted, childAt. rewrite make_bucket.
  cbn [m_childKeys make mjoin option_join].
  destruct (Z.eqb_spec (hierarchy.get h (dxyz (getStep ck d))) 0) as [E|E].
  - split_and!; [done| |done].
    split; [intros _ ?; done | intros _; by eexists].
  - split_and!; [done| |].
    + split; [by intros [? ?] | intros Hn; by destruct Hn].
    + intros _. unfold hierarchy.get in E.
      destruct (h !! dxyz (getStep ck d)) as [count|]; [|done].
      by exists count.
Qed.

(** C7, as the code has it.  The grid allocated at construction has
    [span * span] tubes (in [uint64_t] arithmetic), all of them empty, where
    [span] is the span of the metadata: the same for every chunk of the
    dataset, whatever its depth. *)
Theorem C7_grid_side_is_metadata_span
    (m : Metadata) (ck : ChunkKey) (h : Hierarchy) :
  m_span (make m ck h) = span m
  ∧ length (m_grid (make m ck h)) = Z.to_nat (wrap64 (span m * span m))
  ∧ (∀ i tube, m_grid (make m ck h) !! i = Some tube → tube = ∅)
  ∧ (0 ≤ span m < 2 ^ 32 →
     Z.of_nat (length (m_grid (make m ck h))) = m_span (make m ck h) * m_span (make m ck h))
  ∧ (∀ ck' h', length (m_grid (make m ck' h')) = length (m_grid (make m ck h))).
Proof.
  cbn [m_span m_grid make]. rewrite !length_replicate. split_and!; try done.
  - intros i tube Hi. by apply lookup_replicate in Hi as [-> _].
  - intros Hspan. unfold wrap64. rewrite Z.mod_small by nia. nia.
Qed.

End chunk_make_facts.

(* ===================================================================== *)
(** * Properties of builder/chunk.cpp: splitting *)
(* ===================================================================== *)

Section chunk_overflow_facts.
Import overflow chunk props.
Context `{K : KeyOps}.

Lemma bucket_size_nonneg (o : Overflow) : 0 ≤ bucket_size o.
Proof. unfold bucket_size, MemBlock_size. lia. Qed.

Lemma bucket_Some (c : Chunk) (i : nat) (o : Overflow) :
  bucket c i = Some o ↔ m_overflows c !! i = Some (Some o).
Proof.
  unfold bucket. destruct (m_overflows c !! i) as [[o'|]|]; simpl; naive_solver.
Qed.

Lemma bucket_set_overflows (c : Chunk) ovs n i :
  bucket (set_overflows c ovs n) i = mjoin (ovs !! i).
Proof. done. Qed.

(** ** [doOverflow] *)

Lemma doOverflow_present (c : Chunk) (dir : nat) (active : Overflow) :
  bucket c dir = Some active →
  doOverflow c dir
  = Some (set_overflows c (<[dir := None]> (m_overflows c))
            (wrap64 (m_overflowCount c - bucket_size active)),
          (λ entry, mkCacheInsert (e_voxel entry)
                      (step (e_key entry) (v_point (e_voxel entry)))
                      (m_childKeys c (toDir dir)))
          <$> o_list active).
Proof. intros Hb%bucket_Some. unfold doOverflow. by rewrite Hb. Qed.

Lemma doOverflow_absent (c : Chunk) (dir : nat) :
  bucket c dir = None → doOverflow c dir = None.
Proof.
  unfold bucket, doOverflow.
  by destruct (m_overflows c !! dir) as [[o|]|].
Qed.

(** C3. On a chunk whose bucket [dir] is present (and whose overflow count
    covers it, as it does in a counted chunk), [doOverflow] returns with bucket [dir] absent and the count
    lowered by exactly the size of the detached bucket; the calls to
    [cache.insert] are, in the order of the bucket's list, one per entry
    [(k, v)] with voxel [v], key [k.step(v.point())] and the chunk key of the
    child in [dir]; the grid, its block and the other buckets are as before. *)
Theorem C3_doOverflow_detaches_and_reinserts
    (c : Chunk) (dir : nat) (active : Overflow) :
  bucket c dir = Some active →
  bucket_size active ≤ m_overflowCount c < 2 ^ 64 →
  ∃ c' calls,
    doOverflow c dir = Some (c', calls)
    ∧ bucket c' dir = None
    ∧ m_overflowCount c' = m_overflowCount c - bucket_size active
    ∧ calls = (λ entry, mkCacheInsert (e_voxel entry)
                          (step (e_key entry) (v_point (e_voxel entry)))
                          (m_childKeys c (toDir dir)))
              <$> o_list active
    ∧ (∀ d, toIntegral d = dir → m_childKeys c (toDir dir) = childAt c d)
    ∧ (∀ j, j ≠ dir → m_overflows c' !! j = m_overflows c !! j)
    ∧ length (m_overflows c') = length (m_overflows c)
    ∧ m_grid c' = m_grid c
    ∧ m_gridBlock c' = m_gridBlock c
    ∧ m_childKeys c' = m_childKeys c
    ∧ m_chunkKey c' = m_chunkKey c
    ∧ m_metadata c' = m_metadata c
    ∧ m_span c' = m_span c.
Proof.
  intros Hb Hcount. pose proof (bucket_size_nonneg active).
  eexists _, _. split; [by apply doOverflow_present|].
  apply bucket_Some in Hb.
  split_and!; try done.
  - rewrite bucket_set_overflows, list_lookup_insert_eq; [done|].
    by eapply lookup_lt_Some.
  - cbn [m_overflowCount set_overflows]. unfold wrap64.
    apply Z.mod_small. lia.
  - intros d <-. unfold childAt. by rewrite toDir_toIntegral.
  - intros j Hj. cbn [m_overflows set_overflows].
    by rewrite list_lookup_insert_ne.
  - cbn [m_overflows set_overflows]. by rewrite length_insert.
Qed.

(** ** The search for the largest bucket *)

Lemma select_spec (rest : list (option Overflow)) (d i0 : nat) (s0 : Z) :
  ∃ i s, select rest d (i0, s0) = (i, s)
    ∧ s0 ≤ s
    ∧ (∀ j o, rest !! j = Some (Some o) → bucket_size o ≤ s)
    ∧ ((i = i0 ∧ s = s0)
       ∨ ∃ j o, i = (d + j)%nat ∧ rest !! j = Some (Some o)
           ∧ bucket_size o = s ∧ s0 < s
           ∧ ∀ j' o', (j' < j)%nat → rest !! j' = Some (Some o') →
                      bucket_size o' < s).
Proof.
  revert d i0 s0.
  induction rest as [|current rest IH]; intros d i0 s0.
  { exists i0, s0. split_and!; [done|lia| |by left]. intros j o Hj. done. }
  cbn [select].
  assert (∃ i1 s1,
    match current with
    | Some o => if (i0, s0).2 <? MemBlock_size (o_block o)
                then (d, MemBlock_size (o_block o)) else (i0, s0)
    | None => (i0, s0)
    end = (i1, s1)
    ∧ s0 ≤ s1
    ∧ (∀ o, current = Some o → bucket_size o ≤ s1)
    ∧ ((i1 = i0 ∧ s1 = s0)
       ∨ ∃ o, current = Some o ∧ i1 = d ∧ bucket_size o = s1 ∧ s0 < s1))
    as (i1 & s1 & -> & Hle & Hcur & Hsel).
  { destruct current as [o|]; cbn [snd].
    - fold (bucket_size o). destruct (Z.ltb_spec s0 (bucket_size o)).
      + eexists _, _. split_and!; [done|lia| |right; eauto].
        by intros ? [= <-].
      + eexists _, _. split_and!; [done|lia| |by left].
        by intros ? [= <-].
    - eexists _, _. split_and!; [done|lia|done|by left]. }
  destruct (IH (S d) i1 s1) as (i & s & Hs & Hle' & Hall & Hwhich).
  exists i, s. split_and!; [done|lia| |].
  - intros [|j] o Hj; simpl in Hj.
    + simplify_eq. specialize (Hcur o eq_refl). lia.
    + eauto.
  - destruct Hwhich as [[-> ->]|(j & o & -> & Hj & Hsz & Hlt & Hbefore)].
    + destruct Hsel as [[-> ->]|(o & -> & -> & Hsz & Hlt)]; [by left|].
      right. exists 0%nat, o. split_and!; [lia|done|done|done|].
      intros j' o' Hj'. lia.
    + right. exists (S j), o. split_and!; [lia|done|done|lia|].
      intros [|j'] o' Hj' Ho'; simpl in Ho'.
      * simplify_eq. specialize (Hcur o' eq_refl). lia.
      * apply (Hbefore j' o'); [lia|done].
Qed.

(** What the search returns on the buckets of a chunk: the largest present
    bucket when some bucket holds a point, index 0 and size 0 otherwise. *)
Lemma select_chunk (c : Chunk) :
  (select (m_overflows c) 0 (0%nat, 0) = (0%nat, 0)
   ∧ ∀ j o, bucket c j = Some o → bucket_size o = 0)
  ∨ ∃ i o, select (m_overflows c) 0 (0%nat, 0) = (i, bucket_size o)
      ∧ largest_present c i o ∧ 0 < bucket_size o.
Proof.
  destruct (select_spec (m_overflows c) 0 0 0)
    as (i & s & Hs & Hle & Hall & [[-> ->]|(j & o & -> & Hj & <- & Hlt & Hbefore)]).
  - left. split; [done|]. intros j o Hj%bucket_Some.
    pose proof (bucket_size_nonneg o). specialize (Hall j o Hj). lia.
  - right. exists j, o. split_and!; [done| |done].
    split_and!.
    + by apply bucket_Some.
    + intros j' o' Hj'%bucket_Some. eauto.
    + intros j' o' Hlt' Hj'%bucket_Some. eauto.
Qed.

Lemma largest_present_unique (c : Chunk) i o i' o' :
  largest_present c i o → largest_present c i' o' → i = i' ∧ o = o'.
Proof.
  intros (Hi & Hmax & Hfirst) (Hi' & Hmax' & Hfirst').
  assert (i = i') as <-.
  { destruct (Nat.lt_trichotomy i i') as [Hlt|[?|Hlt]]; [|done|].
    - specialize (Hfirst' i o Hlt Hi). specialize (Hmax i' o' Hi'). lia.
    - specialize (Hfirst i' o' Hlt Hi'). specialize (Hmax' i o Hi). lia. }
  split; [done|congruence].
Qed.

(** ** [maybeOverflow] *)

(** The decision of [maybeOverflow], which bucket it splits if any, in terms
    of the largest present bucket. *)
Lemma maybeOverflow_cases (c : Chunk) :
  splittable c →
  let total := wrap64 (MemBlock_size (m_gridBlock c) + m_overflowCount c) in
  (maybeOverflow c = Some (c, [])
   ∧ (total < maxNodeSize (m_metadata c)
      ∨ ∀ i o, largest_present c i o → bucket_size o < minNodeSize (m_metadata c)))
  ∨ ∃ i o, maybeOverflow c = doOverflow c i
      ∧ maxNodeSize (m_metadata c) ≤ total
      ∧ largest_present c i o
      ∧ minNodeSize (m_metadata c) ≤ bucket_size o.
Proof.
  intros Hsplit total. unfold maybeOverflow. fold total.
  destruct (Z.ltb_spec total (maxNodeSize (m_metadata c))) as [Hlt|Hge].
  { left. split; [done|by left]. }
  destruct (select_chunk c) as [[-> Hzero]|(i & o & -> & Hlargest & Hpos)].
  - destruct (Z.ltb_spec 0 (minNodeSize (m_metadata c))) as [Hmin|Hmin].
    + left. split; [done|]. right. intros i o (Hi & _).
      rewrite (Hzero i o Hi). done.
    + exfalso. destruct Hsplit as [?|(j & o & Hj & Hpos)]; [lia|].
      rewrite (Hzero j o Hj) in Hpos. lia.
  - destruct (Z.ltb_spec (bucket_size o) (minNodeSize (m_metadata c))) as [Hmin|Hmin].
    + left. split; [done|]. right. intros i' o' Hl'.
      by destruct (largest_present_unique c i o i' o' Hlargest Hl') as [_ <-].
    + right. by exists i, o.
Qed.

(** C2. Where [insertOverflow] calls it (see [splittable]),
    [maybeOverflow] splits a bucket only when the grid block and the
    overflow count together reach [maxNodeSize] and the largest present
    bucket holds at least [minNodeSize] points; when both hold, the bucket it
    hands to [doOverflow] is that largest present bucket, the lowest index on
    ties, and the split is carried out: the call returns with that bucket
    absent, every other bucket, the grid and its block as before, the
    overflow count lowered by the size of the bucket, and one call of
    [cache.insert] per entry of the bucket, in the order of its list, with
    the entry's voxel, its key stepped once and the chunk key of the child;
    in every other case the chunk is returned as it was, with no call
    made. *)
Theorem C2_maybeOverflow_splits_largest_bucket (c : Chunk) :
  splittable c →
  ∃ split : option nat,
    maybeOverflow c
    = match split with
      | Some i => doOverflow c i
      | None => Some (c, [])
      end
    ∧ (∀ i, split = Some i →
         maxNodeSize (m_metadata c)
           ≤ wrap64 (MemBlock_size (m_gridBlock c) + m_overflowCount c)
         ∧ ∃ o, largest_present c i o
              ∧ minNodeSize (m_metadata c) ≤ bucket_size o
              ∧ ∃ c' calls,
                  maybeOverflow c = Some (c', calls)
                  ∧ bucket c' i = None
                  ∧ (∀ j, j ≠ i → bucket c' j = bucket c j)
                  ∧ m_overflowCount c'
                    = wrap64 (m_overflowCount c - bucket_size o)
                  ∧ (bucket_size o ≤ m_overflowCount c < 2 ^ 64 →
                     m_overflowCount c' = m_overflowCount c - bucket_size o)
                  ∧ calls
                    = (λ entry, mkCacheInsert (e_voxel entry)
                                  (step (e_key entry) (v_point (e_voxel entry)))
                                  (childAt c (toDir i)))
                      <$> o_list o
                  ∧ m_grid c' = m_grid c
                  ∧ m_gridBlock c' = m_gridBlock c
                  ∧ m_chunkKey c' = m_chunkKey c
                  ∧ m_metadata c' = m_metadata c)
    ∧ (∀ i o,
         maxNodeSize (m_metadata c)
           ≤ wrap64 (MemBlock_size (m_gridBlock c) + m_overflowCount c) →
         largest_present c i o →
         minNodeSize (m_metadata c) ≤ bucket_size o →
         split = Some i).
Proof.
  intros Hsplit.
  destruct (maybeOverflow_cases c Hsplit)
    as [[Hsame Hwhy]|(i & o & Hdo & Hmax & Hlargest & Hmin)].
  - exists None. split_and!; [done|done|].
    intros i o Hmax Hlargest Hmin.
    destruct Hwhy as [?|Hsmall]; [lia|].
    specialize (Hsmall i o Hlargest). lia.
  - exists (Some i). split_and!; [done| |].
    + intros ? [= <-]. split; [done|]. exists o. split; [done|]. split; [done|].
      pose proof Hlargest as (Hb & _).
      rewrite Hdo, (doOverflow_present c i o Hb).
      apply bucket_Some in Hb as Hlookup.
      eexists _, _. split; [done|]. split_and!; try done.
      * rewrite bucket_set_overflows, list_lookup_insert_eq; [done|].
        by eapply lookup_lt_Some.
      * intros j Hj. rewrite bucket_set_overflows. unfold bucket.
        by rewrite list_lookup_insert_ne.
      * intros Hcount. cbn [m_overflowCount set_overflows]. unfold wrap64.
        apply Z.mod_small. pose proof (bucket_size_nonneg o). lia.
    + intros i' o' _ Hl' _.
      by destruct (largest_present_unique c i o i' o' Hlargest Hl') as [<- _].
Qed.

(** [maybeOverflow] returns where it is called. *)
Lemma maybeOverflow_returns (c : Chunk) :
  splittable c → ∃ c' calls, maybeOverflow c = Some (c', calls).
Proof.
  intros Hsplit.
  destruct (maybeOverflow_cases c Hsplit)
    as [[Hsame _]|(i & o & -> & _ & (Hi & _) & _)]; [eauto|].
  rewrite (doOverflow_present c i o Hi). eauto.
Qed.

(** Neither [doOverflow] nor [maybeOverflow] touches the grid. *)
Lemma maybeOverflow_grid (c c' : Chunk) calls :
  maybeOverflow c = Some (c', calls) →
  set_grid c' (m_grid c) (m_gridBlock c) = c'
  ∧ m_span c' = m_span c.
Proof.
  unfold maybeOverflow.
  destruct (_ <? maxNodeSize _); [by intros [= <- <-]; destruct c|].
  destruct (select _ _ _) as [i s].
  destruct (_ <? minNodeSize _); [by intros [= <- <-]; destruct c|].
  unfold doOverflow.
  destruct (m_overflows c !! i) as [[o|]|]; [|done..].
  by intros [= <- <-].
Qed.

End chunk_overflow_facts.

(* ===================================================================== *)
(** * Properties of builder/chunk.cpp: insertion *)
(* ===================================================================== *)

Section chunk_insert_facts.
Import overflow chunk props.
Context `{K : KeyOps}.

(** [Overflow::insert] appends the bytes to the block and the entry to the
    list. *)
Lemma overflow_insert_appends (o : Overflow) (voxel : Voxel) (key : Key) :
  overflow.insert o voxel key
  = mkOverflow (o_chunkKey o) (o_block o ++ [v_data voxel])
      (o_list o ++ [mkEntry voxel key]).
Proof.
  unfold overflow.insert, MemBlock_next, initDeep. destruct voxel as [p bytes].
  cbn [v_point v_data]. f_equal.
  rewrite insert_app_r_alt, Nat.sub_diag by done. done.
Qed.

Lemma with_entry_bucket (c : Chunk) i o voxel key :
  bucket c i = Some o →
  bucket (with_entry c i o voxel key) i
  = Some (mkOverflow (o_chunkKey o) (o_block o ++ [v_data voxel])
            (o_list o ++ [mkEntry voxel key])).
Proof.
  intros Hb%bucket_Some. unfold with_entry.
  rewrite bucket_set_overflows, list_lookup_insert_eq; [done|].
  by eapply lookup_lt_Some.
Qed.

Lemma with_entry_splittable (c : Chunk) i o voxel key :
  bucket c i = Some o → splittable (with_entry c i o voxel key).
Proof.
  intros Hb. right. eexists i, _. split; [by apply with_entry_bucket|].
  unfold bucket_size, MemBlock_size. cbn [o_block].
  rewrite length_app. simpl. lia.
Qed.

(** The three ways through [insertOverflow]. *)
Lemma insertOverflow_cases (c : Chunk) (voxel : Voxel) (key : Key) :
  let i := toIntegral (getDirection (mid (ck_bounds (m_chunkKey c))) (v_point voxel)) in
  (insertOverflow c voxel key = Some (false, c, [])
   ∧ (ck_depth (m_chunkKey c) < sharedDepth (m_metadata c) ∨ bucket c i = None))
  ∨ ∃ o, sharedDepth (m_metadata c) ≤ ck_depth (m_chunkKey c)
      ∧ bucket c i = Some o
      ∧ ((wrap64 (m_overflowCount c + 1) < minNodeSize (m_metadata c)
          ∧ insertOverflow c voxel key
            = Some (true, with_entry c i o voxel key, []))
         ∨ (minNodeSize (m_metadata c) ≤ wrap64 (m_overflowCount c + 1)
            ∧ ∃ c' calls,
                maybeOverflow (with_entry c i o voxel key) = Some (c', calls)
                ∧ insertOverflow c voxel key = Some (true, c', calls))).
Proof.
  intros i. unfold insertOverflow. fold i.
  destruct (Z.ltb_spec (ck_depth (m_chunkKey c)) (sharedDepth (m_metadata c)))
    as [Hshared|Hshared].
  { left. split; [done|by left]. }
  destruct (bucket c i) as [o|] eqn:Hb.
  - right. exists o. split_and!; [done..|].
    pose proof Hb as Hb'%bucket_Some. rewrite Hb'.
    rewrite overflow_insert_appends. fold (with_entry c i o voxel key).
    destruct (Z.leb_spec (minNodeSize (m_metadata c)) (wrap64 (m_overflowCount c + 1)))
      as [Hmin|Hmin].
    + right. split; [done|].
      destruct (maybeOverflow_returns (with_entry c i o voxel key))
        as (c' & calls & Hmaybe); [by apply with_entry_splittable|].
      exists c', calls. by rewrite Hmaybe.
    + left. by split.
  - left. split; [|by right].
    unfold bucket in Hb.
    by destruct (m_overflows c !! i) as [[o|]|].
Qed.

(** [insertOverflow] always returns, and never touches the grid. *)
Lemma insertOverflow_returns (c : Chunk) (voxel : Voxel) (key : Key) :
  ∃ done c' calls,
    insertOverflow c voxel key = Some (done, c', calls)
    ∧ set_grid c' (m_grid c) (m_gridBlock c) = c'
    ∧ m_span c' = m_span c.
Proof.
  destruct (insertOverflow_cases c voxel key)
    as [[-> _]|(o & _ & _ & [[_ ->]|(_ & c' & calls & Hmaybe & ->)])].
  - eexists _, _, _. split_and!; [done| |done]. by destruct c.
  - eexists _, _, _. split_and!; [done| |done]. by destruct c.
  - eexists _, _, _. split; [done|].
    by apply maybeOverflow_grid in Hmaybe.
Qed.

(** C5. [insertOverflow] returns false and leaves the chunk as it is when the
    chunk's depth is below the shared depth, and also when the bucket of the
    octant of the voxel's point (seen from the midpoint of the chunk's
    bounds) is absent.  Otherwise it returns true: the voxel's bytes and the
    entry (key, voxel) are appended to that bucket, the overflow count goes
    up by one, and [maybeOverflow] runs on the result exactly when the new
    count has reached [minNodeSize]. *)
Theorem C5_insertOverflow_routes_to_bucket
    (c : Chunk) (voxel : Voxel) (key : Key) :
  0 ≤ m_overflowCount c < 2 ^ 64 - 1 →
  let i := toIntegral (getDirection (mid (ck_bounds (m_chunkKey c))) (v_point voxel)) in
  (ck_depth (m_chunkKey c) < sharedDepth (m_metadata c) →
   insertOverflow c voxel key = Some (false, c, []))
  ∧ (bucket c i = None → insertOverflow c voxel key = Some (false, c, []))
  ∧ (∀ o,
       sharedDepth (m_metadata c) ≤ ck_depth (m_chunkKey c) →
       bucket c i = Some o →
       ∃ c1,
         bucket c1 i
         = Some (mkOverflow (o_chunkKey o) (o_block o ++ [v_data voxel])
                   (o_list o ++ [mkEntry voxel key]))
         ∧ (∀ j, j ≠ i → m_overflows c1 !! j = m_overflows c !! j)
         ∧ m_overflowCount c1 = m_overflowCount c + 1
         ∧ set_overflows c1 (m_overflows c) (m_overflowCount c) = c
         ∧ (m_overflowCount c + 1 < minNodeSize (m_metadata c) →
            insertOverflow c voxel key = Some (true, c1, []))
         ∧ (minNodeSize (m_metadata c) ≤ m_overflowCount c + 1 →
            ∃ c2 calls,
              maybeOverflow c1 = Some (c2, calls)
              ∧ insertOverflow c voxel key = Some (true, c2, calls))).
Proof.
  intros Hcount i.
  assert (wrap64 (m_overflowCount c + 1) = m_overflowCount c + 1) as Hwrap.
  { unfold wrap64. apply Z.mod_small. lia. }
  pose proof (insertOverflow_cases c voxel key) as Hcases.
  fold i in Hcases. rewrite Hwrap in Hcases.
  split_and!.
  - intros Hshared.
    destruct Hcases as [[-> _]|(o & ? & _)]; [done|lia].
  - intros Hnone.
    destruct Hcases as [[-> _]|(o & _ & ? & _)]; [done|congruence].
  - intros o Hshared Hb.
    exists (with_entry c i o voxel key). split_and!.
    + by apply with_entry_bucket.
    + intros j Hj. unfold with_entry. cbn [m_overflows set_overflows].
      by rewrite list_lookup_insert_ne.
    + unfold with_entry. cbn [m_overflowCount set_overflows]. done.
    + by destruct c.
    + intros Hlt.
      destruct Hcases as [[_ [?|?]]|(o' & _ & Hb' & [[_ ->]|[? _]])];
        [lia|congruence| |lia].
      by assert (o' = o) as -> by congruence.
    + intros Hge.
      destruct Hcases as [[_ [?|?]]|(o' & _ & Hb' & [[? _]|[_ Hrun]])];
        [lia|congruence|lia|].
      by assert (o' = o) as -> by congruence.
Qed.

(** ** [insert] *)

Lemma cell_set_grid (c : Chunk) (key : Key) i tube r blk :
  tube_index c key = Some i →
  m_grid c !! i = Some tube →
  cell (set_grid c (<[i := <[tube_key key := r]> tube]> (m_grid c)) blk) key
  = Some r.
Proof.
  intros Hi Htube. unfold cell.
  replace (tube_index (set_grid c _ blk) key) with (Some i) by done.
  cbn [mbind option_bind m_grid set_grid].
  rewrite list_lookup_insert_eq by by eapply lookup_lt_Some.
  cbn [mbind option_bind]. by rewrite lookup_insert_eq.
Qed.

Lemma cell_voxel_same_grid (c c' : Chunk) (key : Key) :
  set_grid c' (m_grid c) (m_gridBlock c) = c' →
  m_span c' = m_span c →
  cell_voxel c' key = cell_voxel c key.
Proof.
  intros <- Hspan. unfold cell_voxel, cell, tube_index.
  cbn [set_grid m_grid m_gridBlock m_span] in *. by rewrite Hspan.
Qed.

(** C1, as the code has it.  When the cell of [key] already holds a voxel,
    [Chunk::insert] compares the squared distances of the new voxel and of
    the resident to the midpoint of the bounds of [key], the voxel cell, and
    keeps the nearer one there: points and bytes are exchanged exactly when
    the new voxel is strictly nearer, the resident stays on a tie.  The other
    voxel is handed to [insertOverflow], whose result is the result of
    [insert]. *)
Theorem C1_insert_keeps_nearest_to_key_mid
    (c : Chunk) (voxel : Voxel) (key : Key) :
  keeps_nearest_to (mid (key_bounds key)) c voxel key.
Proof.
  intros r bytes Hcell Hbytes resident closer kept loser.
  unfold cell in Hcell.
  destruct (tube_index c key) as [i|] eqn:Hi; [|done].
  cbn [mbind option_bind] in Hcell.
  destruct (m_grid c !! i) as [tube|] eqn:Htube; [|done].
  cbn [mbind option_bind] in Hcell.
  assert (∃ c1,
    (if closer
     then '(voxel, dst, blk) ← swapDeep (m_gridBlock c) voxel r;
          Some (voxel,
                set_grid c (<[i := <[tube_key key := dst]> tube]> (m_grid c)) blk)
     else Some (voxel, c)) = Some (loser, c1)
    ∧ cell_voxel c1 key = Some kept
    ∧ (closer = false → c1 = c)
    ∧ set_overflows c1 (m_overflows c) (m_overflowCount c) = c1)
    as (c1 & Hswap & Hkept & Hnoswap & Hsame).
  { subst kept loser. destruct closer.
    - unfold swapDeep. rewrite Hbytes. cbn [mbind option_bind].
      eexists. split_and!; [done| |done|done].
      unfold cell_voxel. erewrite cell_set_grid by done.
      cbn [mbind option_bind]. unfold deref.
      cbn [r_slot r_point m_gridBlock set_grid].
      rewrite list_lookup_insert_eq by by eapply lookup_lt_Some.
      by destruct voxel.
    - exists c. split_and!; [done| |done|by destruct c].
      unfold cell_voxel, cell. rewrite Hi. cbn [mbind option_bind].
      rewrite Htube. cbn [mbind option_bind]. rewrite Hcell.
      cbn [mbind option_bind]. unfold deref. by rewrite Hbytes. }
  destruct (insertOverflow_returns c1 loser key)
    as (done & c' & calls & Hover & Hgrid & Hspan).
  exists c1, done, c', calls. split_and!; [done..| | |].
  - unfold chunk.insert. rewrite Hi. cbn [mbind option_bind].
    rewrite Htube. cbn [mbind option_bind]. rewrite Hcell.
    fold closer. rewrite Hswap. cbn [mbind option_bind].
    by rewrite Hover.
  - by rewrite (cell_voxel_same_grid c1 c' key Hgrid Hspan).
  - subst kept loser. destruct closer eqn:Hcloser; cbn [v_point resident].
    + by apply dist_lt_asym.
    + done.
Qed.

(** An empty cell takes the voxel. *)
Lemma insert_empty_cell (c : Chunk) (voxel : Voxel) (key : Key) i tube :
  tube_index c key = Some i →
  m_grid c !! i = Some tube →
  tube !! tube_key key = None →
  chunk.insert c voxel key
  = Some (true,
          set_grid c
            (<[i := <[tube_key key := mkResident (v_point voxel)
                                        (length (m_gridBlock c))]> tube]>
               (m_grid c))
            (m_gridBlock c ++ [v_data voxel]),
          voxel, []).
Proof.
  intros Hi Htube Hnone. unfold chunk.insert.
  rewrite Hi. cbn [mbind option_bind]. rewrite Htube. cbn [mbind option_bind].
  rewrite Hnone. unfold MemBlock_next, initDeep.
  rewrite insert_app_r_alt, Nat.sub_diag by done. done.
Qed.

End chunk_insert_facts.

(* ===================================================================== *)
(** * Properties of builder/chunk.cpp: the overflow count *)
(* ===================================================================== *)

Section chunk_count_facts.
Import overflow chunk props.
Context `{K : KeyOps}.

Lemma total_cons (o : option Overflow) (ovs : list (option Overflow)) :
  foldr Z.add 0 (MemBlock_size <$> omap (fmap o_block) (o :: ovs))
  = slot_size o + foldr Z.add 0 (MemBlock_size <$> omap (fmap o_block) ovs).
Proof. by destruct o. Qed.

Lemma total_insert (ovs : list (option Overflow)) (i : nat) (old new : option Overflow) :
  ovs !! i = Some old →
  foldr Z.add 0 (MemBlock_size <$> omap (fmap o_block) (<[i := new]> ovs))
  = foldr Z.add 0 (MemBlock_size <$> omap (fmap o_block) ovs)
    - slot_size old + slot_size new.
Proof.
  revert i. induction ovs as [|o ovs IH]; intros i Hi.
  { by rewrite lookup_nil in Hi. }
  destruct i as [|i].
  - injection Hi as ->.
    change (<[0%nat := new]> (old :: ovs)) with (new :: ovs).
    rewrite !total_cons. lia.
  - change (<[S i := new]> (o :: ovs)) with (o :: <[i := new]> ovs).
    rewrite !total_cons, (IH i Hi). lia.
Qed.

Lemma total_nonneg (ovs : list (option Overflow)) :
  0 ≤ foldr Z.add 0 (MemBlock_size <$> omap (fmap o_block) ovs).
Proof.
  induction ovs as [|o ovs IH]; [done|].
  rewrite total_cons. destruct o as [o|]; cbn [slot_size]; [|lia].
  pose proof (bucket_size_nonneg o). lia.
Qed.

Lemma total_bucket_le (ovs : list (option Overflow)) (i : nat) (o : Overflow) :
  ovs !! i = Some (Some o) →
  bucket_size o ≤ foldr Z.add 0 (MemBlock_size <$> omap (fmap o_block) ovs).
Proof.
  revert i. induction ovs as [|o' ovs IH]; intros i Hi.
  { by rewrite lookup_nil in Hi. }
  destruct i as [|i].
  - injection Hi as ->.
    rewrite total_cons. pose proof (total_nonneg ovs). cbn [slot_size]. lia.
  - rewrite total_cons. specialize (IH i Hi).
    destruct o' as [o'|]; cbn [slot_size]; [|lia].
    pose proof (bucket_size_nonneg o'). lia.
Qed.

(** A bucket never holds more than the count says. *)
Lemma counted_bucket_le (c : Chunk) (i : nat) (o : Overflow) :
  counted c → bucket c i = Some o → bucket_size o ≤ m_overflowCount c.
Proof.
  intros -> Hb%bucket_Some. by eapply total_bucket_le.
Qed.

(** A new chunk is counted. *)
Lemma make_counted (m : Metadata) (ck : ChunkKey) (h : Hierarchy) :
  counted (make m ck h).
Proof.
  unfold counted, overflow_total, present_blocks. cbn [m_overflowCount m_overflows make].
  cbn [fmap list_fmap seq dirEnd].
  repeat (rewrite total_cons;
          match goal with
          | |- context [slot_size (if ?b then _ else _)] => destruct b
          end; cbn [slot_size]).
  all: done.
Qed.

(** [doOverflow] keeps the chunk counted. *)
Lemma doOverflow_counted (c c' : Chunk) (dir : nat) calls :
  counted c → m_overflowCount c < 2 ^ 64 →
  doOverflow c dir = Some (c', calls) →
  counted c' ∧ m_overflowCount c' ≤ m_overflowCount c.
Proof.
  intros Hc Hlt Hdo.
  destruct (bucket c dir) as [active|] eqn:Hb;
    [|by rewrite doOverflow_absent in Hdo].
  rewrite (doOverflow_present c dir active Hb) in Hdo.
  injection Hdo as <- <-.
  pose proof (counted_bucket_le c dir active Hc Hb) as Hle.
  pose proof (bucket_size_nonneg active).
  apply bucket_Some in Hb.
  unfold counted, overflow_total, present_blocks in *.
  cbn [m_overflowCount m_overflows set_overflows].
  rewrite (total_insert _ _ _ None Hb). cbn [slot_size].
  unfold wrap64. rewrite Z.mod_small by lia. lia.
Qed.

(** [maybeOverflow] keeps the chunk counted. *)
Lemma maybeOverflow_counted (c c' : Chunk) calls :
  counted c → m_overflowCount c < 2 ^ 64 →
  maybeOverflow c = Some (c', calls) →
  counted c' ∧ m_overflowCount c' ≤ m_overflowCount c.
Proof.
  intros Hc Hlt. unfold maybeOverflow.
  destruct (_ <? maxNodeSize _); [intros [= <- <-]; split; [done|lia]|].
  destruct (select _ _ _) as [i s].
  destruct (_ <? minNodeSize _); [intros [= <- <-]; split; [done|lia]|].
  by apply doOverflow_counted.
Qed.

(** [insertOverflow] keeps the chunk counted, and raises the count by one at
    most. *)
Lemma insertOverflow_counted (c c' : Chunk) (voxel : Voxel) (key : Key) done calls :
  counted c → m_overflowCount c < 2 ^ 64 - 1 →
  insertOverflow c voxel key = Some (done, c', calls) →
  counted c' ∧ m_overflowCount c' ≤ m_overflowCount c + 1.
Proof.
  intros Hc Hlt Hins.
  assert (0 ≤ m_overflowCount c) as Hpos.
  { rewrite Hc. apply total_nonneg. }
  set (i := toIntegral (getDirection (mid (ck_bounds (m_chunkKey c))) (v_point voxel))).
  assert (∀ o, bucket c i = Some o →
            counted (with_entry c i o voxel key)
            ∧ m_overflowCount (with_entry c i o voxel key) = m_overflowCount c + 1)
    as Hentry.
  { intros o Hb%bucket_Some.
    unfold counted, overflow_total, present_blocks, with_entry in *.
    cbn [m_overflowCount m_overflows set_overflows].
    rewrite (total_insert _ _ _ _ Hb). cbn [slot_size].
    match goal with
    | |- context [bucket_size (mkOverflow ?k ?b ?l)] =>
        replace (bucket_size (mkOverflow k b l)) with (bucket_size o + 1)
          by (unfold bucket_size, MemBlock_size; cbn [o_block];
              rewrite length_app; cbn [length]; lia)
    end.
    unfold wrap64. rewrite Z.mod_small by lia. lia. }
  destruct (insertOverflow_cases c voxel key)
    as [[Hsame _]|(o & _ & Hb & [[_ Hsame]|(_ & c2 & calls2 & Hmaybe & Hsame)])];
    fold i in Hsame; rewrite Hsame in Hins; injection Hins as <- <- <-.
  - split; [done|lia].
  - destruct (Hentry o Hb) as [? ->]. split; [done|lia].
  - destruct (Hentry o Hb) as [Hc1 Hn1].
    destruct (maybeOverflow_counted _ _ _ Hc1 ltac:(lia) Hmaybe) as [? ?].
    split; [done|lia].
Qed.

(** [insert] keeps the chunk counted. *)
Lemma insert_counted (c c' : Chunk) (voxel voxel' : Voxel) (key : Key) done calls :
  counted c → m_overflowCount c < 2 ^ 64 - 1 →
  chunk.insert c voxel key = Some (done, c', voxel', calls) →
  counted c' ∧ m_overflowCount c' ≤ m_overflowCount c + 1.
Proof.
  intros Hc Hlt. unfold chunk.insert.
  destruct (tube_index c key) as [i|]; [|done]. cbn [mbind option_bind].
  destruct (m_grid c !! i) as [tube|]; [|done]. cbn [mbind option_bind].
  destruct (tube !! tube_key key) as [dst|].
  - destruct (dist_lt _ _).
    + destruct (swapDeep (m_gridBlock c) voxel dst) as [[[v1 d1] b1]|]; [|done].
      cbn [mbind option_bind].
      match goal with
      | |- context [insertOverflow ?c1 ?v1 ?k1] =>
          destruct (insertOverflow c1 v1 k1) as [[[done1 c2] calls1]|] eqn:Hover;
          [|done]
      end.
      cbn [mbind option_bind]. intros [= <- <- <- <-].
      exact (insertOverflow_counted (set_grid c _ _) _ _ _ _ _ Hc Hlt Hover).
    + cbn [mbind option_bind].
      destruct (insertOverflow c voxel key) as [[[done1 c2] calls1]|] eqn:Hover;
        [|done].
      cbn [mbind option_bind]. intros [= <- <- <- <-].
      exact (insertOverflow_counted _ _ _ _ _ _ Hc Hlt Hover).
  - unfold MemBlock_next, initDeep. intros [= <- <- <- <-]. split; [done|].
    cbn [m_overflowCount set_grid]. lia.
Qed.

End chunk_count_facts.

(* ===================================================================== *)
(** * Properties of builder/chunk.cpp: save *)
(* ===================================================================== *)

Section chunk_save_facts.
Import overflow chunk props.
Context `{K : KeyOps}.

Lemma save_table_fold (ovs : list (option Overflow)) (table : list Payload) :
  foldl (λ table o, match o with
                    | Some o => table ++ o_block o
                    | None => table
                    end) table ovs
  = table ++ concat (omap (fmap o_block) ovs).
Proof.
  revert table. induction ovs as [|[o|] ovs IH]; intros table; cbn.
  - by rewrite app_nil_r.
  - by rewrite IH, <- app_assoc.
  - apply IH.
Qed.

Lemma save_count_fold (ovs : list (option Overflow)) (np : Z) :
  0 ≤ np →
  np + Z.of_nat (length (concat (omap (fmap o_block) ovs))) < 2 ^ 64 →
  foldl (λ np o, match o with
                 | Some o => wrap64 (np + MemBlock_size (o_block o))
                 | None => np
                 end) np ovs
  = np + Z.of_nat (length (concat (omap (fmap o_block) ovs))).
Proof.
  revert np. induction ovs as [|[o|] ovs IH]; intros np Hnp Hsum; cbn in *.
  - lia.
  - rewrite length_app in Hsum. unfold MemBlock_size, wrap64.
    rewrite Z.mod_small by lia. rewrite IH by lia.
    rewrite length_app. lia.
  - by apply IH.
Qed.

(** C6. [save] hands to [io::write] one table that holds the grid block
    followed by the blocks of the present buckets in octant order, under the
    codec [metadata.dataType], the file name
    [chunkKey.toString() + getPostfix(metadata, depth)] and the chunk's
    bounds; the count it returns is the number of points of that table, the
    size of the grid block plus the sizes of the present buckets. *)
Theorem C6_save_writes_grid_then_buckets (c : Chunk) :
  Z.of_nat (length (chunk_points c)) < 2 ^ 64 →
  ∃ np w,
    save c = (np, w)
    ∧ w_table w = m_gridBlock c ++ concat (present_blocks c)
    ∧ np = Z.of_nat (length (w_table w))
    ∧ np = MemBlock_size (m_gridBlock c) + overflow_total c
    ∧ w_type w = dataType (m_metadata c)
    ∧ w_filename w
      = toString (m_chunkKey c)
        +:+ getPostfix (m_metadata c) (ck_depth (m_chunkKey c))
    ∧ w_bounds w = ck_bounds (m_chunkKey c).
Proof.
  unfold chunk_points, overflow_total, present_blocks. intros Hsize.
  rewrite length_app in Hsize.
  eexists _, _. split; [done|]. cbn [w_table w_type w_filename w_bounds].
  rewrite save_table_fold.
  rewrite save_count_fold by (unfold MemBlock_size; lia).
  split_and!; try done.
  - rewrite length_app. unfold MemBlock_size. lia.
  - f_equal. clear Hsize.
    induction (omap (fmap o_block) (m_overflows c)) as [|b bs IH]; [done|].
    cbn. rewrite length_app. unfold MemBlock_size at 1. lia.
Qed.

End chunk_save_facts.

(* ===================================================================== *)
(** * Properties of builder/builder.cpp *)
(* ===================================================================== *)

Section builder_facts.
Import builder props.
Context `{G : Geometry}.

(** ** [tryInsert] *)

Lemma with_item_lookup (b : Builder) (originId : Z) f item :
  manifest b !! Z.to_nat originId = Some item →
  manifest (with_item b originId f) !! Z.to_nat originId = Some (f item).
Proof.
  intros Hitem. unfold with_item. cbn [manifest].
  by rewrite list_lookup_alter_eq, Hitem.
Qed.

Lemma with_item_lookup_ne (b : Builder) (originId : Z) f j :
  j ≠ Z.to_nat originId →
  manifest (with_item b originId f) !! j = manifest b !! j.
Proof.
  intros Hj. unfold with_item. cbn [manifest].
  by rewrite list_lookup_alter_ne.
Qed.

(** C8. For an origin of the manifest, [tryInsert] returns without throwing
    whatever [insert] did.  The item of that origin then has [inserted] set;
    its error list is the one [insert] left, followed by [what()] if
    [insert] threw a [std::exception] and by "Unknown error during build" if
    it threw anything else; the rest of the item and all other items are as
    [insert] left them.  The test of [runInserts] rejects the item from then
    on. *)
Theorem C8_tryInsert_captures_and_marks_inserted
    (insert : Builder → Z → Builder * option Thrown) (out_of_range : string)
    (b : Builder) (originId : Z) (item item1 : BuildItem) :
  manifest b !! Z.to_nat originId = Some item →
  manifest (insert b originId).1 !! Z.to_nat originId = Some item1 →
  ∃ b2 item2,
    tryInsert insert out_of_range b originId = (b2, None)
    ∧ manifest b2 !! Z.to_nat originId = Some item2
    ∧ inserted item2 = true
    ∧ errors (info (source item2))
      = errors (info (source item1)) ++ recorded (insert b originId).2
    ∧ path (source item2) = path (source item1)
    ∧ points (info (source item2)) = points (info (source item1))
    ∧ info_bounds (info (source item2)) = info_bounds (info (source item1))
    ∧ (∀ j, j ≠ Z.to_nat originId →
         manifest b2 !! j = manifest (insert b originId).1 !! j)
    ∧ metadata b2 = metadata (insert b originId).1
    ∧ (∀ active, wanted active item2 = false).
Proof.
  intros Hitem Hitem1. unfold tryInsert. rewrite Hitem.
  destruct (insert b originId) as [b1 thrown]. cbn [fst snd] in *.
  destruct thrown as [[what|]|]; cbn [recorded].
  - eexists _, _. split; [done|]. split.
    { apply with_item_lookup. by apply with_item_lookup. }
    split_and!; try done.
    intros j Hj. by rewrite !with_item_lookup_ne.
  - eexists _, _. split; [done|]. split.
    { apply with_item_lookup. by apply with_item_lookup. }
    split_and!; try done.
    intros j Hj. by rewrite !with_item_lookup_ne.
  - eexists _, _. split; [done|]. split.
    { by apply with_item_lookup. }
    split_and!; try done.
    + cbn. by rewrite app_nil_r.
    + intros j Hj. by rewrite with_item_lookup_ne.
Qed.

(** ** [runInserts] *)

Lemma wanted_from_cons active k item rest :
  wanted_from active k (item :: rest)
  = (if wanted active item then [Z.of_nat k] else [])
    ++ wanted_from active (S k) rest.
Proof.
  unfold wanted_from. cbn [imap omap fst snd].
  rewrite Nat.add_0_r.
  erewrite (imap_ext _ (λ j item0, ((S k + j)%nat, item0))).
  - cbn [list_omap fst snd]. by destruct (wanted active item).
  - intros j x _. cbn. f_equal. lia.
Qed.

Lemma wanted_from_0 active items :
  wanted_from active 0 items = wanted_origins active items.
Proof. done. Qed.

Lemma wanted_from_elem active k rest o :
  o ∈ wanted_from active k rest
  ↔ ∃ j item, o = Z.of_nat (k + j) ∧ rest !! j = Some item
              ∧ wanted active item = true.
Proof.
  revert k. induction rest as [|item rest IH]; intros k.
  { split; [by intros ?%elem_of_nil|by intros (j & item & _ & ? & _)]. }
  rewrite wanted_from_cons, elem_of_app, IH. split.
  - intros [Hhead|(j & item' & -> & Hj & Hw)].
    + destruct (wanted active item) eqn:Hw; [|by apply elem_of_nil in Hhead].
      apply list_elem_of_singleton in Hhead as ->.
      exists 0%nat, item. by rewrite Nat.add_0_r.
    + exists (S j), item'. split_and!; [f_equal; lia|done|done].
  - intros ([|j] & item' & -> & Hj & Hw); simplify_eq/=.
    + left. rewrite Hw, Nat.add_0_r. by apply list_elem_of_singleton.
    + right. exists j, item'. split_and!; [f_equal; lia|done|done].
Qed.

Lemma wanted_from_lower active k rest o :
  o ∈ wanted_from active k rest → Z.of_nat k ≤ o.
Proof. rewrite wanted_from_elem. intros (j & _ & -> & _). lia. Qed.

Lemma wanted_from_sorted active k rest :
  StronglySorted Z.lt (wanted_from active k rest).
Proof.
  revert k. induction rest as [|item rest IH]; intros k.
  { constructor. }
  rewrite wanted_from_cons.
  destruct (wanted active item); cbn [app]; [|apply IH].
  constructor; [apply IH|].
  apply Forall_forall. intros o Ho%wanted_from_lower. lia.
Qed.

(** The loop of [runInserts] against the list it is meant to produce. *)
Lemma submit_spec active limit rest (k : nat) (filesInserted : Z) :
  0 ≤ limit →
  0 ≤ filesInserted ≤ Z.of_nat k →
  Z.of_nat (k + length rest) < 2 ^ 64 →
  submit active limit rest (Z.of_nat k) filesInserted
  = if limit =? 0 then wanted_from active k rest
    else take (Z.to_nat (limit - filesInserted)) (wanted_from active k rest).
Proof.
  intros Hlimit. revert k filesInserted.
  induction rest as [|item rest IH]; intros k f Hf Hsize.
  { cbn. destruct (limit =? 0); [done|by rewrite take_nil]. }
  cbn [submit length] in *. rewrite wanted_from_cons.
  assert (wrap64 (Z.of_nat k + 1) = Z.of_nat (S k)) as ->.
  { unfold wrap64. rewrite Z.mod_small; lia. }
  assert (wrap64 (f + 1) = f + 1) as ->.
  { unfold wrap64. rewrite Z.mod_small; lia. }
  destruct (Z.eqb_spec limit 0) as [->|Hpos]; cbn [orb].
  - destruct (wanted active item); cbn [app].
    + rewrite IH by lia. done.
    + rewrite IH by lia. done.
  - destruct (Z.ltb_spec f limit) as [Hlt|Hge].
    + destruct (wanted active item); cbn [app].
      * rewrite IH by lia. destruct (Z.eqb_spec limit 0); [lia|].
        replace (Z.to_nat (limit - f)) with (S (Z.to_nat (limit - (f + 1))))
          by lia.
        done.
      * rewrite IH by lia. by destruct (Z.eqb_spec limit 0); [lia|].
    + replace (Z.to_nat (limit - f)) with 0%nat by lia. by rewrite take_0.
Qed.

(** C9. [runInserts] submits [tryInsert] for the origins, in manifest order,
    of the items that are not yet inserted, have points and whose bounds
    overlap the active bounds: all of them when [limit] is 0, the first
    [limit] of them otherwise, hence never more than [limit], and exactly the
    first one when [limit] is 1 and some item passes.  The active bounds are
    the conforming bounds, intersected with the bounds of the subset when
    there is one. *)
Theorem C9_runInserts_submits_wanted_up_to_limit (b : Builder) (limit : Z) :
  0 ≤ limit < 2 ^ 64 →
  Z.of_nat (length (manifest b)) < 2 ^ 64 →
  let act := active (metadata b) in
  runInserts b limit
  = (if limit =? 0 then wanted_origins act (manifest b)
     else take (Z.to_nat limit) (wanted_origins act (manifest b)))
  ∧ (∀ o, o ∈ wanted_origins act (manifest b)
        ↔ ∃ j item, o = Z.of_nat j ∧ manifest b !! j = Some item
            ∧ inserted item = false
            ∧ points (info (source item)) ≠ 0
            ∧ overlaps act (info_bounds (info (source item))) = true)
  ∧ StronglySorted Z.lt (wanted_origins act (manifest b))
  ∧ (0 < limit → Z.of_nat (length (runInserts b limit)) ≤ limit)
  ∧ (limit = 1 →
     ∀ o others, wanted_origins act (manifest b) = o :: others →
                 runInserts b limit = [o])
  ∧ (∀ s, subset (metadata b) = Some s →
          act = intersection (getBounds (bounds (metadata b)) s)
                             (boundsConforming (metadata b)))
  ∧ (subset (metadata b) = None → act = boundsConforming (metadata b)).
Proof.
  intros Hlimit Hsize act.
  assert (runInserts b limit
          = if limit =? 0 then wanted_origins act (manifest b)
            else take (Z.to_nat limit) (wanted_origins act (manifest b)))
    as Hrun.
  { unfold runInserts. fold act.
    change 0 with (Z.of_nat 0) at 1.
    rewrite (submit_spec act limit (manifest b) 0 0) by (cbn; lia).
    by rewrite wanted_from_0, Z.sub_0_r. }
  split_and!.
  - exact Hrun.
  - intros o. rewrite <- wanted_from_0, wanted_from_elem.
    split; intros (j & item & -> & Hj & Hw); exists j, item.
    + unfold wanted in Hw.
      apply andb_true_iff in Hw as [[Hins Hpts]%andb_true_iff Hov].
      apply negb_true_iff in Hins. apply negb_true_iff, Z.eqb_neq in Hpts.
      done.
    + destruct Hw as (Hins & Hpts & Hov). split_and!; [done..|].
      unfold wanted. rewrite Hins, Hov.
      by apply Z.eqb_neq in Hpts as ->.
  - rewrite <- wanted_from_0. apply wanted_from_sorted.
  - intros Hpos. rewrite Hrun.
    destruct (Z.eqb_spec limit 0); [lia|].
    rewrite length_take. lia.
  - intros -> o others Hw. rewrite Hrun, Hw. done.
  - intros s Hs. subst act. unfold active. by rewrite Hs.
  - intros Hs. subst act. unfold active. by rewrite Hs.
Qed.

End builder_facts.

(* ===================================================================== *)
(** * Properties of builder/chunk.cpp: the chunk in use *)
(* ===================================================================== *)

Section chunk_sound_facts.
Import overflow chunk props inv.
Context `{K : KeyOps}.

(** ** The grid *)

(** The tube index stays inside the grid. *)
Lemma tube_index_in_grid (c : Chunk) (key : Key) :
  grid_sized c →
  ∃ i tube, tube_index c key = Some i ∧ m_grid c !! i = Some tube.
Proof.
  intros [Hspan Hlen]. unfold tube_index.
  destruct (Z.eqb_spec (m_span c) 0) as [?|_]; [lia|].
  set (y := pos_y (key_position key) mod m_span c).
  set (x := pos_x (key_position key) mod m_span c).
  assert (0 ≤ y < m_span c) by (apply Z.mod_pos_bound; lia).
  assert (0 ≤ x < m_span c) by (apply Z.mod_pos_bound; lia).
  assert (0 ≤ y * m_span c + x < m_span c * m_span c) by nia.
  assert (m_span c * m_span c < 2 ^ 64) by nia.
  assert (Z.to_nat (wrap64 (y * m_span c + x)) < length (m_grid c))%nat as Hlt.
  { unfold wrap64. rewrite Z.mod_small by lia. lia. }
  apply lookup_lt_is_Some_2 in Hlt as [tube Htube].
  by eexists _, tube.
Qed.

(** The ways through [insert], for a key whose tube exists. *)
Lemma insert_cases (c : Chunk) (voxel : Voxel) (key : Key) (i : nat) (tube : VoxelTube) :
  tube_index c key = Some i →
  m_grid c !! i = Some tube →
  (tube !! tube_key key = None
   ∧ chunk.insert c voxel key
     = Some (true,
             set_grid c
               (<[i := <[tube_key key := mkResident (v_point voxel)
                                           (length (m_gridBlock c))]> tube]>
                  (m_grid c))
               (m_gridBlock c ++ [v_data voxel]),
             voxel, []))
  ∨ (∃ r, tube !! tube_key key = Some r
       ∧ dist_lt (sqDist3d (v_point voxel) (mid (key_bounds key)))
                 (sqDist3d (r_point r) (mid (key_bounds key))) = false
       ∧ chunk.insert c voxel key
         = '(done, c', calls) ← insertOverflow c voxel key;
           Some (done, c', voxel, calls))
  ∨ (∃ r, tube !! tube_key key = Some r
       ∧ dist_lt (sqDist3d (v_point voxel) (mid (key_bounds key)))
                 (sqDist3d (r_point r) (mid (key_bounds key))) = true
       ∧ chunk.insert c voxel key
         = bytes ← m_gridBlock c !! r_slot r;
           '(done, c', calls) ←
             insertOverflow
               (set_grid c
                  (<[i := <[tube_key key := mkResident (v_point voxel) (r_slot r)]>
                            tube]> (m_grid c))
                  (<[r_slot r := v_data voxel]> (m_gridBlock c)))
               (mkVoxel (r_point r) bytes) key;
           Some (done, c', mkVoxel (r_point r) bytes, calls)).
Proof.
  intros Hi Htube.
  destruct (tube !! tube_key key) as [r|] eqn:Hcell.
  - right.
    destruct (dist_lt (sqDist3d (v_point voxel) (mid (key_bounds key)))
                      (sqDist3d (r_point r) (mid (key_bounds key)))) eqn:Hcloser.
    + right. exists r. split_and!; [done..|].
      unfold chunk.insert. rewrite Hi. cbn [mbind option_bind].
      rewrite Htube. cbn [mbind option_bind]. rewrite Hcell, Hcloser.
      unfold swapDeep.
      destruct (m_gridBlock c !! r_slot r) as [bytes|]; cbn [mbind option_bind];
        [|done].
      by destruct (insertOverflow _ _ _) as [[[? ?] ?]|].
    + left. exists r. split_and!; [done..|].
      unfold chunk.insert. rewrite Hi. cbn [mbind option_bind].
      rewrite Htube. cbn [mbind option_bind]. rewrite Hcell, Hcloser.
      cbn [mbind option_bind].
      by destruct (insertOverflow _ _ _) as [[[? ?] ?]|].
  - left. split; [done|]. by apply insert_empty_cell.
Qed.

(** ** What [insertOverflow] does to the buckets *)

Lemma synced_make (ck : ChunkKey) : synced_bucket (overflow.make ck).
Proof. done. Qed.

Lemma with_entry_bucket_ne (c : Chunk) i j o voxel key :
  j ≠ i → bucket (with_entry c i o voxel key) j = bucket c j.
Proof.
  intros Hj. unfold with_entry. rewrite bucket_set_overflows.
  by rewrite list_lookup_insert_ne.
Qed.

Lemma with_entry_synced (c : Chunk) i o voxel key :
  bucket c i = Some o → synced c → synced (with_entry c i o voxel key).
Proof.
  intros Hb Hs j o' Hj.
  destruct (decide (j = i)) as [->|Hne].
  - rewrite (with_entry_bucket c i o voxel key Hb) in Hj. injection Hj as <-.
    unfold synced_bucket. cbn [o_block o_list].
    rewrite fmap_app. cbn. f_equal. by apply (Hs i).
  - rewrite with_entry_bucket_ne in Hj by done. by apply (Hs j).
Qed.

Lemma doOverflow_bucket (c c' : Chunk) (dir j : nat) calls :
  doOverflow c dir = Some (c', calls) →
  bucket c' j = if decide (j = dir) then None else bucket c j.
Proof.
  intros Hdo.
  destruct (bucket c dir) as [active|] eqn:Hb;
    [|by rewrite doOverflow_absent in Hdo].
  rewrite (doOverflow_present c dir active Hb) in Hdo. injection Hdo as <- _.
  rewrite bucket_set_overflows. apply bucket_Some in Hb.
  destruct (decide (j = dir)) as [->|Hne].
  - rewrite list_lookup_insert_eq; [done|]. by eapply lookup_lt_Some.
  - by rewrite list_lookup_insert_ne.
Qed.

Lemma maybeOverflow_bucket (c c' : Chunk) (j : nat) calls o :
  maybeOverflow c = Some (c', calls) →
  bucket c' j = Some o → bucket c j = Some o.
Proof.
  unfold maybeOverflow.
  destruct (_ <? maxNodeSize _); [by intros [= <- <-]|].
  destruct (select _ _ _) as [i s].
  destruct (_ <? minNodeSize _); [by intros [= <- <-]|].
  intros Hdo Hj. rewrite (doOverflow_bucket _ _ _ j _ Hdo) in Hj.
  by destruct (decide (j = i)).
Qed.

Lemma insertOverflow_synced (c c' : Chunk) (voxel : Voxel) (key : Key) done calls :
  synced c →
  insertOverflow c voxel key = Some (done, c', calls) →
  synced c'.
Proof.
  intros Hs Hins.
  destruct (insertOverflow_cases c voxel key)
    as [[Hsame _]|(o & _ & Hb & [[_ Hsame]|(_ & c2 & calls2 & Hmaybe & Hsame)])];
    rewrite Hsame in Hins; injection Hins as <- <- <-.
  - done.
  - by apply with_entry_synced.
  - intros j o' Hj. apply (maybeOverflow_bucket _ _ j _ o' Hmaybe) in Hj.
    by apply (with_entry_synced c _ o voxel key Hb Hs j).
Qed.

Lemma insertOverflow_same_grid (c c' : Chunk) (voxel : Voxel) (key : Key) done calls :
  insertOverflow c voxel key = Some (done, c', calls) →
  m_grid c' = m_grid c ∧ m_gridBlock c' = m_gridBlock c ∧ m_span c' = m_span c.
Proof.
  intros Hins.
  destruct (insertOverflow_returns c voxel key)
    as (done' & c'' & calls' & Hins' & Hgrid & Hspan).
  rewrite Hins in Hins'. injection Hins' as <- <- <-.
  rewrite <- Hgrid. done.
Qed.


(** ** Soundness is kept *)

Lemma grid_update_valid (c : Chunk) i tube tk r (blk : MemBlock) :
  m_grid c !! i = Some tube →
  slots_valid c →
  (length (m_gridBlock c) ≤ length blk)%nat →
  (r_slot r < length blk)%nat →
  slots_valid (set_grid c (<[i := <[tk := r]> tube]> (m_grid c)) blk).
Proof.
  intros Htube Hvalid Hlen Hr i' tube' z r' Hi' Hz.
  cbn [m_grid m_gridBlock set_grid] in *.
  destruct (decide (i' = i)) as [->|Hne].
  - rewrite list_lookup_insert_eq in Hi' by by eapply lookup_lt_Some.
    injection Hi' as <-.
    destruct (decide (z = tk)) as [->|Hz'].
    + rewrite lookup_insert_eq in Hz. by injection Hz as <-.
    + rewrite lookup_insert_ne in Hz by done.
      specialize (Hvalid i tube z r' Htube Hz). lia.
  - rewrite list_lookup_insert_ne in Hi' by done.
    specialize (Hvalid i' tube' z r' Hi' Hz). lia.
Qed.

Lemma grid_update_sized (c : Chunk) i (tube : VoxelTube) (blk : MemBlock) :
  grid_sized c → grid_sized (set_grid c (<[i := tube]> (m_grid c)) blk).
Proof.
  intros [Hspan Hlen]. split; [done|].
  cbn [m_grid m_span set_grid]. by rewrite length_insert.
Qed.

Lemma grid_update_distinct (c : Chunk) i tube tk r (blk : MemBlock) :
  m_grid c !! i = Some tube →
  slots_distinct c →
  (∀ i' tube' z' r', m_grid c !! i' = Some tube' → tube' !! z' = Some r' →
                     r_slot r' = r_slot r → i' = i ∧ z' = tk) →
  slots_distinct (set_grid c (<[i := <[tk := r]> tube]> (m_grid c)) blk).
Proof.
  intros Htube Hdist Hfresh.
  assert (∀ j t z x,
    <[i := <[tk := r]> tube]> (m_grid c) !! j = Some t → t !! z = Some x →
    (j = i ∧ z = tk ∧ x = r)
    ∨ ((j ≠ i ∨ z ≠ tk) ∧ ∃ t0, m_grid c !! j = Some t0 ∧ t0 !! z = Some x))
    as Hold.
  { intros j t z x Hj Hz.
    destruct (decide (j = i)) as [->|Hne].
    - rewrite list_lookup_insert_eq in Hj by by eapply lookup_lt_Some.
      injection Hj as <-.
      destruct (decide (z = tk)) as [->|Hz'].
      + rewrite lookup_insert_eq in Hz. injection Hz as <-. by left.
      + rewrite lookup_insert_ne in Hz by done. right. eauto.
    - rewrite list_lookup_insert_ne in Hj by done. right. eauto. }
  intros j1 t1 z1 x1 j2 t2 z2 x2 Hj1 Hz1 Hj2 Hz2 Hslot.
  cbn [m_grid set_grid] in Hj1, Hj2.
  destruct (Hold _ _ _ _ Hj1 Hz1) as [(-> & -> & ->)|[Hne1 (u1 & Hu1 & Hx1)]];
    destruct (Hold _ _ _ _ Hj2 Hz2) as [(-> & -> & ->)|[Hne2 (u2 & Hu2 & Hx2)]].
  - done.
  - destruct (Hfresh _ _ _ _ Hu2 Hx2) as [-> ->]; [done|]. by destruct Hne2.
  - destruct (Hfresh _ _ _ _ Hu1 Hx1) as [-> ->]; [done|]. by destruct Hne1.
  - by eapply Hdist.
Qed.

Lemma sum_list_insert (l : list nat) (i x y : nat) :
  l !! i = Some x → (sum_list (<[i := y]> l) + x = sum_list l + y)%nat.
Proof.
  revert i. induction l as [|a l IH]; intros i Hi.
  { by rewrite lookup_nil in Hi. }
  destruct i as [|i].
  - injection Hi as ->. cbn. lia.
  - specialize (IH i Hi).
    change (<[S i := y]> (a :: l)) with (a :: <[i := y]> l).
    change (sum_list (a :: <[i := y]> l)) with (a + sum_list (<[i := y]> l))%nat.
    change (sum_list (a :: l)) with (a + sum_list l)%nat. lia.
Qed.

Lemma grid_update_counted_new (c : Chunk) i (tube : VoxelTube) tk r d :
  m_grid c !! i = Some tube → tube !! tk = None →
  grid_counted c →
  grid_counted (set_grid c (<[i := <[tk := r]> tube]> (m_grid c))
                  (m_gridBlock c ++ [d])).
Proof.
  intros Htube Hnone Hc. unfold grid_counted, MemBlock_size in *.
  cbn [m_grid m_gridBlock set_grid].
  rewrite list_fmap_insert, length_app. cbn [length].
  rewrite map_size_insert_None by done.
  pose proof (sum_list_insert (size <$> m_grid c) i (size tube)
                (size (<[tk := r]> tube))) as Hsum.
  rewrite list_lookup_fmap, Htube in Hsum. specialize (Hsum eq_refl).
  rewrite map_size_insert_None in Hsum by done. lia.
Qed.

Lemma grid_update_counted_swap (c : Chunk) i (tube : VoxelTube) tk r r' slot d :
  m_grid c !! i = Some tube → tube !! tk = Some r →
  grid_counted c →
  grid_counted (set_grid c (<[i := <[tk := r']> tube]> (m_grid c))
                  (<[slot := d]> (m_gridBlock c))).
Proof.
  intros Htube Hsome Hc. unfold grid_counted, MemBlock_size in *.
  cbn [m_grid m_gridBlock set_grid].
  rewrite list_fmap_insert, length_insert.
  rewrite map_size_insert_Some by done.
  pose proof (sum_list_insert (size <$> m_grid c) i (size tube)
                (size (<[tk := r']> tube))) as Hsum.
  rewrite list_lookup_fmap, Htube in Hsum. specialize (Hsum eq_refl).
  rewrite map_size_insert_Some in Hsum by done. lia.
Qed.

Lemma insertOverflow_sound (c c' : Chunk) (voxel : Voxel) (key : Key) done calls :
  sound c → m_overflowCount c < 2 ^ 64 - 1 →
  insertOverflow c voxel key = Some (done, c', calls) →
  sound c' ∧ m_overflowCount c' ≤ m_overflowCount c + 1.
Proof.
  intros (Hsized & Hvalid & Hdist & Hgc & Hsynced & Hcounted) Hlt Hins.
  destruct (insertOverflow_same_grid _ _ _ _ _ _ Hins) as (Hg & Hb & Hspan).
  destruct (insertOverflow_counted _ _ _ _ _ _ Hcounted Hlt Hins) as [Hc' Hle].
  split; [|done]. split_and!.
  - unfold grid_sized. by rewrite Hspan, Hg.
  - unfold slots_valid. rewrite Hg, Hb. exact Hvalid.
  - unfold slots_distinct. rewrite Hg. exact Hdist.
  - unfold grid_counted. by rewrite Hg, Hb.
  - by eapply insertOverflow_synced.
  - done.
Qed.

(** On a sound chunk [insert] returns, and leaves a sound chunk. *)
Lemma insert_sound (c : Chunk) (voxel : Voxel) (key : Key) :
  sound c → m_overflowCount c < 2 ^ 64 - 1 →
  ∃ done c' voxel' calls,
    chunk.insert c voxel key = Some (done, c', voxel', calls)
    ∧ sound c'
    ∧ m_overflowCount c' ≤ m_overflowCount c + 1.
Proof.
  intros Hsound Hlt.
  pose proof Hsound as (Hsized & Hvalid & Hdist & Hgc & Hsynced & Hcounted).
  destruct (tube_index_in_grid c key Hsized) as (i & tube & Hi & Htube).
  destruct (insert_cases c voxel key i tube Hi Htube)
    as [[Hnone ->]|[(r & Hr & _ & ->)|(r & Hr & _ & ->)]].
  - eexists _, _, _, _. split; [done|]. split; [|cbn; lia]. split_and!.
    + by apply grid_update_sized.
    + apply grid_update_valid; [done|done|..]; rewrite length_app; cbn; lia.
    + apply grid_update_distinct; [done|done|].
      intros i' tube' z' r' Hi' Hz' Hslot. cbn [r_slot] in Hslot.
      pose proof (Hvalid _ _ _ _ Hi' Hz'). lia.
    + by apply grid_update_counted_new.
    + exact Hsynced.
    + exact Hcounted.
  - destruct (insertOverflow_returns c voxel key)
      as (done & c' & calls & Hins & _).
    rewrite Hins. cbn [mbind option_bind].
    eexists _, _, _, _. split; [done|].
    by eapply insertOverflow_sound.
  - pose proof (Hvalid i tube _ r Htube Hr) as Hslot.
    apply lookup_lt_is_Some_2 in Hslot as [bytes Hbytes].
    rewrite Hbytes. cbn [mbind option_bind].
    match goal with
    | |- context [insertOverflow ?c1 ?v1 key] =>
        destruct (insertOverflow_returns c1 v1 key)
          as (done & c' & calls & Hins & _);
        assert (sound c1) as Hsound1
    end.
    { split_and!.
      - by apply grid_update_sized.
      - apply grid_update_valid; [done|done|..]; rewrite length_insert;
          [lia|by eapply lookup_lt_Some].
      - apply grid_update_distinct; [done|done|].
        intros i' tube' z' r' Hi' Hz' Hslot. cbn [r_slot] in Hslot.
        by eapply (Hdist i' tube' z' r' i tube (tube_key key) r).
      - by eapply grid_update_counted_swap.
      - exact Hsynced.
      - exact Hcounted. }
    rewrite Hins. cbn [mbind option_bind].
    eexists _, _, _, _. split; [done|].
    by eapply (insertOverflow_sound _ _ _ _ _ _ Hsound1 Hlt Hins).
Qed.

(** A new chunk is sound. *)
Lemma make_sound (m : Metadata) (ck : ChunkKey) (h : Hierarchy) :
  0 < span m < 2 ^ 32 → sound (make m ck h).
Proof.
  intros Hspan. split_and!.
  - split; [done|]. cbn [m_grid m_span make]. rewrite length_replicate.
    unfold wrap64. rewrite Z.mod_small by nia. done.
  - intros i tube z r Hi Hz. cbn [m_grid make] in Hi.
    apply lookup_replicate in Hi as [-> _]. by rewrite lookup_empty in Hz.
  - intros i tube z r i' tube' z' r' Hi Hz. cbn [m_grid make] in Hi.
    apply lookup_replicate in Hi as [-> _]. by rewrite lookup_empty in Hz.
  - unfold grid_counted. cbn [m_grid m_gridBlock make].
    generalize (Z.to_nat (wrap64 (span m * span m))). intros n.
    induction n as [|n IH]; [done|]. exact IH.
  - intros i o Hb. apply bucket_Some in Hb. cbn [m_overflows make] in Hb.
    apply list_lookup_fmap_Some in Hb as (j & Heq & _).
    destruct (_ =? 0); by simplify_eq.
  - apply make_counted.
Qed.

Lemma grow_sound (ops : list (Voxel * Key)) (c : Chunk) :
  sound c →
  m_overflowCount c + Z.of_nat (length ops) < 2 ^ 64 →
  ∃ c', grow c ops = Some c' ∧ sound c'
        ∧ m_overflowCount c' ≤ m_overflowCount c + Z.of_nat (length ops).
Proof.
  revert c. induction ops as [|[voxel key] ops IH]; intros c Hsound Hlen.
  { exists c. split_and!; [done..|cbn; lia]. }
  cbn [length] in Hlen.
  destruct (insert_sound c voxel key Hsound)
    as (done & c1 & voxel' & calls & Hins & Hsound1 & Hle); [lia|].
  destruct (IH c1 Hsound1) as (c' & Hgrow & Hsound' & Hle'); [lia|].
  exists c'. split_and!; [|done|cbn [length]; lia].
  unfold grow in *. cbn [foldl mbind option_bind fst snd].
  rewrite Hins. exact Hgrow.
Qed.

(** X1. Every chunk reached from the constructor by calls of [insert] is
    sound, and every one of these calls returns: the tube index stays inside
    the grid, every voxel of the grid points at an allocated slot of the grid
    block that is its own, the grid block has as many slots as the grid has
    voxels, the assertion of [doOverflow] holds, each bucket's block holds
    the bytes of its entries, and [m_overflowCount] is the number of points
    in the present buckets. *)
Theorem X1_chunk_stays_sound
    (m : Metadata) (ck : ChunkKey) (h : Hierarchy) (ops : list (Voxel * Key)) :
  0 < span m < 2 ^ 32 →
  Z.of_nat (length ops) < 2 ^ 64 →
  ∃ c, grow (make m ck h) ops = Some c
       ∧ grid_sized c ∧ slots_valid c ∧ slots_distinct c ∧ grid_counted c
       ∧ synced c ∧ counted c
       ∧ m_overflowCount c ≤ Z.of_nat (length ops).
Proof.
  intros Hspan Hlen.
  destruct (grow_sound ops (make m ck h) (make_sound m ck h Hspan))
    as (c & Hgrow & (? & ? & ? & ? & ? & ?) & Hle); [cbn; lia|].
  exists c. by split_and!.
Qed.

End chunk_sound_facts.

(* ===================================================================== *)
(** * Properties of builder/chunk.cpp: what an insert changes *)
(* ===================================================================== *)

Section chunk_frame_facts.
Import overflow chunk props inv.
Context `{K : KeyOps}.

Lemma set_grid_own (c : Chunk) : set_grid c (m_grid c) (m_gridBlock c) = c.
Proof. by destruct c. Qed.

Lemma set_overflows_own (c : Chunk) :
  set_overflows c (m_overflows c) (m_overflowCount c) = c.
Proof. by destruct c. Qed.

(** [insertOverflow] writes the buckets and their count, nothing else. *)
Lemma insertOverflow_static (c c' : Chunk) (voxel : Voxel) (key : Key) done calls :
  insertOverflow c voxel key = Some (done, c', calls) →
  ∃ ovs n, c' = set_overflows c ovs n.
Proof.
  intros Hins.
  destruct (insertOverflow_cases c voxel key)
    as [[Hsame _]|(o & _ & Hb & [[_ Hsame]|(_ & c2 & calls2 & Hmaybe & Hsame)])];
    rewrite Hsame in Hins; injection Hins as <- <- <-.
  - eexists _, _. symmetry. apply set_overflows_own.
  - by eexists _, _.
  - revert Hmaybe. unfold maybeOverflow.
    destruct (_ <? maxNodeSize _); [intros [= <- <-]; by eexists _, _|].
    destruct (select _ _ _) as [j s].
    destruct (_ <? minNodeSize _); [intros [= <- <-]; by eexists _, _|].
    unfold doOverflow.
    destruct (m_overflows _ !! j) as [[a|]|]; [|done..].
    intros [= <- <-]. by eexists _, _.
Qed.

(** [insert] either fills a cell, or writes at most one cell and goes on
    with [insertOverflow]. *)
Lemma insert_via_overflow (c c' : Chunk) (voxel voxel' : Voxel) (key : Key) done calls :
  chunk.insert c voxel key = Some (done, c', voxel', calls) →
  ∃ g b, (c' = set_grid c g b ∧ calls = [] ∧ done = true)
         ∨ insertOverflow (set_grid c g b) voxel' key = Some (done, c', calls).
Proof.
  unfold chunk.insert.
  destruct (tube_index c key) as [i|]; [|done]. cbn [mbind option_bind].
  destruct (m_grid c !! i) as [tube|]; [|done]. cbn [mbind option_bind].
  destruct (tube !! tube_key key) as [dst|].
  - destruct (dist_lt _ _).
    + destruct (swapDeep (m_gridBlock c) voxel dst) as [[[v1 d1] b1]|]; [|done].
      cbn [mbind option_bind].
      match goal with
      | |- context [insertOverflow ?c1 ?v1 ?k1] =>
          destruct (insertOverflow c1 v1 k1) as [[[done1 c2] calls1]|] eqn:Hover;
          [|done]
      end.
      cbn [mbind option_bind]. intros [= <- <- <- <-].
      eexists _, _. right. exact Hover.
    + cbn [mbind option_bind].
      destruct (insertOverflow c voxel key) as [[[done1 c2] calls1]|] eqn:Hover;
        [|done].
      cbn [mbind option_bind]. intros [= <- <- <- <-].
      exists (m_grid c), (m_gridBlock c). right. by rewrite set_grid_own.
  - unfold MemBlock_next, initDeep. intros [= <- <- <- <-].
    eexists _, _. by left.
Qed.

(** What never changes over the life of a chunk. *)
Lemma insert_static (c c' : Chunk) (voxel voxel' : Voxel) (key : Key) done calls :
  chunk.insert c voxel key = Some (done, c', voxel', calls) →
  m_metadata c' = m_metadata c ∧ m_span c' = m_span c
  ∧ m_chunkKey c' = m_chunkKey c ∧ m_childKeys c' = m_childKeys c.
Proof.
  intros Hins.
  destruct (insert_via_overflow _ _ _ _ _ _ _ Hins) as (g & b & [(-> & _)|Hover]).
  - done.
  - by destruct (insertOverflow_static _ _ _ _ _ _ Hover) as (ovs & n & ->).
Qed.

(** A bucket that is absent stays absent. *)
Lemma insert_bucket_absent (c c' : Chunk) (voxel voxel' : Voxel) (key : Key)
    done calls (j : nat) :
  chunk.insert c voxel key = Some (done, c', voxel', calls) →
  bucket c j = None → bucket c' j = None.
Proof.
  intros Hins Hnone.
  destruct (insert_via_overflow _ _ _ _ _ _ _ Hins) as (g & b & [(-> & _)|Hover]).
  { done. }
  assert (bucket (set_grid c g b) j = None) as Hnone1 by done.
  destruct (insertOverflow_cases (set_grid c g b) voxel' key)
    as [[Hsame _]|(o & _ & Hb & [[_ Hsame]|(_ & c2 & calls2 & Hmaybe & Hsame)])];
    rewrite Hsame in Hover; injection Hover as <- <- <-.
  - done.
  - rewrite with_entry_bucket_ne; [done|]. intros ->. cbn [m_chunkKey set_grid] in *. congruence.
  - destruct (bucket c2 j) as [o'|] eqn:Hj; [|done].
    apply (maybeOverflow_bucket _ _ j _ o' Hmaybe) in Hj.
    rewrite with_entry_bucket_ne in Hj; [congruence|].
    intros ->. cbn [m_chunkKey set_grid] in *. congruence.
Qed.

Lemma grow_cons (c : Chunk) (op : Voxel * Key) (ops : list (Voxel * Key)) :
  grow c (op :: ops)
  = c1 ← (λ r, r.1.1.2) <$> chunk.insert c op.1 op.2; grow c1 ops.
Proof.
  unfold grow. cbn [foldl mbind option_bind].
  destruct (chunk.insert c op.1 op.2) as [[[[ok c1] v1] calls]|];
    cbn [fmap option_fmap option_map mbind option_bind fst snd]; [done|].
  induction ops as [|op' ops IH]; [done|]. exact IH.
Qed.

Lemma grow_absent (ops : list (Voxel * Key)) (c c' : Chunk) (j : nat) :
  grow c ops = Some c' →
  bucket c j = None →
  bucket c' j = None ∧ m_chunkKey c' = m_chunkKey c
  ∧ m_metadata c' = m_metadata c.
Proof.
  revert c. induction ops as [|[voxel key] ops IH]; intros c Hgrow Hnone.
  { injection Hgrow as <-. done. }
  rewrite grow_cons in Hgrow. cbn [fst snd] in Hgrow.
  destruct (chunk.insert c voxel key) as [[[[ok c1] v1] calls]|] eqn:Hins;
    [|done].
  cbn [fmap option_fmap option_map mbind option_bind fst snd] in Hgrow.
  destruct (IH c1 Hgrow) as (? & -> & ->).
  { by eapply insert_bucket_absent. }
  by destruct (insert_static _ _ _ _ _ _ _ Hins) as (-> & _ & -> & _).
Qed.

(** X2. Once [doOverflow] has detached the bucket of an octant, the chunk
    never collects points of that octant again: after any further calls of
    [insert], [insertOverflow] returns false for every voxel whose point lies
    in that octant of the chunk's bounds, and leaves the chunk as it is, so
    that the caller descends to the child. *)
Theorem X2_split_octant_stays_closed
    (c c1 c2 : Chunk) (dir : nat) (calls : list CacheInsert)
    (ops : list (Voxel * Key)) (voxel : Voxel) (key : Key) :
  doOverflow c dir = Some (c1, calls) →
  grow c1 ops = Some c2 →
  toIntegral (getDirection (mid (ck_bounds (m_chunkKey c))) (v_point voxel)) = dir →
  bucket c2 dir = None
  ∧ insertOverflow c2 voxel key = Some (false, c2, []).
Proof.
  intros Hdo Hgrow Hdir.
  assert (bucket c1 dir = None ∧ m_chunkKey c1 = m_chunkKey c) as [Hnone Hck].
  { rewrite (doOverflow_bucket _ _ _ dir _ Hdo).
    split; [by destruct (decide (dir = dir))|].
    revert Hdo. unfold doOverflow.
    destruct (m_overflows c !! dir) as [[a|]|]; [|done..].
    by intros [= <- _]. }
  destruct (grow_absent ops c1 c2 dir Hgrow Hnone) as (Hnone2 & Hck2 & _).
  split; [done|].
  destruct (insertOverflow_cases c2 voxel key)
    as [[Hsame _]|(o & _ & Hb & _)]; [done|].
  rewrite Hck2, Hck, Hdir in Hb. congruence.
Qed.

(** ** Cells *)

Lemma cell_inv (c : Chunk) (key : Key) (r : Resident) :
  cell c key = Some r →
  ∃ i tube, tube_index c key = Some i ∧ m_grid c !! i = Some tube
            ∧ tube !! tube_key key = Some r.
Proof.
  unfold cell. destruct (tube_index c key) as [i|]; [|done].
  cbn [mbind option_bind].
  destruct (m_grid c !! i) as [tube|] eqn:Htube; [|done].
  cbn [mbind option_bind].
  intros Hr. by exists i, tube.
Qed.

Lemma cell_update_other (c : Chunk) i tube tk r blk (key' : Key) :
  m_grid c !! i = Some tube →
  cell_id c key' ≠ (Some i, tk) →
  cell (set_grid c (<[i := <[tk := r]> tube]> (m_grid c)) blk) key'
  = cell c key'.
Proof.
  intros Htube Hne. unfold cell, cell_id in *.
  change (tube_index (set_grid c _ blk) key') with (tube_index c key').
  destruct (tube_index c key') as [i'|]; [|done].
  cbn [mbind option_bind m_grid set_grid].
  destruct (decide (i' = i)) as [->|Hi].
  - rewrite list_lookup_insert_eq by by eapply lookup_lt_Some.
    rewrite Htube. cbn [mbind option_bind].
    rewrite lookup_insert_ne; [done|]. intros Heq. apply Hne. by rewrite Heq.
  - by rewrite list_lookup_insert_ne.
Qed.

(** X3. [insert] writes one cell only: for a key that addresses another
    tube, or another key of the same tube, the voxel found in its cell (point
    and bytes) is the same before and after the call. *)
Theorem X3_insert_leaves_other_cells
    (c c' : Chunk) (voxel voxel' : Voxel) (key key' : Key) done calls :
  sound c →
  chunk.insert c voxel key = Some (done, c', voxel', calls) →
  cell_id c key' ≠ cell_id c key →
  cell_voxel c' key' = cell_voxel c key'.
Proof.
  intros (Hsized & Hvalid & Hdist & _) Hins Hother.
  destruct (tube_index_in_grid c key Hsized) as (i & tube & Hi & Htube).
  assert (cell_id c key' ≠ (Some i, tube_key key)) as Hother'.
  { unfold cell_id in *. by rewrite <- Hi. }
  assert (∀ g b c1 (v1 : Voxel) done1 calls1,
    insertOverflow (set_grid c g b) v1 key = Some (done1, c1, calls1) →
    cell_voxel c1 key' = cell_voxel (set_grid c g b) key') as Hover.
  { intros g b c1 v1 done1 calls1 Hov.
    destruct (insertOverflow_same_grid _ _ _ _ _ _ Hov) as (Hg & Hb & Hspan).
    destruct (insertOverflow_static _ _ _ _ _ _ Hov) as (ovs & n & ->).
    done. }
  destruct (insert_cases c voxel key i tube Hi Htube)
    as [[Hnone Heq]|[(r & Hr & _ & Heq)|(r & Hr & _ & Heq)]];
    rewrite Heq in Hins; clear Heq.
  - injection Hins as <- <- <- <-.
    unfold cell_voxel. rewrite cell_update_other by done.
    destruct (cell c key') as [r'|] eqn:Hcell; [|done].
    cbn [mbind option_bind]. unfold deref. cbn [m_gridBlock set_grid].
    destruct (cell_inv c key' r' Hcell) as (i' & tube' & _ & Hi' & Hr').
    rewrite lookup_app_l; [done|]. by eapply Hvalid.
  - destruct (insertOverflow c voxel key) as [[[done1 c1] calls1]|] eqn:Hov;
      [|done].
    cbn [mbind option_bind] in Hins. injection Hins as <- <- <- <-.
    rewrite <- (set_grid_own c) in Hov.
    rewrite (Hover _ _ _ _ _ _ Hov). by rewrite set_grid_own.
  - pose proof (Hvalid i tube _ r Htube Hr) as Hslot.
    apply lookup_lt_is_Some_2 in Hslot as [bytes Hbytes].
    rewrite Hbytes in Hins. cbn [mbind option_bind] in Hins.
    match type of Hins with
    | context [insertOverflow ?c1 ?v1 key] =>
        destruct (insertOverflow c1 v1 key) as [[[done1 c2] calls1]|] eqn:Hov;
        [|done]
    end.
    cbn [mbind option_bind] in Hins. injection Hins as <- <- <- <-.
    rewrite (Hover _ _ _ _ _ _ Hov).
    unfold cell_voxel. rewrite cell_update_other by done.
    destruct (cell c key') as [r'|] eqn:Hcell; [|done].
    cbn [mbind option_bind]. unfold deref. cbn [m_gridBlock set_grid].
    destruct (cell_inv c key' r' Hcell) as (i' & tube' & Hti' & Hi' & Hr').
    rewrite list_lookup_insert_ne; [done|].
    intros Hsame.
    destruct (Hdist _ _ _ _ _ _ _ _ Htube Hr Hi' Hr' Hsame) as [<- Htk].
    apply Hother'. unfold cell_id. by rewrite Hti', Htk.
Qed.

(** X4. A voxel inserted at a key whose cell is empty is stored there: the
    call returns true without any call to the cache, the cell then holds the
    voxel's point and bytes, the grid block has one slot more, and the
    buckets and their count are untouched. *)
Theorem X4_insert_into_empty_cell (c : Chunk) (voxel : Voxel) (key : Key) :
  grid_sized c →
  cell c key = None →
  ∃ c',
    chunk.insert c voxel key = Some (true, c', voxel, [])
    ∧ cell_voxel c' key = Some voxel
    ∧ MemBlock_size (m_gridBlock c') = MemBlock_size (m_gridBlock c) + 1
    ∧ m_overflows c' = m_overflows c
    ∧ m_overflowCount c' = m_overflowCount c.
Proof.
  intros Hsized Hcell.
  destruct (tube_index_in_grid c key Hsized) as (i & tube & Hi & Htube).
  assert (tube !! tube_key key = None) as Hnone.
  { unfold cell in Hcell. rewrite Hi in Hcell. cbn [mbind option_bind] in Hcell.
    by rewrite Htube in Hcell. }
  eexists. split; [by apply insert_empty_cell|]. split_and!; [|..|done|done].
  - unfold cell_voxel. erewrite cell_set_grid by done.
    cbn [mbind option_bind]. unfold deref. cbn [r_slot r_point m_gridBlock set_grid].
    rewrite lookup_app_r, Nat.sub_diag by done. by destruct voxel.
  - unfold MemBlock_size. cbn [m_gridBlock set_grid]. rewrite length_app.
    cbn [length]. lia.
Qed.

End chunk_frame_facts.

(* ===================================================================== *)
(** * Properties of builder/chunk.cpp: no point is lost *)
(* ===================================================================== *)

Section chunk_conserve_facts.
Import overflow chunk props inv.
Context `{K : KeyOps}.

Lemma insert_swap_perm {A : Type} (l : list A) (i : nat) (x y : A) :
  l !! i = Some x → <[i := y]> l ++ [x] ≡ₚ l ++ [y].
Proof.
  revert i. induction l as [|a l IH]; intros i Hi.
  { by rewrite lookup_nil in Hi. }
  destruct i as [|i].
  - injection Hi as ->. cbn. rewrite <- !Permutation_cons_append.
    apply perm_swap.
  - cbn. apply Permutation_skip. by apply IH.
Qed.

Lemma blocks_grow_perm (ovs : list (option Overflow)) (i : nat) (o o' : Overflow) d :
  ovs !! i = Some (Some o) →
  o_block o' = o_block o ++ [d] →
  concat (omap (fmap o_block) (<[i := Some o']> ovs))
  ≡ₚ concat (omap (fmap o_block) ovs) ++ [d].
Proof.
  intros Hi Hblock. revert i Hi.
  induction ovs as [|o0 ovs IH]; intros i Hi.
  { by rewrite lookup_nil in Hi. }
  destruct i as [|i].
  - injection Hi as ->. cbn. rewrite Hblock, <- !app_assoc.
    apply Permutation_app_head, Permutation_app_comm.
  - change (<[S i := Some o']> (o0 :: ovs)) with (o0 :: <[i := Some o']> ovs).
    destruct o0 as [o0|]; cbn.
    + rewrite (IH i Hi). by rewrite app_assoc.
    + by apply IH.
Qed.

Lemma blocks_drop_perm (ovs : list (option Overflow)) (i : nat) (o : Overflow) :
  ovs !! i = Some (Some o) →
  concat (omap (fmap o_block) (<[i := None]> ovs)) ++ o_block o
  ≡ₚ concat (omap (fmap o_block) ovs).
Proof.
  revert i. induction ovs as [|o0 ovs IH]; intros i Hi.
  { by rewrite lookup_nil in Hi. }
  destruct i as [|i].
  - injection Hi as ->. cbn. apply Permutation_app_comm.
  - change (<[S i := None]> (o0 :: ovs)) with (o0 :: <[i := None]> ovs).
    destruct o0 as [o0|]; cbn.
    + rewrite <- app_assoc. by rewrite (IH i Hi).
    + by apply IH.
Qed.

(** The points [maybeOverflow] hands to the cache are the ones it takes out
    of the buckets. *)
Lemma maybeOverflow_conserves (c c' : Chunk) calls :
  synced c →
  maybeOverflow c = Some (c', calls) →
  concat (present_blocks c') ++ calls_data calls ≡ₚ concat (present_blocks c).
Proof.
  intros Hs. unfold maybeOverflow.
  destruct (_ <? maxNodeSize _);
    [intros [= <- <-]; by rewrite app_nil_r|].
  destruct (select _ _ _) as [i s].
  destruct (_ <? minNodeSize _);
    [intros [= <- <-]; by rewrite app_nil_r|].
  intros Hdo.
  destruct (bucket c i) as [active|] eqn:Hb;
    [|by rewrite doOverflow_absent in Hdo].
  rewrite (doOverflow_present c i active Hb) in Hdo. injection Hdo as <- <-.
  unfold present_blocks, calls_data. cbn [m_overflows set_overflows].
  rewrite <- list_fmap_compose.
  replace ((λ call, v_data (ci_voxel call)) ∘ _ <$> o_list active)
    with (o_block active).
  - apply blocks_drop_perm. by apply bucket_Some.
  - rewrite (Hs i active Hb). done.
Qed.

(** The same for [insertOverflow], which also takes the voxel in when it
    returns true. *)
Lemma insertOverflow_conserves (c c' : Chunk) (voxel : Voxel) (key : Key) done calls :
  synced c →
  insertOverflow c voxel key = Some (done, c', calls) →
  concat (present_blocks c') ++ calls_data calls
    ++ (if done then [] else [v_data voxel])
  ≡ₚ concat (present_blocks c) ++ [v_data voxel].
Proof.
  intros Hs Hins.
  destruct (insertOverflow_cases c voxel key)
    as [[Hsame _]|(o & _ & Hb & [[_ Hsame]|(_ & c2 & calls2 & Hmaybe & Hsame)])];
    rewrite Hsame in Hins; injection Hins as <- <- <-.
  - done.
  - cbn [calls_data fmap list_fmap app]. rewrite app_nil_r.
    unfold present_blocks, with_entry. cbn [m_overflows set_overflows].
    eapply blocks_grow_perm; [by apply bucket_Some|done].
  - rewrite app_nil_r.
    rewrite (maybeOverflow_conserves _ _ _
               (with_entry_synced c _ o voxel key Hb Hs) Hmaybe).
    unfold present_blocks, with_entry. cbn [m_overflows set_overflows].
    eapply blocks_grow_perm; [by apply bucket_Some|done].
Qed.

Lemma insert_conserves
    (c c' : Chunk) (voxel voxel' : Voxel) (key : Key) done calls :
  sound c →
  chunk.insert c voxel key = Some (done, c', voxel', calls) →
  chunk_points c' ++ calls_data calls
    ++ (if done then [] else [v_data voxel'])
  ≡ₚ chunk_points c ++ [v_data voxel].
Proof.
  intros (Hsized & Hvalid & _ & _ & Hsynced & _) Hins.
  destruct (tube_index_in_grid c key Hsized) as (i & tube & Hi & Htube).
  unfold chunk_points.
  assert (∀ g b c1 (v1 : Voxel) ok1 calls1,
    insertOverflow (set_grid c g b) v1 key = Some (ok1, c1, calls1) →
    (m_gridBlock c1 ++ concat (present_blocks c1)) ++ calls_data calls1
      ++ (if ok1 then [] else [v_data v1])
    ≡ₚ (b ++ [v_data v1]) ++ concat (present_blocks c)) as Hover.
  { intros g b c1 v1 ok1 calls1 Hov.
    destruct (insertOverflow_same_grid _ _ _ _ _ _ Hov) as (_ & -> & _).
    cbn [m_gridBlock set_grid].
    rewrite <- !app_assoc. apply Permutation_app_head.
    etrans; [exact (insertOverflow_conserves (set_grid c g b) _ _ _ _ _ Hsynced Hov)|].
    apply Permutation_app_comm. }
  destruct (insert_cases c voxel key i tube Hi Htube)
    as [[Hnone Heq]|[(r & Hr & _ & Heq)|(r & Hr & _ & Heq)]];
    rewrite Heq in Hins; clear Heq.
  - injection Hins as <- <- <- <-. cbn [m_gridBlock set_grid calls_data fmap list_fmap app].
    rewrite app_nil_r, <- !app_assoc. apply Permutation_app_head.
    apply Permutation_app_comm.
  - destruct (insertOverflow c voxel key) as [[[ok1 c1] calls1]|] eqn:Hov;
      [|done].
    cbn [mbind option_bind] in Hins. injection Hins as <- <- <- <-.
    rewrite <- (set_grid_own c) in Hov.
    rewrite (Hover _ _ _ _ _ _ Hov).
    rewrite <- !app_assoc. apply Permutation_app_head, Permutation_app_comm.
  - pose proof (Hvalid i tube _ r Htube Hr) as Hslot.
    apply lookup_lt_is_Some_2 in Hslot as [bytes Hbytes].
    rewrite Hbytes in Hins. cbn [mbind option_bind] in Hins.
    match type of Hins with
    | context [insertOverflow ?c1 ?v1 key] =>
        destruct (insertOverflow c1 v1 key) as [[[ok1 c2] calls1]|] eqn:Hov;
        [|done]
    end.
    cbn [mbind option_bind] in Hins. injection Hins as <- <- <- <-.
    rewrite (Hover _ _ _ _ _ _ Hov). cbn [v_data].
    rewrite (insert_swap_perm _ _ _ _ Hbytes).
    rewrite <- !app_assoc. apply Permutation_app_head, Permutation_app_comm.
Qed.

(** X5. A chunk neither loses nor duplicates a point.  From a sound chunk
    on, every call of [insert] returns, and after any number of them the
    bytes the chunk holds (grid block and present buckets) together with the
    bytes that left it, those of the voxels a split handed to [cache.insert]
    and those of the voxel a call that returned false left with its caller,
    are a permutation of the bytes the chunk held at first and those of the
    voxels inserted. *)
Theorem X5_inserts_conserve_points (c : Chunk) (ops : list (Voxel * Key)) :
  sound c →
  m_overflowCount c + Z.of_nat (length ops) < 2 ^ 64 →
  ∃ c' out,
    grow_log c ops = Some (c', out)
    ∧ grow c ops = Some c'
    ∧ chunk_points c' ++ out
      ≡ₚ chunk_points c ++ ((λ op, v_data op.1) <$> ops).
Proof.
  revert c. induction ops as [|[voxel key] ops IH]; intros c Hsound Hlen.
  { exists c, []. split_and!; [done..|]. by rewrite !app_nil_r. }
  cbn [length] in Hlen.
  destruct (insert_sound c voxel key Hsound)
    as (ok & c1 & voxel' & calls & Hins & Hsound1 & Hle); [lia|].
  destruct (IH c1 Hsound1) as (c' & out & Hlog & Hgrow & Hperm); [lia|].
  exists c', (calls_data calls ++ (if ok then [] else [v_data voxel']) ++ out).
  split_and!.
  - cbn [grow_log fst snd]. by rewrite Hins, Hlog.
  - rewrite grow_cons. cbn [fst snd]. by rewrite Hins.
  - pose proof (insert_conserves c c1 voxel voxel' key ok calls Hsound Hins) as Hone.
    cbn [fmap list_fmap fst].
    set (gone := calls_data calls ++ (if ok then [] else [v_data voxel'])) in *.
    replace (calls_data calls ++ (if ok then [] else [v_data voxel']) ++ out)
      with (gone ++ out) by (subst gone; by rewrite <- app_assoc).
    rewrite (Permutation_app_comm gone out), app_assoc, Hperm.
    rewrite <- app_assoc, (Permutation_app_comm _ gone), app_assoc, Hone.
    by rewrite <- app_assoc.
Qed.

Lemma blocks_length_total (bs : list MemBlock) :
  Z.of_nat (length (concat bs)) = foldr Z.add 0 (MemBlock_size <$> bs).
Proof.
  induction bs as [|b bs IH]; [done|].
  cbn. rewrite length_app. unfold MemBlock_size at 1. lia.
Qed.

(** X6. The count [save] returns for a sound chunk is the number of voxels
    in the grid plus [m_overflowCount], which is the size [maybeOverflow]
    compares with [maxNodeSize]; it is also the number of points of the table
    written. *)
Theorem X6_save_count_is_split_size (c : Chunk) :
  sound c →
  MemBlock_size (m_gridBlock c) + m_overflowCount c < 2 ^ 64 →
  (save c).1 = Z.of_nat (sum_list (size <$> m_grid c)) + m_overflowCount c
  ∧ (save c).1 = wrap64 (MemBlock_size (m_gridBlock c) + m_overflowCount c)
  ∧ (save c).1 = Z.of_nat (length (w_table (save c).2)).
Proof.
  intros (_ & _ & _ & Hgc & _ & Hcounted) Hlt.
  unfold grid_counted in Hgc. unfold counted, overflow_total, present_blocks in Hcounted.
  assert (MemBlock_size (m_gridBlock c)
          + Z.of_nat (length (concat (omap (fmap o_block) (m_overflows c))))
          = MemBlock_size (m_gridBlock c) + m_overflowCount c) as Hsum.
  { by rewrite Hcounted, blocks_length_total. }
  assert (0 ≤ MemBlock_size (m_gridBlock c)) by (unfold MemBlock_size; lia).
  cbn [save fst snd w_table].
  rewrite save_table_fold, save_count_fold by lia.
  rewrite Hsum, Hgc. split_and!; [done| |].
  - unfold wrap64. rewrite Z.mod_small; [done|]. lia.
  - rewrite length_app. unfold MemBlock_size in *. lia.
Qed.

End chunk_conserve_facts.

(* ===================================================================== *)
(** * builder::mergeOne: the hierarchy of the merged build *)
(* ===================================================================== *)

Section merge_facts.
Import merge.
Context `{M : MergeOps}.

Lemma total_insert_fresh (h : Hierarchy) (key : Dxyz) (count : Z) :
  h !! key = None → total (<[key := count]> h) = count + total h.
Proof.
  intros Hnone. unfold total. rewrite map_fold_insert_L; [done|intros; lia|done].
Qed.

Lemma total_set (h : Hierarchy) (key : Dxyz) (count : Z) :
  hierarchy.get h key = 0 → total (set h key count) = total h + count.
Proof.
  unfold hierarchy.get, set. destruct (h !! key) as [c|] eqn:Hkey; cbn; intros H0.
  - subst c. rewrite <- insert_delete_eq.
    rewrite total_insert_fresh by apply lookup_delete_eq.
    unfold total at 2. rewrite (map_fold_delete_L _ _ key 0 h); [|intros; lia|done].
    fold (total (delete key h)). lia.
  - rewrite total_insert_fresh by done. lia.
Qed.

Lemma get_set_ne (h : Hierarchy) (key key' : Dxyz) (count : Z) :
  key ≠ key' → hierarchy.get (set h key count) key' = hierarchy.get h key'.
Proof. intros Hne. unfold hierarchy.get, set. by rewrite lookup_insert_ne. Qed.

(** The callback on one batch, and [io::read] on all of them, when the cache
    leaves the hierarchy alone. *)
Lemma merge_process_spec (metadata : Metadata) (key : Dxyz) (table : list Voxel) (st : Run) :
  leaves_hierarchy →
  match process metadata key table st with
  | Some st' =>
      st_hierarchy st' = st_hierarchy st
      ∧ st_reads st' = st_reads st
      ∧ st_calls st' = st_calls st ++ (call_of metadata key <$> table)
      ∧ Forall (in_node metadata key) table
  | None => Exists (λ voxel, ¬ in_node metadata key voxel) table
  end.
Proof.
  intros Hinsert. revert st.
  induction table as [|voxel table IH]; intros st; cbn [process].
  { split_and!; [done..|by rewrite app_nil_r|constructor]. }
  case_bool_decide as Hin; [|by left].
  match goal with |- context [process _ _ _ ?st1] => specialize (IH st1) end.
  destruct (process metadata key table _) as [st'|].
  - destruct IH as (Hh & Hr & Hc & Hall). cbn [st_hierarchy st_reads st_calls] in *.
    split_and!; [by rewrite Hh, Hinsert|done| |by constructor].
    rewrite Hc, <- app_assoc. done.
  - by right.
Qed.

Lemma merge_read_spec (metadata : Metadata) (key : Dxyz) (batches : list (list Voxel))
    (st : Run) :
  leaves_hierarchy →
  match read metadata key batches st with
  | Some st' =>
      st_hierarchy st' = st_hierarchy st
      ∧ st_reads st' = st_reads st
      ∧ st_calls st' = st_calls st ++ (call_of metadata key <$> concat batches)
      ∧ Forall (in_node metadata key) (concat batches)
  | None => Exists (λ voxel, ¬ in_node metadata key voxel) (concat batches)
  end.
Proof.
  intros Hleaves. revert st.
  induction batches as [|table batches IH]; intros st; cbn [read concat].
  { split_and!; [done..|by rewrite app_nil_r|constructor]. }
  pose proof (merge_process_spec metadata key table st Hleaves) as Hprocess.
  destruct (process metadata key table st) as [st1|].
  - destruct Hprocess as (Hh1 & Hr1 & Hc1 & Hall1). specialize (IH st1).
    destruct (read metadata key batches st1) as [st'|].
    + destruct IH as (Hh & Hr & Hc & Hall).
      split_and!; [congruence|congruence| |by apply Forall_app].
      rewrite Hc, Hc1, fmap_app, app_assoc. done.
    + apply Exists_app. by right.
  - apply Exists_app. by left.
Qed.

Lemma copied_cases (src : Metadata) (key : Dxyz) (count : Z) :
  (count = 0 ∧ copied src (key, count) = false ∧ streamed src (key, count) = false)
  ∨ (count ≠ 0 ∧ sharedDepth src ≤ d key
     ∧ copied src (key, count) = true ∧ streamed src (key, count) = false)
  ∨ (count ≠ 0 ∧ d key < sharedDepth src
     ∧ copied src (key, count) = false ∧ streamed src (key, count) = true).
Proof.
  unfold copied, streamed. cbn [fst snd].
  destruct (Z.eqb_spec count 0); [by left|].
  destruct (Z.leb_spec (sharedDepth src) (d key)); [right; left|right; right]; done.
Qed.

(** The loop of [mergeOne] from any state, when the cache leaves the
    hierarchy alone. *)
Lemma nodes_loop_spec (metadata src : Metadata) (nodes : list (Dxyz * Z)) (st : Run) :
  NoDup nodes.*1 → leaves_hierarchy →
  match nodes_loop metadata src nodes st with
  | Some st' =>
      (∀ node, node ∈ nodes → copied src node = true →
         hierarchy.get (st_hierarchy st) node.1 = 0)
      ∧ (∀ node voxel, node ∈ nodes → streamed src node = true →
           voxel ∈ points_of metadata src node.1 → in_node metadata node.1 voxel)
      ∧ st_reads st'
        = st_reads st ++ (stem src <$> (List.filter (streamed src) nodes).*1)
      ∧ st_calls st' = st_calls st ++ streamed_calls metadata src nodes
      ∧ (∀ key count, (key, count) ∈ nodes → copied src (key, count) = true →
           st_hierarchy st' !! key = Some count)
      ∧ (∀ key, (∀ count, (key, count) ∈ nodes → copied src (key, count) = false) →
           st_hierarchy st' !! key = st_hierarchy st !! key)
      ∧ total (st_hierarchy st')
        = total (st_hierarchy st)
          + foldr Z.add 0 (List.filter (copied src) nodes).*2
  | None =>
      (∃ node, node ∈ nodes ∧ copied src node = true
               ∧ hierarchy.get (st_hierarchy st) node.1 ≠ 0)
      ∨ (∃ node voxel, node ∈ nodes ∧ streamed src node = true
                       ∧ voxel ∈ points_of metadata src node.1
                       ∧ ¬ in_node metadata node.1 voxel)
  end.
Proof.
  intros Hnodup Hleaves. revert st Hnodup.
  induction nodes as [|[key count] nodes IH]; intros st Hnodup.
  { cbn. split_and!; [by intros ? ?%elem_of_nil|by intros ? ? ?%elem_of_nil|
      by rewrite app_nil_r|by rewrite app_nil_r|by intros ? ? ?%elem_of_nil|done|lia]. }
  cbn [fmap list_fmap fst] in Hnodup. apply NoDup_cons in Hnodup as [Hkey Hnodup].
  assert (∀ count', (key, count') ∉ nodes) as Hfresh.
  { intros count' Hin. apply Hkey. apply list_elem_of_fmap. by exists (key, count'). }
  assert (∀ node, node ∈ nodes → node.1 ≠ key) as Hother.
  { intros [key' count'] Hin Heq. cbn in Heq. subst key'. by apply Hfresh in Hin. }
  unfold streamed_calls. cbn [nodes_loop List.filter].
  destruct (copied_cases src key count)
    as [(-> & Hc & Hs)|[(Hcount & Hdeep & Hc & Hs)|(Hcount & Hshallow & Hc & Hs)]];
    rewrite Hc, Hs.
  - (* a node without points *)
    cbn [Z.eqb]. specialize (IH st Hnodup).
    destruct (nodes_loop metadata src nodes st) as [st'|].
    + destruct IH as (Hfree & Hin & Hreads & Hcalls & Hcopied & Hkept & Htotal).
      split_and!; [| |done|done| | |done].
      * intros node [->|Hn]%elem_of_cons Hcn; [congruence|by apply Hfree].
      * intros node voxel [->|Hn]%elem_of_cons Hsn; [congruence|by apply Hin].
      * intros key' count' [[= -> ->]|Hn]%elem_of_cons Hcn;
          [congruence|by apply Hcopied].
      * intros key' Hnone. apply Hkept. intros count' Hn. apply Hnone. by right.
    + destruct IH as [(node & Hn & Hcn & Hget)|(node & voxel & Hn & Hsn & Hv & Hbad)].
      * left. exists node. split_and!; [by right|done..].
      * right. exists node, voxel. split_and!; [by right|done..].
  - (* a node that is copied *)
    destruct (Z.eqb_spec count 0) as [?|_]; [done|].
    destruct (Z.leb_spec (sharedDepth src) (d key)) as [_|?]; [|lia].
    destruct (Z.eqb_spec (hierarchy.get (st_hierarchy st) key) 0) as [Hget|Hget].
    2:{ left. exists (key, count). split_and!; [by left|done..]. }
    match goal with |- context [nodes_loop _ _ _ ?st1] => specialize (IH st1 Hnodup) end.
    destruct (nodes_loop metadata src nodes _) as [st'|];
      cbn [st_hierarchy st_reads st_calls] in IH.
    + destruct IH as (Hfree & Hin & Hreads & Hcalls & Hcopied & Hkept & Htotal).
      split_and!; [| |done|done| | |].
      * intros node [->|Hn]%elem_of_cons Hcn; [done|].
        rewrite <- (get_set_ne (st_hierarchy st) key node.1 count);
          [by apply Hfree|]. intros Heq. by apply (Hother node Hn).
      * intros node voxel [->|Hn]%elem_of_cons Hsn; [congruence|by apply Hin].
      * intros key' count' [[= -> ->]|Hn]%elem_of_cons Hcn; [|by apply Hcopied].
        rewrite Hkept; [apply lookup_insert_eq|].
        intros count'' Hn. by apply Hfresh in Hn.
      * intros key' Hnone. rewrite Hkept.
        -- unfold set. apply lookup_insert_ne. intros <-.
           assert ((key, count) ∈ (key, count) :: nodes) as Hhead by (by left).
           specialize (Hnone count Hhead). congruence.
        -- intros count' Hn. apply Hnone. by right.
      * rewrite Htotal, total_set by done. cbn [fmap list_fmap snd foldr]. lia.
    + destruct IH as [(node & Hn & Hcn & Hne)|(node & voxel & Hn & Hsn & Hv & Hbad)].
      * left. exists node. split_and!; [by right|done|].
        rewrite <- (get_set_ne (st_hierarchy st) key node.1 count); [done|].
        intros Heq. by apply (Hother node Hn).
      * right. exists node, voxel. split_and!; [by right|done..].
  - (* a node that is read back *)
    destruct (Z.eqb_spec count 0) as [?|_]; [done|].
    destruct (Z.leb_spec (sharedDepth src) (d key)) as [?|_]; [lia|].
    match goal with
    | |- context [read metadata key ?batches ?st0] =>
        pose proof (merge_read_spec metadata key batches st0 Hleaves) as Hread;
        destruct (read metadata key batches st0) as [st1|]
    end.
    2:{ apply Exists_exists in Hread as (voxel & Hv & Hbad).
        right. exists (key, count), voxel. split_and!; [by left|done..]. }
    destruct Hread as (Hh1 & Hr1 & Hc1 & Hall1).
    cbn [st_hierarchy st_reads st_calls] in Hh1, Hr1, Hc1.
    specialize (IH st1 Hnodup).
    destruct (nodes_loop metadata src nodes st1) as [st'|].
    + destruct IH as (Hfree & Hin & Hreads & Hcalls & Hcopied & Hkept & Htotal).
      split_and!.
      * intros node [->|Hn]%elem_of_cons Hcn; [congruence|].
        rewrite <- Hh1. by apply Hfree.
      * intros node voxel [->|Hn]%elem_of_cons Hsn Hv; [|by apply Hin].
        by apply (proj1 (Forall_forall _ _) Hall1).
      * rewrite Hreads, Hr1, <- app_assoc. done.
      * rewrite Hcalls, Hc1, <- app_assoc. done.
      * intros key' count' [[= -> ->]|Hn]%elem_of_cons Hcn;
          [congruence|by apply Hcopied].
      * intros key' Hnone. rewrite <- Hh1. apply Hkept.
        intros count' Hn. apply Hnone. by right.
      * by rewrite Htotal, Hh1.
    + destruct IH as [(node & Hn & Hcn & Hget)|(node & voxel & Hn & Hsn & Hv & Hbad)].
      * left. exists node. split_and!; [by right|done|by rewrite <- Hh1].
      * right. exists node, voxel. split_and!; [by right|done..].
Qed.

(** X19: [mergeOne] on the hierarchy of the merged build, as long as the
    calls of [cache.insert] do not write the hierarchy.  For the nodes of a
    subset (every key once, as in a map), an assertion fails exactly when a
    node it copies, one with points at the shared depth or deeper, already
    has a count in the destination, or when a point of a chunk it reads back,
    one with points above the shared depth, is not given the chunk key of
    that chunk.  Otherwise, when the loop has ended, every node it copies is
    recorded with the count of the subset and every other entry of the
    hierarchy is as before, so that the total has grown by the counts
    copied; the clipper is released on this hierarchy.  The chunk files of
    the nodes above the shared depth have been read, in the order of the
    loop and under the name of the node with the postfix of the subset, and
    every point of each has gone to [cache.insert] in the order read, with
    the keys of the depth of its node; nodes without points are skipped. *)
Theorem X19_mergeOne_copies_from_shared_depth (metadata src : Metadata)
    (nodes : list (Dxyz * Z)) (dst : Hierarchy) (cache : Cache) :
  NoDup nodes.*1 → leaves_hierarchy →
  (mergeOne metadata src nodes dst cache = None
   ↔ (∃ node, node ∈ nodes ∧ copied src node = true
              ∧ hierarchy.get dst node.1 ≠ 0)
     ∨ (∃ node voxel, node ∈ nodes ∧ streamed src node = true
                      ∧ voxel ∈ points_of metadata src node.1
                      ∧ ¬ in_node metadata node.1 voxel))
  ∧ ∀ st, mergeOne metadata src nodes dst cache = Some st →
      ∃ ended,
        nodes_loop metadata src nodes (mkRun dst cache [] []) = Some ended
        ∧ (st_hierarchy st, st_cache st)
          = clipper_release (st_hierarchy ended, st_cache ended)
        ∧ st_reads st = st_reads ended
        ∧ st_calls st = st_calls ended
        ∧ st_reads st = stem src <$> (List.filter (streamed src) nodes).*1
        ∧ st_calls st = streamed_calls metadata src nodes
        ∧ (∀ key count, (key, count) ∈ nodes →
             copied src (key, count) = true →
             st_hierarchy ended !! key = Some count)
        ∧ (∀ key, (∀ count, (key, count) ∈ nodes →
                     copied src (key, count) = false) →
             st_hierarchy ended !! key = dst !! key)
        ∧ total (st_hierarchy ended)
          = total dst + foldr Z.add 0 (List.filter (copied src) nodes).*2.
Proof.
  intros Hnodup Hleaves. unfold mergeOne.
  pose proof (nodes_loop_spec metadata src nodes (mkRun dst cache [] [])
                Hnodup Hleaves) as Hspec.
  destruct (nodes_loop metadata src nodes _) as [st0|];
    cbn [st_hierarchy st_reads st_calls] in Hspec.
  - destruct Hspec as (Hfree & Hin & Hreads & Hcalls & Hcopied & Hkept & Htotal).
    split.
    + split; [done|].
      intros [(node & Hn & Hcn & Hget)|(node & voxel & Hn & Hsn & Hv & Hbad)];
        exfalso.
      * by apply Hget, Hfree.
      * by apply Hbad, (Hin node).
    + intros st [= <-]. exists st0. cbn [st_hierarchy st_cache st_reads st_calls].
      split_and!; try done. by destruct (clipper_release _).
  - split; [done|]. intros ? [=].
Qed.

End merge_facts.

(* ===================================================================== *)
(** * ReffedChunk: the reference count *)
(* ===================================================================== *)

Section reffed_facts.
Context `{K : KeyOps}.
Import reffed.

Lemma acquire_spec (k : nat) (r : ReffedChunk) :
  0 ≤ m_refs r → m_refs r + Z.of_nat k < 2 ^ 64 →
  acquire k r = mkReffedChunk (m_refs r + Z.of_nat k) (m_chunk r).
Proof.
  revert r. induction k as [|k IH]; intros r H0 Hlt.
  - destruct r as [refs c]. cbn. f_equal. lia.
  - cbn [acquire]. rewrite IH; unfold add; cbn [m_refs m_chunk].
    + f_equal. unfold wrap64. rewrite Z.mod_small by lia. lia.
    + unfold wrap64. rewrite Z.mod_small by lia. lia.
    + unfold wrap64. rewrite Z.mod_small by lia. lia.
Qed.

Lemma release_spec (n : nat) (r : ReffedChunk) :
  0 ≤ m_refs r < 2 ^ 64 →
  release n r =
    if bool_decide (Z.of_nat n ≤ m_refs r)
    then returned (mkReffedChunk (m_refs r - Z.of_nat n) (m_chunk r))
    else thrown "Negative".
Proof.
  revert r. induction n as [|n IH]; intros r Hr.
  - cbn [release]. rewrite bool_decide_eq_true_2 by lia.
    destruct r as [refs c]. cbn. do 2 f_equal. lia.
  - cbn [release]. unfold del. destruct (Z.eqb_spec (m_refs r) 0) as [H0|H0].
    + rewrite bool_decide_eq_false_2 by lia. reflexivity.
    + assert (Hw : wrap64 (m_refs r - 1) = m_refs r - 1)
        by (unfold wrap64; apply Z.mod_small; lia).
      rewrite Hw, IH by (cbn; lia). cbn [m_refs m_chunk].
      destruct (decide (Z.of_nat (S n) ≤ m_refs r)).
      * rewrite !bool_decide_eq_true_2 by lia. do 2 f_equal. lia.
      * rewrite !bool_decide_eq_false_2 by lia. reflexivity.
Qed.

(** X7: [ReffedChunk::add] and [ReffedChunk::del] balance.  On a count that
    [k] more calls of [add] keep within 64 bits, [n] calls of [del] after
    them all return as long as [n] is at most the count reached, and leave
    the count lowered by [n] and the chunk untouched; the first [del] beyond
    that throws "Negative", so the count never wraps below zero. *)
Theorem X7_release_balances_acquire (r : ReffedChunk) (k n : nat) :
  0 ≤ m_refs r → m_refs r + Z.of_nat k < 2 ^ 64 →
  release n (acquire k r) =
    if bool_decide (Z.of_nat n ≤ m_refs r + Z.of_nat k)
    then returned (mkReffedChunk (m_refs r + Z.of_nat k - Z.of_nat n) (m_chunk r))
    else thrown "Negative".
Proof.
  intros H0 Hlt. rewrite acquire_spec by done.
  rewrite release_spec by (cbn; lia). reflexivity.
Qed.

End reffed_facts.

(* ===================================================================== *)
(** * Builder::runInserts, run after run *)
(* ===================================================================== *)

Section marked_facts.
Import driver.

Lemma marked_from_cons k flag flags :
  marked_from k (flag :: flags)
  = (if flag then [Z.of_nat k] else []) ++ marked_from (S k) flags.
Proof.
  unfold marked_from. cbn [imap omap fst snd].
  rewrite Nat.add_0_r.
  erewrite (imap_ext _ (λ j flag0, ((S k + j)%nat, flag0))).
  - cbn [list_omap fst snd]. by destruct flag.
  - intros j x _. cbn. f_equal. lia.
Qed.

Lemma marked_from_lower k flags o : o ∈ marked_from k flags → Z.of_nat k ≤ o.
Proof.
  revert k. induction flags as [|flag flags IH]; intros k.
  { by intros ?%elem_of_nil. }
  rewrite marked_from_cons, elem_of_app. intros [Hhead|Htail].
  - destruct flag; [|by apply elem_of_nil in Hhead].
    apply list_elem_of_singleton in Hhead. lia.
  - apply IH in Htail. lia.
Qed.

Lemma marked_from_NoDup k flags : NoDup (marked_from k flags).
Proof.
  revert k. induction flags as [|flag flags IH]; intros k.
  { constructor. }
  rewrite marked_from_cons. destruct flag; cbn [app]; [|apply IH].
  constructor; [|apply IH]. intros Hin%marked_from_lower. lia.
Qed.

Lemma filter_all {A : Type} (P : A → Prop) `{!∀ x, Decision (P x)} (l : list A) :
  (∀ x, x ∈ l → P x) → filter P l = l.
Proof.
  induction l as [|x l IH]; intros Hall; [done|].
  rewrite filter_cons_True by (apply Hall; by left).
  f_equal. apply IH. intros y Hy. apply Hall. by right.
Qed.

Lemma marked_from_clear k n flags :
  marked_from k (<[n := false]> flags)
  = filter (λ o, o ≠ Z.of_nat (k + n)) (marked_from k flags).
Proof.
  revert k n. induction flags as [|flag flags IH]; intros k n; [done|].
  destruct n as [|n]; cbn [insert list_insert]; rewrite !marked_from_cons;
    rewrite filter_app.
  - rewrite Nat.add_0_r.
    replace (filter (λ o, o ≠ Z.of_nat k) (if flag then [Z.of_nat k] else []))
      with (@nil Z).
    2:{ destruct flag; [|done]. by rewrite filter_cons_False by (intros ?; done). }
    cbn [app]. symmetry. apply filter_all.
    intros o Ho%marked_from_lower. lia.
  - rewrite IH. f_equal.
    + destruct flag; [|done]. rewrite filter_cons_True by lia. done.
    + apply list_filter_iff. intros o. lia.
Qed.

Lemma marked_from_cleared k flags origins :
  Forall (λ o, Z.of_nat k ≤ o) origins →
  marked_from k (cleared flags ((λ o, o - Z.of_nat k) <$> origins))
  = filter (λ o, o ∉ origins) (marked_from k flags).
Proof.
  intros Hall. revert flags.
  induction Hall as [|origin origins Hle _ IH]; intros flags.
  - cbn. symmetry. apply filter_all. intros o _. apply not_elem_of_nil.
  - cbn [fmap list_fmap cleared foldl].
    change (foldl ?f ?a ?l) with (cleared a l).
    rewrite IH, marked_from_clear, list_filter_filter.
    apply list_filter_iff. intros o. rewrite not_elem_of_cons.
    replace (Z.of_nat (k + Z.to_nat (origin - Z.of_nat k))) with origin by lia.
    tauto.
Qed.

Lemma marked_cleared flags origins :
  Forall (λ o, 0 ≤ o) origins →
  marked_from 0 (cleared flags origins)
  = filter (λ o, o ∉ origins) (marked_from 0 flags).
Proof.
  intros Hall. rewrite <- marked_from_cleared by done. do 2 f_equal.
  clear. induction origins as [|o origins IH]; [done|].
  cbn. f_equal; [lia|done].
Qed.

Lemma length_cleared flags origins : length (cleared flags origins) = length flags.
Proof.
  revert flags. induction origins as [|o origins IH]; intros flags; [done|].
  cbn [cleared foldl]. change (foldl ?f ?a origins) with (cleared a origins).
  by rewrite IH, length_insert.
Qed.

Lemma filter_ext_in {A : Type} (P Q : A → Prop)
    `{!∀ x, Decision (P x), !∀ x, Decision (Q x)} (l : list A) :
  (∀ x, x ∈ l → P x ↔ Q x) → filter P l = filter Q l.
Proof.
  induction l as [|x l IH]; intros Hall; [done|].
  rewrite !filter_cons. rewrite IH by (intros y Hy; apply Hall; by right).
  apply decide_ext, Hall. by left.
Qed.

Lemma filter_not_in_take (l : list Z) (n : nat) :
  NoDup l → filter (λ o, o ∉ take n l) l = drop n l.
Proof.
  revert n. induction l as [|x l IH]; intros n Hnodup.
  { by destruct n. }
  apply NoDup_cons in Hnodup as [Hx Hnodup]. destruct n as [|n].
  - cbn [take drop]. apply filter_all. intros o _. apply not_elem_of_nil.
  - cbn [take drop]. rewrite filter_cons_False.
    2:{ intros Hnot. apply Hnot. by left. }
    rewrite <- (IH n Hnodup). apply filter_ext_in.
    intros o Ho. rewrite not_elem_of_cons. split; [tauto|].
    intros Hnot. split; [|done]. by intros ->.
Qed.

Lemma filter_not_in_self (l : list Z) : filter (λ o, o ∉ l) l = [].
Proof.
  assert (∀ l' : list Z, (∀ o, o ∈ l' → o ∈ l) → filter (λ o, o ∉ l) l' = []) as H.
  { induction l' as [|x l' IH]; intros Hsub; [done|].
    rewrite filter_cons_False by (intros Hnot; apply Hnot, Hsub; by left).
    apply IH. intros o Ho. apply Hsub. by right. }
  by apply H.
Qed.

End marked_facts.

Section driver_facts.
Context `{G : Geometry}.
Import builder driver props.

Variable insert : Builder → Z → Builder * option Thrown.
Variable out_of_range : string.

Lemma wanted_from_flags active k items :
  wanted_from active k items = marked_from k (wanted active <$> items).
Proof.
  revert k. induction items as [|item items IH]; intros k; [done|].
  rewrite fmap_cons, wanted_from_cons, marked_from_cons. by rewrite IH.
Qed.

Lemma wanted_set_inserted active item : wanted active (set_inserted item) = false.
Proof. done. Qed.

Lemma wanted_push_error active what item :
  wanted active (push_error what item) = wanted active item.
Proof. done. Qed.

Lemma flags_with_item active b originId f :
  (∀ item, wanted active (f item) = wanted active item) →
  wanted active <$> manifest (with_item b originId f) = wanted active <$> manifest b.
Proof.
  intros Hf. unfold with_item. cbn [manifest]. apply list_eq. intros j.
  rewrite !list_lookup_fmap. destruct (decide (j = Z.to_nat originId)) as [->|Hne].
  - rewrite list_lookup_alter_eq. destruct (manifest b !! _); cbn; [|done].
    by rewrite Hf.
  - by rewrite list_lookup_alter_ne.
Qed.

Lemma flags_set_inserted active b originId :
  wanted active <$> manifest (with_item b originId set_inserted)
  = <[Z.to_nat originId := false]> (wanted active <$> manifest b).
Proof.
  unfold with_item. cbn [manifest]. apply list_eq. intros j.
  rewrite !list_lookup_fmap. destruct (decide (j = Z.to_nat originId)) as [->|Hne].
  - rewrite list_lookup_alter_eq.
    destruct (manifest b !! Z.to_nat originId) as [item|] eqn:Hitem; cbn.
    + rewrite list_lookup_insert_eq; [done|].
      rewrite length_fmap. by eapply lookup_lt_Some.
    + rewrite list_insert_ge; [by rewrite list_lookup_fmap, Hitem|].
      rewrite length_fmap. by apply lookup_ge_None.
  - rewrite list_lookup_alter_ne, list_lookup_insert_ne by done.
    by rewrite list_lookup_fmap.
Qed.

Lemma tryInsert_flags active b originId :
  keeps_wanted insert →
  metadata (tryInsert insert out_of_range b originId).1 = metadata b
  ∧ wanted active <$> manifest (tryInsert insert out_of_range b originId).1
    = <[Z.to_nat originId := false]> (wanted active <$> manifest b).
Proof.
  intros Hkeeps. unfold tryInsert.
  destruct (manifest b !! Z.to_nat originId) as [item|] eqn:Hitem.
  - destruct (Hkeeps b originId) as [Hmeta Hflags]. specialize (Hflags active).
    destruct (insert b originId) as [b1 [[what|]|]]; cbn [fst] in *;
      rewrite flags_set_inserted; (split; [done|]); f_equal;
      rewrite ?flags_with_item by apply wanted_push_error; done.
  - cbn [fst]. split; [done|]. rewrite list_insert_ge; [done|].
    rewrite length_fmap. by apply lookup_ge_None.
Qed.

Lemma run_tasks_flags active b origins :
  keeps_wanted insert →
  metadata (run_tasks insert out_of_range b origins) = metadata b
  ∧ wanted active <$> manifest (run_tasks insert out_of_range b origins)
    = cleared (wanted active <$> manifest b) origins.
Proof.
  intros Hkeeps. revert b. induction origins as [|origin origins IH]; intros b; [done|].
  cbn [run_tasks cleared foldl].
  change (foldl ?f ?a origins) with (run_tasks insert out_of_range a origins) at 1.
  change (foldl ?f ?a origins) with (run_tasks insert out_of_range a origins) at 1.
  change (foldl ?f ?a origins) with (cleared a origins).
  destruct (tryInsert_flags active b origin Hkeeps) as [Hmeta Hflags].
  destruct (IH (tryInsert insert out_of_range b origin).1) as [Hmeta' Hflags'].
  split; [congruence|]. by rewrite Hflags', Hflags.
Qed.

(** X18: a run picks up where the last one stopped.  When the tasks of
    [runInserts] with a [limit] have ended, the files it still wants are
    those it wanted before without the first [limit] of them (none, for the
    limit 0), so the next run submits the next files in manifest order and
    never a file a second time. *)
Theorem X18_runs_work_through_the_manifest (b : Builder) (limit limit' : Z) :
  keeps_wanted insert →
  0 ≤ limit < 2 ^ 64 → 0 ≤ limit' < 2 ^ 64 →
  Z.of_nat (length (manifest b)) < 2 ^ 64 →
  let b' := joined insert out_of_range b limit in
  let todo := wanted_origins (active (metadata b)) (manifest b) in
  let left := if limit =? 0 then [] else drop (Z.to_nat limit) todo in
  wanted_origins (active (metadata b')) (manifest b') = left
  ∧ runInserts b' limit'
    = (if limit' =? 0 then left else take (Z.to_nat limit') left).
Proof.
  intros Hkeeps Hlimit Hlimit' Hlen b' todo left.
  set (act := active (metadata b)).
  assert (runInserts b limit
          = if limit =? 0 then todo else take (Z.to_nat limit) todo) as Hrun.
  { unfold runInserts. change 0 with (Z.of_nat 0) at 1.
    rewrite submit_spec by (cbn; lia). rewrite wanted_from_0, Z.sub_0_r. done. }
  destruct (run_tasks_flags act b (runInserts b limit) Hkeeps) as [Hmeta Hflags].
  fold (joined insert out_of_range b limit) in Hmeta, Hflags. fold b' in Hmeta, Hflags.
  assert (wanted_origins (active (metadata b')) (manifest b') = left) as Hleft.
  { rewrite Hmeta. fold act. rewrite <- !wanted_from_0, wanted_from_flags, Hflags.
    rewrite marked_cleared.
    2:{ apply Forall_forall. intros o Ho. rewrite Hrun in Ho.
        assert (o ∈ todo) as Hin.
        { destruct (limit =? 0); [done|]. by eapply subseteq_take. }
        unfold todo in Hin. rewrite <- wanted_from_0 in Hin.
        apply wanted_from_lower in Hin. lia. }
    rewrite <- wanted_from_flags, wanted_from_0. fold todo.
    rewrite Hrun. subst left. destruct (limit =? 0).
    - apply filter_not_in_self.
    - apply filter_not_in_take. unfold todo.
      rewrite <- wanted_from_0, wanted_from_flags. apply marked_from_NoDup. }
  split; [done|].
  unfold runInserts. change 0 with (Z.of_nat 0) at 1.
  rewrite submit_spec; [|lia|cbn; lia|].
  - by rewrite wanted_from_0, Z.sub_0_r, Hleft.
  - cbn. assert (length (manifest b') = length (manifest b)) as ->; [|done].
    rewrite <- (length_fmap (wanted act) (manifest b')), Hflags.
    by rewrite length_cleared, length_fmap.
Qed.

End driver_facts.

(* ===================================================================== *)
(** * util/pipeline.cpp: stages of a JSON pipeline *)
(* ===================================================================== *)

Section pipeline_json_facts.
Import pipeline.

Lemma find_from_ok (i : nat) (rest : list Json) (type : string) (it : nat) :
  find_from i rest type = ok it ↔
    (i ≤ it ≤ i + length rest)%nat
    ∧ (∀ j stage, (i + j < it)%nat → rest !! j = Some stage →
         ∃ t, value_type stage = ok t ∧ t ≠ type)
    ∧ (∀ stage, rest !! (it - i)%nat = Some stage → value_type stage = ok type).
Proof.
  revert i. induction rest as [|stage rest IH]; intros i; cbn [find_from length].
  - split.
    + intros [= <-]. split_and!; [lia|lia|intros; lia|by intros ?].
    + intros ([? ?] & _ & _). f_equal. lia.
  - destruct (value_type stage) as [t|e] eqn:Ht.
    + destruct (String.eqb_spec t type) as [->|Hne].
      * split.
        -- intros [= <-]. split_and!; [lia|lia|intros; lia|].
           rewrite Nat.sub_diag. by intros ? [= <-].
        -- intros ([? ?] & Hbefore & _). f_equal.
           destruct (decide (it = i)) as [|Hlt]; [done|].
           destruct (Hbefore 0%nat stage) as (u & Hu & Hneq); [lia|done|].
           congruence.
      * rewrite IH. split.
        -- intros ([? ?] & Hbefore & Hat). split_and!; [lia|lia| |].
           ++ intros [|j] s Hj; cbn.
              ** intros [= <-]. eauto.
              ** apply Hbefore. lia.
           ++ intros s. replace (it - i)%nat with (S (it - S i)) by lia. apply Hat.
        -- intros ([? ?] & Hbefore & Hat).
           assert (it ≠ i).
           { intros ->. rewrite Nat.sub_diag in Hat.
             specialize (Hat stage eq_refl). congruence. }
           split_and!; [lia|lia| |].
           ++ intros j s Hj Hs. apply (Hbefore (S j)); [lia|done].
           ++ intros s Hs. apply Hat.
              by replace (it - i)%nat with (S (it - S i)) by lia.
    + split; [done|]. intros ([? ?] & Hbefore & Hat).
      destruct (decide (it = i)) as [->|].
      * rewrite Nat.sub_diag in Hat. specialize (Hat stage eq_refl). congruence.
      * destruct (Hbefore 0%nat stage) as (u & Hu & _); [lia|done|congruence].
Qed.

Lemma findStage_ok (pipeline : list Json) (type : string) (it : nat) :
  findStage pipeline type = ok it ↔
    (it ≤ length pipeline)%nat
    ∧ (∀ j stage, (j < it)%nat → pipeline !! j = Some stage →
         ∃ t, value_type stage = ok t ∧ t ≠ type)
    ∧ (∀ stage, pipeline !! it = Some stage → value_type stage = ok type).
Proof.
  unfold findStage. rewrite find_from_ok. rewrite Nat.sub_0_r. cbn.
  split; intros (? & ? & ?); split_and!; auto; lia.
Qed.

Lemma find_from_raised (i : nat) (rest : list Json) (type : string) (e : JsonError) :
  find_from i rest type = raised e ↔
    ∃ j stage, rest !! j = Some stage ∧ value_type stage = raised e
      ∧ ∀ k s, (k < j)%nat → rest !! k = Some s →
          ∃ t, value_type s = ok t ∧ t ≠ type.
Proof.
  revert i. induction rest as [|stage rest IH]; intros i; cbn [find_from].
  - split; [done|]. by intros (j & s & Hs & _).
  - destruct (value_type stage) as [t|e'] eqn:Ht.
    + destruct (String.eqb_spec t type) as [->|Hne].
      * split; [done|]. intros ([|j] & s & Hs & Hr & Hbefore).
        -- cbn in Hs. congruence.
        -- destruct (Hbefore 0%nat stage) as (u & Hu & Hneq); [lia|done|congruence].
      * rewrite IH. split.
        -- intros (j & s & Hs & Hr & Hbefore). exists (S j), s. split_and!; [done..|].
           intros [|k] s' Hk; cbn; [intros [= <-]; eauto|].
           apply Hbefore. lia.
        -- intros ([|j] & s & Hs & Hr & Hbefore).
           ++ cbn in Hs. congruence.
           ++ exists j, s. split_and!; [done..|].
              intros k s' Hk Hs'. apply (Hbefore (S k)); [lia|done].
    + split.
      * intros [= <-]. exists 0%nat, stage. split_and!; [done..|]. intros; lia.
      * intros ([|j] & s & Hs & Hr & Hbefore).
        -- cbn in Hs. congruence.
        -- destruct (Hbefore 0%nat stage) as (u & Hu & _); [lia|done|congruence].
Qed.

(** X8: [findStage] on a JSON pipeline returns the position of the first
    stage whose "type" is the one asked for, and the end when there is none.
    It returns exactly when every stage before that position is an object
    whose "type" is missing or another string.  It throws exactly when a
    stage that is no object, or whose "type" is no string, comes before any
    match; such a stage after the first match is not looked at. *)
Theorem X8_findStage_first_match (pipeline : list Json) (type : string) :
  (∀ it, findStage pipeline type = ok it ↔
     (it ≤ length pipeline)%nat
     ∧ (∀ j stage, (j < it)%nat → pipeline !! j = Some stage →
          ∃ t, value_type stage = ok t ∧ t ≠ type)
     ∧ (∀ stage, pipeline !! it = Some stage → value_type stage = ok type))
  ∧ (∀ e, findStage pipeline type = raised e ↔
       ∃ j stage, pipeline !! j = Some stage ∧ value_type stage = raised e
         ∧ ∀ k s, (k < j)%nat → pipeline !! k = Some s →
             ∃ t, value_type s = ok t ∧ t ≠ type).
Proof.
  split; [apply findStage_ok|]. intros e. apply find_from_raised.
Qed.

Lemma value_type_fresh (type : string) :
  value_type (JObject {[ "type" := JString type ]}) = ok type.
Proof. cbn. by rewrite lookup_singleton_eq. Qed.

Lemma findStage_app_fresh (pipeline : list Json) (type : string) :
  findStage pipeline type = ok (length pipeline) →
  findStage (pipeline ++ [JObject {[ "type" := JString type ]}]) type
  = ok (length pipeline).
Proof.
  rewrite !findStage_ok. intros (Hle & Hbefore & Hat). split_and!.
  - rewrite length_app. lia.
  - intros j s Hj Hs. apply (Hbefore j); [done|].
    by rewrite lookup_app_l in Hs by lia.
  - intros s. rewrite lookup_app_r, Nat.sub_diag by lia.
    intros [= <-]. apply value_type_fresh.
Qed.

Lemma findOrAppendStage_cases (pipeline pipeline' : list Json)
    (type : string) (it : nat) :
  findOrAppendStage pipeline type = ok (pipeline', it) →
  findStage pipeline type = ok it ∧ (it < length pipeline)%nat
    ∧ pipeline' = pipeline
  ∨ findStage pipeline type = ok (length pipeline) ∧ it = length pipeline
    ∧ pipeline' = pipeline ++ [JObject {[ "type" := JString type ]}].
Proof.
  unfold findOrAppendStage.
  destruct (findStage pipeline type) as [i|e] eqn:Hfind; [|done].
  case_bool_decide as Hne; intros [= <- <-].
  - left. apply findStage_ok in Hfind as Hle. split_and!; [done|lia|done].
  - right. assert (i = length pipeline) as -> by (destruct (decide (i = length pipeline)); done).
    done.
Qed.

Lemma find_from_typed (i : nat) (rest : list Json) (type : string) :
  Forall typed rest → ∃ it, find_from i rest type = ok it.
Proof.
  intros Hall. revert i. induction Hall as [|stage rest [t Ht] _ IH]; intros i; cbn.
  - eauto.
  - rewrite Ht. destruct (String.eqb t type); eauto.
Qed.

Lemma typed_object (stage : Json) :
  typed stage → ∃ fields, stage = JObject fields.
Proof. intros [t Ht]. destruct stage; try done. eauto. Qed.

Lemma find_from_ext (i : nat) (a b : list Json) (type : string) :
  value_type <$> a = value_type <$> b → find_from i a type = find_from i b type.
Proof.
  revert i b. induction a as [|x a IH]; intros i [|y b]; try done.
  cbn. intros [= Hxy Hab]. rewrite Hxy. destruct (value_type y) as [t|e]; [|done].
  destruct (String.eqb t type); [done|]. by apply IH.
Qed.

(** X9: the stage [findOrAppendStage] returns has the type asked for.  The
    pipeline is left as it was when it has such a stage, and gets one new
    stage, at its end and with nothing but the type, when it has none; the
    stage returned is the one [findStage] finds afterwards, so a second call
    returns the same stage and appends nothing. *)
Theorem X9_findOrAppendStage_finds_or_appends (pipeline pipeline' : list Json)
    (type : string) (it : nat) :
  findOrAppendStage pipeline type = ok (pipeline', it) →
  (∃ stage, pipeline' !! it = Some stage ∧ value_type stage = ok type)
  ∧ (findStage pipeline type = ok it ∧ (it < length pipeline)%nat
       ∧ pipeline' = pipeline
     ∨ findStage pipeline type = ok (length pipeline) ∧ it = length pipeline
       ∧ pipeline' = pipeline ++ [JObject {[ "type" := JString type ]}])
  ∧ findStage pipeline' type = ok it
  ∧ findOrAppendStage pipeline' type = ok (pipeline', it).
Proof.
  unfold findOrAppendStage.
  destruct (findStage pipeline type) as [i|e] eqn:Hfind; [|done].
  destruct (decide (i = length pipeline)) as [->|Hne].
  - rewrite bool_decide_eq_false_2 by (intros ?; done).
    intros [= <- <-].
    pose proof (findStage_app_fresh _ _ Hfind) as Hfresh.
    split_and!; [|by right|done|].
    + exists (JObject {[ "type" := JString type ]}).
      rewrite lookup_app_r, Nat.sub_diag by lia. split; [done|apply value_type_fresh].
    + rewrite Hfresh. rewrite bool_decide_eq_true_2; [done|].
      rewrite length_app. cbn. lia.
  - rewrite bool_decide_eq_true_2 by done. intros [= <- <-].
    pose proof Hfind as (Hle & _ & Hat)%findStage_ok.
    destruct (lookup_lt_is_Some_2 pipeline i) as [stage Hstage]; [lia|].
    split_and!; [eauto|left; split_and!; [done|lia|done]|done|].
    rewrite Hfind. by rewrite bool_decide_eq_true_2.
Qed.

Lemma is_type_ok (type : string) (stage : Json) :
  is_type type stage = true ↔ value_type stage = ok type.
Proof.
  unfold is_type. destruct (value_type stage) as [t|e]; [|done].
  destruct (String.eqb_spec t type); split; congruence.
Qed.

Lemma delete_end {A : Type} (l : list A) : delete (length l) l = l.
Proof. induction l as [|x l IH]; [done|]. cbn [length]. simpl. by f_equal. Qed.

Lemma find_from_delete (i : nat) (rest : list Json) (type : string) (it : nat) :
  find_from i rest type = ok it →
  delete (it - i)%nat rest = remove_first (is_type type) rest.
Proof.
  revert i. induction rest as [|stage rest IH]; intros i; cbn [find_from remove_first].
  - done.
  - unfold is_type at 1. destruct (value_type stage) as [t|e]; [|done].
    destruct (String.eqb_spec t type) as [->|Hne].
    + intros [= <-]. by rewrite Nat.sub_diag.
    + intros Hfind. pose proof Hfind as ([? ?] & _)%find_from_ok.
      replace (it - i)%nat with (S (it - S i)) by lia. cbn.
      f_equal. by apply IH.
Qed.

(** X10: [omitStage] returns the pipeline without the first stage of the
    type asked for, and with every other stage, a later stage of that type
    among them, in place; it throws exactly where [findStage] does. *)
Theorem X10_omitStage_removes_first_match (pipeline : list Json) (type : string) :
  omitStage pipeline type =
    match findStage pipeline type with
    | ok _ => ok (remove_first (is_type type) pipeline)
    | raised e => raised e
    end.
Proof.
  unfold omitStage. destruct (findStage pipeline type) as [it|e] eqn:Hfind; [|done].
  pose proof (find_from_delete 0 pipeline type it Hfind) as Hdel.
  rewrite Nat.sub_0_r in Hdel. case_bool_decide as Hend; [|by rewrite Hdel].
  rewrite <- Hdel, Hend. by rewrite delete_end.
Qed.

(** X11: [omitStage] undoes [findOrAppendStage].  On a pipeline without a
    stage of the type, appending one and omitting it again gives back the
    pipeline, and so does omitting alone. *)
Theorem X11_omitStage_undoes_append (pipeline : list Json) (type : string) :
  findStage pipeline type = ok (length pipeline) →
  omitStage pipeline type = ok pipeline
  ∧ ∃ pipeline' it, findOrAppendStage pipeline type = ok (pipeline', it)
      ∧ length pipeline' = S (length pipeline)
      ∧ omitStage pipeline' type = ok pipeline.
Proof.
  intros Hfind. split.
  - unfold omitStage. rewrite Hfind. by rewrite bool_decide_eq_true_2.
  - eexists _, _. unfold findOrAppendStage. rewrite Hfind.
    rewrite bool_decide_eq_false_2 by (intros ?; done). split_and!; [done| |].
    + rewrite length_app. cbn. lia.
    + unfold omitStage. rewrite (findStage_app_fresh _ _ Hfind).
      rewrite bool_decide_eq_false_2 by (rewrite length_app; cbn; lia).
      f_equal. clear. induction pipeline as [|x l IH]; [done|]. simpl. by f_equal.
Qed.

End pipeline_json_facts.

(* ===================================================================== *)
(** * util/pipeline.cpp: stages of a PDAL pipeline *)
(* ===================================================================== *)

Section pipeline_pdal_facts.
Import pipeline.

(** Induction along the first inputs of a stage. *)
Lemma Stage_chain_ind (P : Stage → Prop) :
  (∀ n r, P (mkStage n r [])) →
  (∀ n r input, P input → P (mkStage n r [input])) →
  (∀ n r a b more, P (mkStage n r (a :: b :: more))) →
  ∀ s, P s.
Proof.
  intros Hnone Hone Hmore. fix IH 1. intros [n r [|a [|b more]]].
  - apply Hnone.
  - apply Hone, IH.
  - apply Hmore.
Qed.

Lemma chain_head (s : Stage) : ∃ rest, chain s = s :: rest.
Proof. destruct s as [n r [|a [|b more]]]; cbn; eauto. Qed.

Lemma linear_one (n : string) (r : bool) (input : Stage) :
  linear (mkStage n r [input]) ↔ linear input.
Proof.
  unfold linear. cbn [chain]. split.
  - intros H x Hx. apply H. by right.
  - intros H x [->|Hx]%elem_of_cons; [cbn; lia|by apply H].
Qed.

Lemma linear_none (n : string) (r : bool) : linear (mkStage n r []).
Proof. intros x [->|Hx]%elem_of_cons; [cbn; lia|]. by apply elem_of_nil in Hx. Qed.

Lemma linear_fork (n : string) (r : bool) (a b : Stage) (more : list Stage) :
  ¬ linear (mkStage n r (a :: b :: more)).
Proof.
  intros H. specialize (H (mkStage n r (a :: b :: more))).
  cbn in H. assert (S (S (length more)) ≤ 1)%nat; [|lia].
  apply H. by left.
Qed.

(** X12: [findStage] on PDAL stages walks from the last stage along the
    inputs and returns the first stage it meets with the name asked for,
    also when that stage or a later one has several inputs.  It returns
    [nullptr] when the walk ends at a stage without inputs and no stage on
    the way has the name, and throws "must be linear" exactly when it meets
    a stage with several inputs before any stage of the name. *)
Theorem X12_findStage_walks_the_inputs (last : Stage) (type : string) :
  match findStage_pdal last type with
  | returned (Some found) =>
      name found = type
      ∧ ∃ before after, chain last = before ++ found :: after
          ∧ Forall (λ x, name x ≠ type ∧ length (getInputs x) = 1%nat) before
  | returned None =>
      linear last ∧ Forall (λ x, name x ≠ type) (chain last)
  | thrown what =>
      what = must_be_linear ∧ ¬ linear last
      ∧ Forall (λ x, name x ≠ type) (chain last)
  end.
Proof.
  induction last as [n r|n r input IH|n r a b more] using Stage_chain_ind;
    cbn [findStage_pdal]; destruct (String.eqb_spec n type) as [Hn|Hn].
  - split; [done|]. by exists [], [].
  - split; [apply linear_none|]. cbn. by repeat constructor.
  - split; [done|]. destruct (chain_head (mkStage n r [input])) as [rest ->].
    by exists [], rest.
  - destruct (findStage_pdal input type) as [[found|]|what].
    + destruct IH as (Hname & before & after & Hchain & Hbefore).
      split; [done|]. exists (mkStage n r [input] :: before), after.
      cbn [chain]. rewrite Hchain. split; [done|].
      constructor; [|done]. by cbn.
    + destruct IH as [Hlin Hall]. rewrite linear_one. split; [done|].
      cbn [chain]. by constructor.
    + destruct IH as (-> & Hlin & Hall). rewrite linear_one. split_and!; [done..|].
      cbn [chain]. by constructor.
  - split; [done|]. by exists [], [].
  - split_and!; [done|apply linear_fork|]. cbn. by repeat constructor.
Qed.

(** X13: [getFirst] returns the stage at the end of the walk along the
    inputs, which has no input, when no stage on the way has several, and
    throws "must be linear" otherwise.  [getReader] returns that stage when
    it is a reader, throws "must start with reader" when it is not, and
    throws as [getFirst] does. *)
Theorem X13_getFirst_ends_the_walk (last_stage : Stage) :
  match getFirst last_stage with
  | returned first =>
      linear last_stage ∧ last (chain last_stage) = Some first
      ∧ getInputs first = []
      ∧ getReader last_stage =
          (if is_reader first then returned first
           else thrown "Invalid pipeline - must start with reader")
  | thrown what =>
      what = must_be_linear ∧ ¬ linear last_stage
      ∧ getReader last_stage = thrown must_be_linear
  end.
Proof.
  unfold getReader.
  induction last_stage as [n r|n r input IH|n r a b more] using Stage_chain_ind;
    cbn [getFirst].
  - split_and!; [apply linear_none|done..].
  - destruct (getFirst input) as [first|what]; rewrite linear_one.
    + destruct IH as (Hlin & Hlast & Hin & Hreader). split_and!; [done| |done..].
      cbn [chain]. destruct (chain_head input) as [rest Hrest].
      rewrite Hrest in Hlast |- *. done.
    + destruct IH as (-> & Hlin & _). done.
  - split_and!; [done|apply linear_fork|done].
Qed.

End pipeline_pdal_facts.

(* ===================================================================== *)
(** * Builder::insert: the callback over the batches of a source *)
(* ===================================================================== *)

Section ingest_facts.
Import ingest.
Context `{T : TableOps}.

Lemma expected_from_cons m originId k row rows :
  expected_from m originId k (row :: rows)
  = option_list (insert_of m originId k row) ++ expected_from m originId (S k) rows.
Proof.
  unfold expected_from. rewrite imap_cons. cbn [omap list_omap fst snd].
  rewrite Nat.add_0_r.
  rewrite (imap_ext _ (λ i row0, ((S k + i)%nat, row0))).
  2:{ intros i x _. cbn. f_equal. lia. }
  by destruct (insert_of m originId k row).
Qed.

Lemma expected_app m originId rows more :
  expected m originId (rows ++ more)
  = expected m originId rows ++ expected_from m originId (length rows) more.
Proof.
  unfold expected, expected_from. rewrite imap_app, omap_app. done.
Qed.

Lemma inserts_of_app (a b : list Event) :
  inserts_of (a ++ b) = inserts_of a ++ inserts_of b.
Proof. apply omap_app. Qed.

Lemma inserts_of_to_event (calls : list (Voxel * Key * ChunkKey)) :
  inserts_of (to_event <$> calls) = calls.
Proof.
  induction calls as [|[[v key] ck] calls IH]; [done|].
  cbn. f_equal. apply IH.
Qed.

Lemma clips_of_app (a b : list Event) :
  clips_of (a ++ b) = (clips_of a + clips_of b)%nat.
Proof. unfold clips_of. by rewrite List.filter_app, length_app. Qed.

Lemma clips_of_to_event (calls : list (Voxel * Key * ChunkKey)) :
  clips_of (to_event <$> calls) = 0%nat.
Proof. induction calls as [|call calls IH]; [done|]. apply IH. Qed.

Lemma expected_from_length m originId k rows :
  (length (expected_from m originId k rows) ≤ length rows)%nat.
Proof.
  revert k. induction rows as [|row rows IH]; intros k; [done|].
  rewrite expected_from_cons, length_app. specialize (IH (S k)).
  destruct (insert_of m originId k row); cbn; lia.
Qed.

Lemma points_spec m originId rows k inserts events :
  Z.of_nat (k + length rows) < 2 ^ 64 →
  0 ≤ inserts → inserts + Z.of_nat (length rows) < 2 ^ 64 →
  points m originId rows (Z.of_nat k) inserts (Nat.iter k ck_reset (ck_init m)) events
  = (Z.of_nat (k + length rows),
     inserts + Z.of_nat (length (expected_from m originId k rows)),
     Nat.iter (k + length rows) ck_reset (ck_init m),
     events ++ (to_event <$> expected_from m originId k rows)).
Proof.
  revert k inserts events. induction rows as [|row rows IH]; intros k inserts events Hk H0 Hi.
  - cbn. rewrite Nat.add_0_r, Z.add_0_r, app_nil_r. done.
  - cbn [points length] in *. rewrite expected_from_cons.
    replace (wrap64 (Z.of_nat k + 1)) with (Z.of_nat (S k))
      by (unfold wrap64; rewrite Z.mod_small; lia).
    change (ck_reset (Nat.iter k ck_reset (ck_init m)))
      with (Nat.iter (S k) ck_reset (ck_init m)).
    pose proof (expected_from_length m originId (S k) rows) as Hlen.
    unfold insert_of.
    destruct (inside m (v_point (stamp originId (Z.of_nat k) row))).
    + replace (wrap64 (inserts + 1)) with (inserts + 1)
        by (unfold wrap64; rewrite Z.mod_small; lia).
      rewrite IH by lia. cbn [option_list app length fmap list_fmap].
      rewrite <- app_assoc.
      replace (S k + length rows)%nat with (k + S (length rows))%nat by lia.
      cbn [option_list app length fmap list_fmap].
      replace (inserts + 1 + Z.of_nat (length (expected_from m originId (S k) rows)))
        with (inserts + Z.of_nat (S (length (expected_from m originId (S k) rows))))
        by lia.
      done.
    + rewrite IH by lia. cbn [option_list app].
      replace (S k + length rows)%nat with (k + S (length rows))%nat by lia.
      done.
Qed.

Lemma process_spec m originId st table k :
  pointId st = Z.of_nat k → ck st = Nat.iter k ck_reset (ck_init m) →
  Z.of_nat (k + length table) < 2 ^ 64 →
  let st' := process m originId st table in
  pointId st' = Z.of_nat (k + length table)
  ∧ ck st' = Nat.iter (k + length table) ck_reset (ck_init m)
  ∧ counter st'
    = wrap64 (counter st + Z.of_nat (length (expected_from m originId k table)))
  ∧ inserts_of (trace st')
    = inserts_of (trace st) ++ expected_from m originId k table
  ∧ 0 ≤ inserted st' ≤ heuristics.sleepCount
  ∧ (inserted st' = wrap64 (inserted st + Z.of_nat (length table))
       ∧ clips_of (trace st') = clips_of (trace st)
     ∨ inserted st' = 0
       ∧ heuristics.sleepCount < wrap64 (inserted st + Z.of_nat (length table))
       ∧ clips_of (trace st') = S (clips_of (trace st))).
Proof.
  intros Hpid Hck Hlt. unfold process. rewrite Hpid, Hck.
  set (total := wrap64 (inserted st + Z.of_nat (length table))).
  assert (0 ≤ total < 2 ^ 64) as Htotal by (apply Z.mod_pos_bound; lia).
  destruct (Z.ltb_spec heuristics.sleepCount total) as [Hclip|Hclip];
    rewrite points_spec by lia; cbn [pointId ck counter trace inserted];
    rewrite Z.add_0_l, inserts_of_app, inserts_of_app, inserts_of_to_event,
      !clips_of_app, clips_of_to_event;
    (split_and!; [done|done|done|done| | |]).
  - done.
  - unfold heuristics.sleepCount. lia.
  - right. split_and!; [done..|]. cbn. lia.
  - lia.
  - lia.
  - left. split; [done|]. cbn. lia.
Qed.

Lemma batches_snoc m originId counter0 tables table :
  batches m originId counter0 (tables ++ [table])
  = process m originId (batches m originId counter0 tables) table.
Proof. unfold batches. by rewrite foldl_app. Qed.

Lemma wrap64_add_l (a b : Z) : wrap64 (wrap64 a + b) = wrap64 (a + b).
Proof. unfold wrap64. by rewrite Zplus_mod_idemp_l. Qed.

Lemma wrap64_idem (a : Z) : wrap64 (wrap64 a) = wrap64 a.
Proof. unfold wrap64. by rewrite Zmod_mod. Qed.

Lemma batches_spec m originId counter0 tables :
  Z.of_nat (length (concat tables)) < 2 ^ 64 →
  let st := batches m originId counter0 tables in
  let rows := concat tables in
  pointId st = Z.of_nat (length rows)
  ∧ ck st = Nat.iter (length rows) ck_reset (ck_init m)
  ∧ wrap64 (counter st) = wrap64 (counter0 + Z.of_nat (length (expected m originId rows)))
  ∧ inserts_of (trace st) = expected m originId rows
  ∧ 0 ≤ inserted st ≤ heuristics.sleepCount
  ∧ Z.of_nat (clips_of (trace st)) * (heuristics.sleepCount + 1) + inserted st
    ≤ Z.of_nat (length rows)
  ∧ (0 ≤ counter0 < 2 ^ 64 → 0 ≤ counter st < 2 ^ 64).
Proof.
  induction tables as [|table tables IH] using rev_ind; intros Hlt.
  - cbn. unfold heuristics.sleepCount. split_and!; try done. by rewrite Z.add_0_r.
  - intros st rows. subst st rows. rewrite concat_app in *. cbn [concat] in *.
    rewrite app_nil_r, length_app in *.
    destruct IH as (Hpid & Hck & Hcounter & Hins & Hrange & Hclips & _); [lia|].
    rewrite batches_snoc.
    destruct (process_spec m originId (batches m originId counter0 tables) table
                _ Hpid Hck) as (Hpid' & Hck' & Hcounter' & Hins' & Hrange' & Hclips');
      [lia|].
    split; [done|]. split; [done|]. split; [|split; [|split; [done|split]]].
    + rewrite Hcounter', expected_app, length_app, Nat2Z.inj_add.
      rewrite wrap64_idem.
      rewrite <- (wrap64_add_l (counter _)), Hcounter, wrap64_add_l.
      f_equal. lia.
    + by rewrite Hins', Hins, expected_app.
    + assert (wrap64 (inserted (batches m originId counter0 tables)
                      + Z.of_nat (length table))
              ≤ inserted (batches m originId counter0 tables)
                + Z.of_nat (length table)) as Hwrap.
      { unfold wrap64. apply Z.mod_le; lia. }
      unfold heuristics.sleepCount in *.
      destruct Hclips' as [(-> & ->)|(-> & Hgt & ->)]; lia.
    + intros _. rewrite Hcounter'. apply Z.mod_pos_bound. lia.
Qed.

(** X14: the point ids of a source.  Over all the batches a reader delivers,
    [Builder::insert] numbers the points by their position in the source,
    counting the points it drops too, and calls [cache.insert] for exactly
    the points that lie in the conforming bounds (and in the bounds of the
    subset, if there is one), in the order of the source, each with its key
    and the chunk key reset anew; how the points are cut into batches makes
    no difference.  The shared counter grows by the number of these calls. *)
Theorem X14_points_are_numbered_by_position (m : Metadata) (originId counter0 : Z)
    (tables : list (list Voxel)) :
  Z.of_nat (length (concat tables)) < 2 ^ 64 → 0 ≤ counter0 < 2 ^ 64 →
  let st := batches m originId counter0 tables in
  inserts_of (trace st) = expected m originId (concat tables)
  ∧ pointId st = Z.of_nat (length (concat tables))
  ∧ counter st = wrap64 (counter0 + Z.of_nat (length (inserts_of (trace st)))).
Proof.
  intros Hlt Hc st.
  destruct (batches_spec m originId counter0 tables Hlt)
    as (Hpid & _ & Hcounter & Hins & _ & _ & Hrange).
  subst st. rewrite Hins. split_and!; [done..|].
  rewrite <- Hcounter. unfold wrap64. symmetry. apply Z.mod_small. auto.
Qed.

(** X15: the clips of a source.  The callback calls [clipper.clip()] only
    when more than [sleepCount] points have come in since the last clip (or
    the start), so the clips times [sleepCount + 1] never exceed the points
    read; and after every batch at most [sleepCount] points are pending. *)
Theorem X15_clips_are_spaced_by_sleepCount (m : Metadata) (originId counter0 : Z)
    (tables : list (list Voxel)) :
  Z.of_nat (length (concat tables)) < 2 ^ 64 →
  let st := batches m originId counter0 tables in
  0 ≤ inserted st ≤ heuristics.sleepCount
  ∧ Z.of_nat (clips_of (trace st)) * (heuristics.sleepCount + 1) + inserted st
    ≤ Z.of_nat (length (concat tables)).
Proof.
  intros Hlt st.
  destruct (batches_spec m originId counter0 tables Hlt)
    as (_ & _ & _ & _ & Hrange & Hclips & _).
  done.
Qed.

End ingest_facts.

(* ===================================================================== *)
(** * Builder::insert: the pipeline handed to PDAL *)
(* ===================================================================== *)

Section prepare_facts.
Import pipeline ingest.

Lemma set_filename_ok (stage stage' : Json) (localPath : string) :
  set_filename stage localPath = ok stage' →
  ∃ fields, stage' = JObject fields ∧ fields !! "filename" = Some (JString localPath).
Proof.
  destruct stage; try done; intros [= <-]; eexists; (split; [done|]).
  - apply lookup_singleton_eq.
  - apply lookup_insert_eq.
Qed.

Lemma value_type_enumerate (fields : gmap string Json) (v : Json) :
  value_type (JObject (<["enumerate" := v]> fields)) = value_type (JObject fields).
Proof. cbn. by rewrite lookup_insert_ne. Qed.

Lemma findStage_insert_enumerate (pipeline : list Json) (type : string) (it : nat)
    (fields : gmap string Json) (v : Json) :
  pipeline !! it = Some (JObject fields) →
  findStage (<[it := JObject (<["enumerate" := v]> fields)]> pipeline) type
  = findStage pipeline type.
Proof.
  intros Hit. apply find_from_ext. rewrite list_fmap_insert, value_type_enumerate.
  apply list_insert_id. by rewrite list_lookup_fmap, Hit.
Qed.

Lemma prepare_stages (info_pipeline : Json)
    (localPath : string) (needsStats : bool) (prepared : list Json) :
  prepare info_pipeline localPath needsStats = ok prepared →
  let stages := stages_of info_pipeline in
  (∃ fields, prepared !! 0%nat = Some (JObject fields)
     ∧ fields !! "filename" = Some (JString localPath))
  ∧ (length stages ≤ length prepared ≤ S (length stages))%nat
  ∧ (∀ j stage, (0 < j)%nat → stages !! j = Some stage →
       prepared !! j = Some stage
       ∨ needsStats = true ∧ findStage prepared "filters.stats" = ok j
         ∧ ∃ fields, stage = JObject fields ∧ fields !! "enumerate" = None
             ∧ prepared !! j
               = Some (JObject (<["enumerate" := JString "Classification"]> fields)))
  ∧ (if needsStats
     then ∃ it fields, findStage prepared "filters.stats" = ok it
            ∧ prepared !! it = Some (JObject fields)
            ∧ is_Some (fields !! "enumerate")
     else length prepared = length stages).
Proof.
  unfold prepare.
  assert (∀ stages, stages_of info_pipeline = stages →
    match stages with
    | [] => raised out_of_range
    | first :: rest =>
        match set_filename first localPath with
        | raised e => raised e
        | ok first0 =>
            if needsStats
            then match findOrAppendStage (first0 :: rest) "filters.stats" with
                 | raised e => raised e
                 | ok (pipeline, it) =>
                     match pipeline !! it with
                     | Some (JObject statsFilter) =>
                         match statsFilter !! "enumerate" with
                         | Some _ => ok pipeline
                         | None =>
                             ok (<[it := JObject (<["enumerate" := JString "Classification"]>
                                                    statsFilter)]> pipeline)
                         end
                     | _ => raised type_error
                     end
                 end
            else ok (first0 :: rest)
        end
    end = ok prepared →
    (∃ fields, prepared !! 0%nat = Some (JObject fields)
       ∧ fields !! "filename" = Some (JString localPath))
    ∧ (length stages ≤ length prepared ≤ S (length stages))%nat
    ∧ (∀ j stage, (0 < j)%nat → stages !! j = Some stage →
         prepared !! j = Some stage
         ∨ needsStats = true ∧ findStage prepared "filters.stats" = ok j
           ∧ ∃ fields, stage = JObject fields ∧ fields !! "enumerate" = None
               ∧ prepared !! j
                 = Some (JObject (<["enumerate" := JString "Classification"]> fields)))
    ∧ (if needsStats
       then ∃ it fields, findStage prepared "filters.stats" = ok it
              ∧ prepared !! it = Some (JObject fields)
              ∧ is_Some (fields !! "enumerate")
       else length prepared = length stages)) as Hmain.
  { intros [|first rest] _; [done|].
    destruct (set_filename first localPath) as [first0|e] eqn:Hfirst; [|done].
    apply set_filename_ok in Hfirst as (fields0 & -> & Hname).
    destruct needsStats.
    2:{ intros [= <-]. split_and!; [by eexists|cbn; lia|cbn; lia| |done].
        intros [|j] stage Hj Hstage; [lia|]. by left. }
    destruct (findOrAppendStage _ _) as [[pipeline it]|e] eqn:Hfind; [|done].
    pose proof Hfind as Hcases%findOrAppendStage_cases.
    assert (findStage pipeline "filters.stats" = ok it
            ∧ (length (first :: rest) ≤ length pipeline ≤ S (length (first :: rest)))%nat
            ∧ (∃ fields, pipeline !! 0%nat = Some (JObject fields)
                 ∧ fields !! "filename" = Some (JString localPath))
            ∧ (∀ j stage, (0 < j)%nat → (first :: rest) !! j = Some stage →
                 pipeline !! j = Some stage)) as (Hit & Hlen & Hzero & Hother).
    { destruct Hcases as [(Hfound & Hlt & ->)|(Hfound & -> & ->)].
      - split_and!; [done|cbn; lia|cbn; lia|by eexists|].
        intros [|j] stage Hj Hstage; [lia|done].
      - split_and!.
        + by apply findStage_app_fresh.
        + rewrite length_app. cbn. lia.
        + rewrite length_app. cbn. lia.
        + by eexists.
        + intros [|j] stage Hj Hstage; [lia|].
          apply lookup_lt_Some in Hstage as Hlt.
          rewrite lookup_app_l by (cbn in *; lia). done. }
    destruct (pipeline !! it) as [[| | | | |statsFilter]|] eqn:Hstats; try done.
    pose proof Hit as (_ & _ & Htype)%findStage_ok.
    specialize (Htype _ Hstats).
    destruct (statsFilter !! "enumerate") as [v|] eqn:Henum; intros [= <-].
    - split_and!; [done|lia|lia|by left; eauto|].
      exists it, statsFilter. by rewrite Henum.
    - rewrite length_insert. split_and!; [|lia|lia| |].
      + destruct Hzero as (fields & Hz & Hf). destruct (decide (it = 0%nat)) as [->|Hne].
        * rewrite list_lookup_insert_eq by (by eapply lookup_lt_Some).
          eexists. split; [done|]. rewrite lookup_insert_ne by done.
          congruence.
        * rewrite list_lookup_insert_ne by done. eauto.
      + intros j stage Hj Hstage. specialize (Hother j stage Hj Hstage).
        destruct (decide (it = j)) as [->|Hne].
        * right. rewrite list_lookup_insert_eq by (by eapply lookup_lt_Some).
          assert (stage = JObject statsFilter) as -> by congruence.
          split; [done|]. split; [by rewrite findStage_insert_enumerate|]. eauto.
        * left. by rewrite list_lookup_insert_ne.
      + exists it, (<["enumerate" := JString "Classification"]> statsFilter).
        rewrite findStage_insert_enumerate by done.
        rewrite list_lookup_insert_eq by (by eapply lookup_lt_Some).
        split_and!; [done..|]. rewrite lookup_insert_eq. by eexists. }
  intros Hprep. apply Hmain; [done|].
  unfold stages_of. by destruct info_pipeline as [| | | |[|first rest]|].
Qed.

Lemma find_from_update (i : nat) (rest : list Json) (type : string) (it : nat)
    (f : Json → Json) (fresh : Json) :
  find_from i rest type = ok it →
  update_first (is_type type) f fresh rest
  = if bool_decide (it - i < length rest)%nat
    then alter f (it - i)%nat rest
    else rest ++ [fresh].
Proof.
  revert i. induction rest as [|stage rest IH]; intros i; cbn [find_from update_first].
  - intros _. by rewrite bool_decide_eq_false_2 by (cbn; lia).
  - unfold is_type at 1. destruct (value_type stage) as [t|e]; [|done].
    destruct (String.eqb_spec t type) as [->|Hne].
    + intros [= <-]. rewrite Nat.sub_diag.
      by rewrite bool_decide_eq_true_2 by (cbn; lia).
    + intros Hfind. pose proof Hfind as ([? ?] & _)%find_from_ok.
      rewrite (IH (S i) Hfind).
      replace (it - i)%nat with (S (it - S i)) by lia. cbn [length].
      destruct (decide (it - S i < length rest)%nat).
      * by rewrite !bool_decide_eq_true_2 by lia.
      * by rewrite !bool_decide_eq_false_2 by lia.
Qed.

Lemma alter_insert {A : Type} (f : A → A) (i : nat) (l : list A) (x : A) :
  l !! i = Some x → alter f i l = <[i := f x]> l.
Proof.
  revert i. induction l as [|y l IH]; intros [|i] Hi; try done.
  - cbn in Hi. injection Hi as ->. done.
  - cbn in Hi. simpl. f_equal. by apply IH.
Qed.

Lemma prepare_described (info_pipeline : Json) (localPath : string)
    (needsStats : bool) (prepared : list Json) :
  prepare info_pipeline localPath needsStats = ok prepared →
  prepared = described info_pipeline localPath needsStats.
Proof.
  unfold prepare, described.
  assert (∀ first rest,
    match set_filename first localPath with
    | raised e => raised e
    | ok first0 =>
        if needsStats
        then match findOrAppendStage (first0 :: rest) "filters.stats" with
             | raised e => raised e
             | ok (pipeline, it) =>
                 match pipeline !! it with
                 | Some (JObject statsFilter) =>
                     match statsFilter !! "enumerate" with
                     | Some _ => ok pipeline
                     | None =>
                         ok (<[it := JObject (<["enumerate" := JString "Classification"]>
                                                statsFilter)]> pipeline)
                     end
                 | _ => raised type_error
                 end
             end
        else ok (first0 :: rest)
    end = ok prepared →
    prepared
    = (let pipeline := reader_stage first localPath :: rest in
       if needsStats
       then update_first (is_type "filters.stats") with_enumerate
              (with_enumerate (JObject {[ "type" := JString "filters.stats" ]}))
              pipeline
       else pipeline)) as Hmain.
  { intros first rest.
    assert (set_filename first localPath = ok (reader_stage first localPath)
            ∨ ∃ e, set_filename first localPath = raised e) as [->|[e ->]];
      [destruct first; eauto| |done].
    cbn zeta. set (pipeline := reader_stage _ localPath :: rest).
    destruct needsStats; [|by intros [= <-]].
    destruct (findOrAppendStage pipeline "filters.stats")
      as [[pipeline' it]|e] eqn:Hfind; [|done].
    apply findOrAppendStage_cases in Hfind
      as [(Hfound & Hlt & ->)|(Hfound & -> & ->)];
      rewrite (find_from_update 0 pipeline _ _ _ _ Hfound), Nat.sub_0_r.
    - rewrite bool_decide_eq_true_2 by done.
      destruct (pipeline !! it) as [stage|] eqn:Hstage; [|done].
      rewrite (alter_insert _ _ _ _ Hstage).
      destruct stage as [| | | | |statsFilter]; try done. cbn [with_enumerate].
      destruct (statsFilter !! "enumerate") as [v|] eqn:Henum; intros [= <-];
        [|done].
      symmetry. by apply list_insert_id.
    - rewrite bool_decide_eq_false_2 by lia.
      rewrite lookup_app_r, Nat.sub_diag by lia. cbn [lookup list_lookup with_enumerate].
      rewrite lookup_singleton_ne by done. intros [= <-].
      rewrite insert_app_r_alt, Nat.sub_diag by lia. done. }
  intros Hprep.
  destruct info_pipeline as [| | | |[|first rest]|]; try done; by apply Hmain.
Qed.

(** X16: the pipeline [Builder::insert] hands to PDAL is the one
    [described]: the stages of the source (one empty stage if it has none),
    with "filename" set to the local path in the first, which is made an
    object if it is null; and, when the schema of the source has no
    statistics yet, with "enumerate": "Classification" put into the first
    "filters.stats" stage unless that stage has an "enumerate" of its own, or
    with a stage of nothing but this type and this "enumerate" added at the
    end when there is no such stage.  So stage 0 has the local path as its
    "filename", no stage but the first and the first "filters.stats" stage is
    changed, at most one stage is added and none when statistics are not
    needed, and when they are the pipeline has a "filters.stats" stage with an
    "enumerate". *)
Theorem X16_prepare_sets_filename_and_stats (info_pipeline : Json)
    (localPath : string) (needsStats : bool) (prepared : list Json) :
  prepare info_pipeline localPath needsStats = ok prepared →
  let stages := stages_of info_pipeline in
  prepared = described info_pipeline localPath needsStats
  ∧ (∃ fields, prepared !! 0%nat = Some (JObject fields)
       ∧ fields !! "filename" = Some (JString localPath))
  ∧ (length stages ≤ length prepared ≤ S (length stages))%nat
  ∧ (∀ j stage, (0 < j)%nat → stages !! j = Some stage →
       prepared !! j = Some stage
       ∨ needsStats = true ∧ findStage prepared "filters.stats" = ok j
         ∧ ∃ fields, stage = JObject fields ∧ fields !! "enumerate" = None
             ∧ prepared !! j
               = Some (JObject (<["enumerate" := JString "Classification"]> fields)))
  ∧ (if needsStats
     then ∃ it fields, findStage prepared "filters.stats" = ok it
            ∧ prepared !! it = Some (JObject fields)
            ∧ is_Some (fields !! "enumerate")
     else length prepared = length stages).
Proof.
  intros Hprep stages. split; [by apply prepare_described|].
  by apply prepare_stages.
Qed.

(** X17: the pipeline is prepared without error for a source without a
    pipeline, and for one whose pipeline is an array of at least one stage in
    which every stage is an object with no "type" or a string for it; the
    first stage may also be null. *)
Theorem X17_prepare_returns_on_typed_stages (info_pipeline : Json)
    (localPath : string) (needsStats : bool) (first : Json) (rest : list Json) :
  stages_of info_pipeline = first :: rest →
  first = JNull ∨ typed first → Forall typed rest →
  ∃ prepared, prepare info_pipeline localPath needsStats = ok prepared.
Proof.
  intros Hinfo Hfirst Hrest.
  assert (∀ first, first = JNull ∨ typed first →
    ∀ rest, Forall typed rest →
    ∃ prepared, prepare (JArray (first :: rest)) localPath needsStats = ok prepared)
    as Hmain.
  { clear. intros first Hfirst rest Hrest. unfold prepare.
    assert (∃ fields, set_filename first localPath = ok (JObject fields)
                      ∧ typed (JObject fields)) as (fields0 & -> & Htyped0).
    { destruct Hfirst as [->|Htyped].
      - eexists. split; [done|]. exists "". cbn. by rewrite lookup_singleton_ne.
      - destruct (typed_object _ Htyped) as [fields ->]. eexists. split; [done|].
        destruct Htyped as [t Ht]. exists t. cbn in *. by rewrite lookup_insert_ne. }
    destruct needsStats; [|eauto].
    destruct (find_from_typed 0 (JObject fields0 :: rest) "filters.stats") as [it Hit].
    { by constructor. }
    unfold findOrAppendStage, findStage. rewrite Hit.
    case_bool_decide as Hend.
    - destruct (lookup_lt_is_Some_2 (JObject fields0 :: rest) it) as [stage Hstage].
      { apply (findStage_ok _ _ _) in Hit as (Hle & _). lia. }
      rewrite Hstage.
      assert (typed stage) as [fields ->]%typed_object.
      { eapply (Forall_lookup_1 typed); [|done]. by constructor. }
      destruct (fields !! "enumerate"); eauto.
    - assert (it = length (JObject fields0 :: rest)) as ->
        by (destruct (decide (it = length (JObject fields0 :: rest))); done).
      rewrite lookup_app_r, Nat.sub_diag by lia. cbn [lookup list_lookup].
      destruct (_ !! "enumerate"); eauto. }
  destruct info_pipeline as [| | | |stages|]; try done.
  - injection Hinfo as <- <-. by apply (Hmain (JObject ∅)).
  - cbn in Hinfo. subst stages. by apply Hmain.
Qed.

End prepare_facts.

(* ===================================================================== *)
(** * Examples on integer boxes *)
(* ===================================================================== *)

#[local] Existing Instance cube.geometry.
#[local] Existing Instance cube.key_ops.

(** C7, as the specification states it, fails: for a dataset of span 8
    (start depth 3) the chunk at depth 3 gets 8 x 8 tubes, where
    2^(depth - start_depth) clamped to the span prescribes 1 x 1. *)
Lemma C7_counterexample :
  props.spec_span (cube.meta 1 1) (ck_depth cube.deep) = 1
  ∧ chunk.m_span (chunk.make (cube.meta 1 1) cube.deep ∅) = 8
  ∧ length (chunk.m_grid (chunk.make (cube.meta 1 1) cube.deep ∅)) = 64%nat
  ∧ length (chunk.m_grid (chunk.make (cube.meta 1 1) cube.deep ∅))
    ≠ Z.to_nat (props.spec_span (cube.meta 1 1) (ck_depth cube.deep)
                * props.spec_span (cube.meta 1 1) (ck_depth cube.deep)).
Proof. split_and!; [done..|]. vm_compute. lia. Qed.

Section examples.
Import overflow chunk props builder.

(** Closed comparisons of integers, by evaluation. *)
Ltac by_evaluation :=
  vm_compute;
  repeat match goal with
         | |- _ ∧ _ => split
         | |- _ = _ => reflexivity
         | |- _ → False => discriminate
         end.

(** The second voxel of the cell [0, 4)^3 in its chunk [one]: the resident
    is at (3, 3, 3), the new voxel at (2, 2, 2), the middle of the cell. *)
Lemma one_cell :
  cell cube.one cube.key000 = Some (mkResident (cube.mkP3 3 3 3) 0).
Proof. vm_compute. reflexivity. Qed.

Lemma one_bytes : m_gridBlock cube.one !! 0%nat = Some [Byte.x01].
Proof. vm_compute. reflexivity. Qed.

Lemma one_insert_returns_resident :
  (λ r, r.1.2) <$> chunk.insert cube.one (cube.voxel 2 2 2 Byte.x04) cube.key000
  = Some (cube.voxel 3 3 3 Byte.x01).
Proof. vm_compute. reflexivity. Qed.

Lemma C1_witness :
  cell cube.one cube.key000 = Some (mkResident (cube.mkP3 3 3 3) 0)
  ∧ m_gridBlock cube.one !! 0%nat = Some [Byte.x01]
  ∧ ∃ c1 done c' calls,
      insertOverflow c1 (cube.voxel 3 3 3 Byte.x01) cube.key000
      = Some (done, c', calls)
      ∧ chunk.insert cube.one (cube.voxel 2 2 2 Byte.x04) cube.key000
        = Some (done, c', cube.voxel 3 3 3 Byte.x01, calls)
      ∧ cell_voxel c' cube.key000 = Some (cube.voxel 2 2 2 Byte.x04).
Proof.
  split; [exact one_cell|]. split; [exact one_bytes|].
  destruct (C1_insert_keeps_nearest_to_key_mid
              cube.one (cube.voxel 2 2 2 Byte.x04) cube.key000
              _ _ one_cell one_bytes)
    as (c1 & done & c' & calls & _ & _ & _ & Hover & Hins & Hkept & _).
  exists c1, done, c', calls. split_and!; [exact Hover|exact Hins|exact Hkept].
Defined.

(** C1, as the specification states it, fails.  In the root chunk
    [0, 32)^3 the resident (3, 3, 3) is nearer to the midpoint (16, 16, 16)
    of the chunk's bounds than the new voxel (2, 2, 2); [insert] nevertheless
    puts the new voxel into the cell and hands the resident on, because the
    new voxel is nearer to the midpoint (2, 2, 2) of the bounds of the key. *)
Lemma C1_counterexample :
  cell cube.one cube.key000 = Some (mkResident (cube.mkP3 3 3 3) 0)
  ∧ dist_lt (sqDist3d (cube.mkP3 2 2 2) (mid (ck_bounds (m_chunkKey cube.one))))
            (sqDist3d (cube.mkP3 3 3 3) (mid (ck_bounds (m_chunkKey cube.one))))
    = false
  ∧ (λ r, r.1.2) <$> chunk.insert cube.one (cube.voxel 2 2 2 Byte.x04) cube.key000
    = Some (cube.voxel 3 3 3 Byte.x01)
  ∧ cell_voxel (cube.after cube.one (cube.voxel 2 2 2 Byte.x04) cube.key000)
               cube.key000
    = Some (cube.voxel 2 2 2 Byte.x04)
  ∧ ¬ keeps_nearest_to (mid (ck_bounds (m_chunkKey cube.one)))
        cube.one (cube.voxel 2 2 2 Byte.x04) cube.key000.
Proof.
  split; [exact one_cell|].
  split; [vm_compute; reflexivity|].
  split; [exact one_insert_returns_resident|].
  split; [vm_compute; reflexivity|].
  intros Hrule.
  destruct (Hrule _ _ one_cell one_bytes)
    as (c1 & done & c' & calls & _ & _ & _ & _ & Hins & _).
  pose proof one_insert_returns_resident as Hret.
  rewrite Hins in Hret. vm_compute in Hret. discriminate Hret.
Qed.

Lemma full_bucket : bucket cube.full 0 = Some cube.bucket0_full.
Proof. vm_compute. reflexivity. Qed.

Lemma full_count : m_overflowCount cube.full = 2.
Proof. vm_compute. reflexivity. Qed.

Lemma full_splittable : splittable cube.full.
Proof. left. vm_compute. reflexivity. Qed.

Lemma full_largest : largest_present cube.full 0 cube.bucket0_full.
Proof.
  split; [exact full_bucket|]. split.
  - intros j o' Hj.
    do 8 (destruct j as [|j];
          [vm_compute in Hj; injection Hj as <-; vm_compute; discriminate|]).
    vm_compute in Hj. discriminate Hj.
  - intros j o' Hlt. lia.
Qed.

Lemma C2_witness :
  splittable cube.full
  ∧ ∃ c' calls,
      maybeOverflow cube.full = Some (c', calls)
      ∧ bucket c' 0 = None
      ∧ bucket c' 1 = bucket cube.full 1
      ∧ m_overflowCount c' = 0
      ∧ calls
        = [ mkCacheInsert (cube.voxel 1 1 1 Byte.x02)
              (step cube.key000 (cube.mkP3 1 1 1)) (getStep cube.root swd);
            mkCacheInsert (cube.voxel 0 0 0 Byte.x03)
              (step cube.key000 (cube.mkP3 0 0 0)) (getStep cube.root swd) ].
Proof.
  split; [exact full_splittable|].
  destruct (C2_maybeOverflow_splits_largest_bucket cube.full full_splittable)
    as (split & _ & Honly & Hsplits).
  assert (split = Some 0%nat) as Hzero.
  { apply (Hsplits 0%nat cube.bucket0_full); [by_evaluation|exact full_largest|].
    by_evaluation. }
  destruct (Honly 0%nat Hzero)
    as (_ & o & Hlargest & _ & c' & calls & Hrun & Hgone & Hother & Hwrap & _
        & Hcalls & _).
  destruct (largest_present_unique _ _ _ _ _ Hlargest full_largest) as [_ ->].
  exists c', calls. split_and!; [exact Hrun|exact Hgone| | |].
  - apply Hother. discriminate.
  - rewrite Hwrap, full_count. reflexivity.
  - rewrite Hcalls. reflexivity.
Defined.

Lemma C3_witness :
  bucket cube.full 0 = Some cube.bucket0_full
  ∧ ∃ c' calls,
      doOverflow cube.full 0 = Some (c', calls)
      ∧ bucket c' 0 = None
      ∧ m_overflowCount c' = 0
      ∧ calls
        = [ mkCacheInsert (cube.voxel 1 1 1 Byte.x02)
              (step cube.key000 (cube.mkP3 1 1 1)) (getStep cube.root swd);
            mkCacheInsert (cube.voxel 0 0 0 Byte.x03)
              (step cube.key000 (cube.mkP3 0 0 0)) (getStep cube.root swd) ].
Proof.
  split; [exact full_bucket|].
  destruct (C3_doOverflow_detaches_and_reinserts cube.full 0 cube.bucket0_full
              full_bucket)
    as (c' & calls & Hdo & Hgone & Hcount & Hcalls & _).
  { rewrite full_count. by_evaluation. }
  exists c', calls. split_and!; [exact Hdo|exact Hgone| |exact Hcalls].
  rewrite Hcount, full_count. reflexivity.
Defined.

Lemma two_count : m_overflowCount cube.two = 1.
Proof. vm_compute. reflexivity. Qed.

Lemma two_bucket : bucket cube.two 0 = Some cube.bucket0.
Proof. vm_compute. reflexivity. Qed.

Lemma C5_witness :
  0 ≤ m_overflowCount cube.two < 2 ^ 64 - 1
  ∧ bucket cube.two 0 = Some cube.bucket0
  ∧ ∃ c1 c2 calls,
      bucket c1 0 = Some cube.bucket0_full
      ∧ m_overflowCount c1 = 2
      ∧ maybeOverflow c1 = Some (c2, calls)
      ∧ insertOverflow cube.two (cube.voxel 0 0 0 Byte.x03) cube.key000
        = Some (true, c2, calls).
Proof.
  assert (0 ≤ m_overflowCount cube.two < 2 ^ 64 - 1) as Hrange.
  { rewrite two_count. by_evaluation. }
  split; [exact Hrange|]. split; [exact two_bucket|].
  destruct (C5_insertOverflow_routes_to_bucket
              cube.two (cube.voxel 0 0 0 Byte.x03) cube.key000 Hrange)
    as (_ & _ & Hpresent).
  destruct (Hpresent cube.bucket0)
    as (c1 & Hb & _ & Hcount & _ & _ & Hrun).
  { by_evaluation. }
  { exact two_bucket. }
  destruct Hrun as (c2 & calls & Hmaybe & Hins).
  { rewrite two_count. by_evaluation. }
  exists c1, c2, calls. split_and!; [exact Hb| |exact Hmaybe|exact Hins].
  rewrite Hcount, two_count. reflexivity.
Defined.

Lemma C6_witness :
  Z.of_nat (length (chunk_points cube.full)) < 2 ^ 64
  ∧ ∃ w,
      save cube.full = (3, w)
      ∧ w_table w = [[Byte.x01]; [Byte.x02]; [Byte.x03]]
      ∧ w_type w = Binary
      ∧ w_filename w = "0-0-0-0".
Proof.
  assert (Z.of_nat (length (chunk_points cube.full)) < 2 ^ 64) as Hsize.
  { vm_compute. reflexivity. }
  split; [exact Hsize|].
  destruct (C6_save_writes_grid_then_buckets cube.full Hsize)
    as (np & w & Hsave & Htable & Hnp & _ & Htype & Hname & _).
  exists w. split_and!.
  - rewrite Hsave. f_equal. rewrite Hnp, Htable. vm_compute. reflexivity.
  - rewrite Htable. vm_compute. reflexivity.
  - rewrite Htype. reflexivity.
  - rewrite Hname. vm_compute. reflexivity.
Defined.

Lemma C8_witness :
  manifest cube.sources !! Z.to_nat 1 = Some (cube.item "b.laz" 7 false)
  ∧ ∃ b2 item2,
      tryInsert cube.failing "vector::at" cube.sources 1 = (b2, None)
      ∧ manifest b2 !! Z.to_nat 1 = Some item2
      ∧ inserted item2 = true
      ∧ errors (info (source item2)) = ["Unable to open file"].
Proof.
  split; [reflexivity|].
  destruct (C8_tryInsert_captures_and_marks_inserted
              cube.failing "vector::at" cube.sources 1
              (cube.item "b.laz" 7 false) (cube.item "b.laz" 7 false)
              eq_refl eq_refl)
    as (b2 & item2 & Hrun & Hitem & Hdone & Herr & _).
  exists b2, item2. split_and!; [exact Hrun|exact Hitem|exact Hdone|exact Herr].
Defined.

Lemma C9_witness :
  0 ≤ 1 < 2 ^ 64
  ∧ Z.of_nat (length (manifest cube.sources)) < 2 ^ 64
  ∧ wanted_origins (active (metadata cube.sources)) (manifest cube.sources)
    = [1; 2]
  ∧ runInserts cube.sources 1 = [1].
Proof.
  assert (0 ≤ 1 < 2 ^ 64) as Hlimit by by_evaluation.
  assert (Z.of_nat (length (manifest cube.sources)) < 2 ^ 64) as Hsize
    by (vm_compute; reflexivity).
  assert (wanted_origins (active (metadata cube.sources)) (manifest cube.sources)
          = [1; 2]) as Hwanted by (vm_compute; reflexivity).
  split; [exact Hlimit|]. split; [exact Hsize|]. split; [exact Hwanted|].
  destruct (C9_runInserts_submits_wanted_up_to_limit cube.sources 1 Hlimit Hsize)
    as (_ & _ & _ & _ & Hone & _).
  exact (Hone eq_refl 1 [2] Hwanted).
Defined.

End examples.

(* ===================================================================== *)
(** * More examples on integer boxes *)
(* ===================================================================== *)

Section more_examples.
Import overflow chunk props builder inv.

Ltac by_evaluation :=
  vm_compute;
  repeat match goal with
         | |- _ ∧ _ => split
         | |- _ = _ => reflexivity
         | |- _ → False => discriminate
         end.

Lemma meta_span : 0 < span (cube.meta 2 3) < 2 ^ 32.
Proof. by_evaluation. Qed.

Lemma after_sound (c : Chunk) (v : Voxel) (k : Key) :
  sound c → m_overflowCount c < 2 ^ 64 - 1 → sound (cube.after c v k).
Proof.
  intros Hsound Hlt.
  destruct (insert_sound c v k Hsound Hlt) as (ok & c' & v' & calls & Hins & Hsound1 & _).
  unfold cube.after. by rewrite Hins.
Qed.

Lemma fresh_sound : sound cube.fresh.
Proof. apply make_sound, meta_span. Qed.

Lemma one_sound : sound cube.one.
Proof. apply after_sound; [apply fresh_sound|by_evaluation]. Qed.

Lemma two_sound : sound cube.two.
Proof. apply after_sound; [apply one_sound|by_evaluation]. Qed.

Lemma X1_witness :
  0 < span (cube.meta 2 3) < 2 ^ 32
  ∧ Z.of_nat (length sample.ops) < 2 ^ 64
  ∧ ∃ c, grow (make (cube.meta 2 3) cube.root ∅) sample.ops = Some c
         ∧ grid_counted c ∧ counted c ∧ m_overflowCount c ≤ 2.
Proof.
  assert (Z.of_nat (length sample.ops) < 2 ^ 64) as Hlen by by_evaluation.
  split; [exact meta_span|]. split; [exact Hlen|].
  destruct (X1_chunk_stays_sound (cube.meta 2 3) cube.root ∅ sample.ops
              meta_span Hlen)
    as (c & Hgrow & _ & _ & _ & Hgc & _ & Hcounted & Hle).
  exists c. split_and!; [exact Hgrow|exact Hgc|exact Hcounted|exact Hle].
Defined.

Lemma closed_split :
  doOverflow cube.full 0 = Some (sample.closed, sample.closed_calls).
Proof.
  assert (is_Some (doOverflow cube.full 0)) as [[c calls] Hdo].
  { apply (bool_decide_unpack _). vm_compute. exact I. }
  unfold sample.closed, sample.closed_calls. by rewrite Hdo.
Qed.

Lemma regrown_grow : grow sample.closed sample.late = Some sample.regrown.
Proof.
  assert (is_Some (grow sample.closed sample.late)) as [c Hgrow].
  { apply (bool_decide_unpack _). vm_compute. exact I. }
  unfold sample.regrown. by rewrite Hgrow.
Qed.

Lemma X2_witness :
  doOverflow cube.full 0 = Some (sample.closed, sample.closed_calls)
  ∧ grow sample.closed sample.late = Some sample.regrown
  ∧ toIntegral (getDirection (mid (ck_bounds (m_chunkKey cube.full)))
                             (v_point (cube.voxel 1 2 3 Byte.x06))) = 0%nat
  ∧ bucket sample.regrown 0 = None
  ∧ insertOverflow sample.regrown (cube.voxel 1 2 3 Byte.x06) cube.key000
    = Some (false, sample.regrown, []).
Proof.
  assert (toIntegral (getDirection (mid (ck_bounds (m_chunkKey cube.full)))
                                   (v_point (cube.voxel 1 2 3 Byte.x06))) = 0%nat)
    as Hdir by (vm_compute; reflexivity).
  split; [exact closed_split|]. split; [exact regrown_grow|]. split; [exact Hdir|].
  exact (X2_split_octant_stays_closed cube.full sample.closed sample.regrown 0
           sample.closed_calls sample.late (cube.voxel 1 2 3 Byte.x06) cube.key000
           closed_split regrown_grow Hdir).
Defined.

Lemma X3_witness :
  sound cube.one
  ∧ cell_id cube.one cube.key000 ≠ cell_id cube.one sample.key001
  ∧ ∃ done c' voxel' calls,
      chunk.insert cube.one (cube.voxel 1 1 5 Byte.x07) sample.key001
      = Some (done, c', voxel', calls)
      ∧ cell_voxel c' cube.key000 = Some (cube.voxel 3 3 3 Byte.x01).
Proof.
  assert (cell_id cube.one cube.key000 ≠ cell_id cube.one sample.key001) as Hother
    by (vm_compute; discriminate).
  split; [exact one_sound|]. split; [exact Hother|].
  destruct (insert_sound cube.one (cube.voxel 1 1 5 Byte.x07) sample.key001 one_sound)
    as (ok & c' & voxel' & calls & Hins & _).
  { by_evaluation. }
  exists ok, c', voxel', calls. split; [exact Hins|].
  rewrite (X3_insert_leaves_other_cells cube.one c' _ voxel' sample.key001
             cube.key000 ok calls one_sound Hins Hother).
  vm_compute. reflexivity.
Defined.

Lemma fresh_sized : grid_sized cube.fresh.
Proof. split; [by_evaluation|vm_compute; reflexivity]. Qed.

Lemma X4_witness :
  grid_sized cube.fresh
  ∧ cell cube.fresh cube.key000 = None
  ∧ ∃ c', chunk.insert cube.fresh (cube.voxel 3 3 3 Byte.x01) cube.key000
          = Some (true, c', cube.voxel 3 3 3 Byte.x01, [])
          ∧ cell_voxel c' cube.key000 = Some (cube.voxel 3 3 3 Byte.x01)
          ∧ MemBlock_size (m_gridBlock c') = 1.
Proof.
  assert (cell cube.fresh cube.key000 = None) as Hcell by (vm_compute; reflexivity).
  split; [exact fresh_sized|]. split; [exact Hcell|].
  destruct (X4_insert_into_empty_cell cube.fresh (cube.voxel 3 3 3 Byte.x01)
              cube.key000 fresh_sized Hcell)
    as (c' & Hins & Hvoxel & Hsize & _).
  exists c'. split_and!; [exact Hins|exact Hvoxel|].
  rewrite Hsize. vm_compute. reflexivity.
Defined.

Lemma X5_witness :
  sound cube.fresh
  ∧ m_overflowCount cube.fresh + Z.of_nat (length sample.three) < 2 ^ 64
  ∧ ∃ c' out,
      grow_log cube.fresh sample.three = Some (c', out)
      ∧ chunk_points c' ++ out ≡ₚ [[Byte.x01]; [Byte.x02]; [Byte.x03]].
Proof.
  assert (m_overflowCount cube.fresh + Z.of_nat (length sample.three) < 2 ^ 64)
    as Hlen by (vm_compute; reflexivity).
  split; [exact fresh_sound|]. split; [exact Hlen|].
  destruct (X5_inserts_conserve_points cube.fresh sample.three fresh_sound Hlen)
    as (c' & out & Hlog & _ & Hperm).
  exists c', out. split; [exact Hlog|].
  rewrite Hperm. vm_compute. reflexivity.
Defined.

Lemma X6_witness :
  sound cube.two
  ∧ MemBlock_size (m_gridBlock cube.two) + m_overflowCount cube.two < 2 ^ 64
  ∧ (save cube.two).1 = 2
  ∧ (save cube.two).1 = Z.of_nat (length (w_table (save cube.two).2)).
Proof.
  assert (MemBlock_size (m_gridBlock cube.two) + m_overflowCount cube.two < 2 ^ 64)
    as Hlt by (vm_compute; reflexivity).
  split; [exact two_sound|]. split; [exact Hlt|].
  destruct (X6_save_count_is_split_size cube.two two_sound Hlt)
    as (_ & Hsize & Htable).
  split; [|exact Htable]. rewrite Hsize. vm_compute. reflexivity.
Defined.

Lemma X7_witness :
  0 ≤ reffed.m_refs sample.reffed_root
  ∧ reffed.m_refs sample.reffed_root + Z.of_nat 2 < 2 ^ 64
  ∧ reffed.release 2 (reffed.acquire 2 sample.reffed_root)
    = returned sample.reffed_root
  ∧ reffed.release 3 (reffed.acquire 2 sample.reffed_root) = thrown "Negative".
Proof.
  assert (0 ≤ reffed.m_refs sample.reffed_root) as H0 by (cbn; lia).
  assert (reffed.m_refs sample.reffed_root + Z.of_nat 2 < 2 ^ 64) as Hlt
    by (cbn; lia).
  split; [exact H0|]. split; [exact Hlt|]. split.
  - rewrite (X7_release_balances_acquire sample.reffed_root 2 2 H0 Hlt).
    reflexivity.
  - rewrite (X7_release_balances_acquire sample.reffed_root 2 3 H0 Hlt).
    reflexivity.
Defined.

Lemma template_append :
  pipeline.findOrAppendStage sample.template "filters.stats"
  = ok (sample.template ++ [sample.stage "filters.stats"], 2%nat).
Proof. vm_compute. reflexivity. Qed.

Lemma X9_witness :
  pipeline.findOrAppendStage sample.template "filters.stats"
  = ok (sample.template ++ [sample.stage "filters.stats"], 2%nat)
  ∧ pipeline.findStage (sample.template ++ [sample.stage "filters.stats"])
      "filters.stats" = ok 2%nat
  ∧ pipeline.findOrAppendStage (sample.template ++ [sample.stage "filters.stats"])
      "filters.stats"
    = ok (sample.template ++ [sample.stage "filters.stats"], 2%nat).
Proof.
  split; [exact template_append|].
  destruct (X9_findOrAppendStage_finds_or_appends sample.template _ _ _
              template_append) as (_ & _ & Hfind & Hagain).
  split; [exact Hfind|exact Hagain].
Defined.

Lemma template_without :
  pipeline.findStage sample.template "filters.stats" = ok (length sample.template).
Proof. vm_compute. reflexivity. Qed.

Lemma X11_witness :
  pipeline.findStage sample.template "filters.stats" = ok (length sample.template)
  ∧ ∃ pipeline' it,
      pipeline.findOrAppendStage sample.template "filters.stats" = ok (pipeline', it)
      ∧ length pipeline' = 3%nat
      ∧ pipeline.omitStage pipeline' "filters.stats" = ok sample.template.
Proof.
  split; [exact template_without|].
  destruct (X11_omitStage_undoes_append sample.template "filters.stats"
              template_without) as (_ & pipeline' & it & Happend & Hlen & Homit).
  exists pipeline', it. split_and!; [exact Happend|exact Hlen|exact Homit].
Defined.

End more_examples.

Section ingest_examples.
Import ingest pipeline.
#[local] Existing Instance sample.table_ops.

Lemma tables_length : Z.of_nat (length (concat sample.tables)) < 2 ^ 64.
Proof. vm_compute. reflexivity. Qed.

Lemma X14_witness :
  Z.of_nat (length (concat sample.tables)) < 2 ^ 64
  ∧ 0 ≤ 10 < 2 ^ 64
  ∧ (λ call, v_data call.1.1)
      <$> inserts_of (trace (batches (cube.meta 2 3) 1 10 sample.tables))
    = [[Byte.x01; Byte.x01; Byte.x00]; [Byte.x03; Byte.x01; Byte.x02]]
  ∧ pointId (batches (cube.meta 2 3) 1 10 sample.tables) = 3
  ∧ counter (batches (cube.meta 2 3) 1 10 sample.tables) = 12.
Proof.
  assert (0 ≤ 10 < 2 ^ 64) as Hcounter by (split; [discriminate|reflexivity]).
  split; [exact tables_length|]. split; [exact Hcounter|].
  destruct (X14_points_are_numbered_by_position (cube.meta 2 3) 1 10 sample.tables
              tables_length Hcounter) as (Hins & Hpid & Hcount).
  split_and!.
  - rewrite Hins. vm_compute. reflexivity.
  - rewrite Hpid. reflexivity.
  - rewrite Hcount, Hins. vm_compute. reflexivity.
Defined.

Lemma X15_witness :
  Z.of_nat (length (concat sample.tables)) < 2 ^ 64
  ∧ clips_of (trace (batches (cube.meta 2 3) 1 10 sample.tables)) = 0%nat.
Proof.
  split; [exact tables_length|].
  destruct (X15_clips_are_spaced_by_sleepCount (cube.meta 2 3) 1 10 sample.tables
              tables_length) as (Hrange & Hclips).
  assert (Z.of_nat (length (concat sample.tables)) = 3) as Hlen
    by (vm_compute; reflexivity).
  rewrite Hlen in Hclips. unfold heuristics.sleepCount in *. lia.
Defined.

Lemma two_stats_prepare :
  prepare (JArray sample.two_stats) "/tmp/a.laz" true = ok sample.two_stats_prepared.
Proof. vm_compute. reflexivity. Qed.

Lemma X16_witness :
  prepare (JArray sample.two_stats) "/tmp/a.laz" true = ok sample.two_stats_prepared
  ∧ sample.two_stats_prepared = described (JArray sample.two_stats) "/tmp/a.laz" true
  ∧ sample.two_stats_prepared !! 2%nat = Some (sample.stage "filters.stats")
  ∧ ∃ (it : nat) (fields : gmap string Json),
      findStage sample.two_stats_prepared "filters.stats" = ok it
      ∧ sample.two_stats_prepared !! it = Some (JObject fields)
      ∧ is_Some (fields !! "enumerate").
Proof.
  split; [exact two_stats_prepare|].
  destruct (X16_prepare_sets_filename_and_stats (JArray sample.two_stats)
              "/tmp/a.laz" true _ two_stats_prepare)
    as (Hdescribed & _ & _ & _ & it & fields & Hfind & Hit & Henum).
  split; [exact Hdescribed|]. split; [reflexivity|].
  exists it, fields. split_and!; [exact Hfind|exact Hit|exact Henum].
Defined.

Lemma stage_typed (type : string) : typed (sample.stage type).
Proof. exists type. apply value_type_fresh. Qed.

Lemma X17_witness :
  stages_of (JArray sample.template)
  = sample.stage "readers.las" :: [sample.stage "filters.crop"]
  ∧ ∃ prepared, prepare (JArray sample.template) "/tmp/a.laz" true = ok prepared.
Proof.
  split; [reflexivity|].
  apply (X17_prepare_returns_on_typed_stages (JArray sample.template) "/tmp/a.laz"
           true (sample.stage "readers.las") [sample.stage "filters.crop"] eq_refl).
  - right. apply stage_typed.
  - constructor; [apply stage_typed|constructor].
Defined.

End ingest_examples.

Section driver_examples.
Import builder driver props merge.

Lemma failing_keeps_wanted : keeps_wanted cube.failing.
Proof. intros b origin. split; [reflexivity|]. intros active. reflexivity. Qed.

Lemma X18_witness :
  keeps_wanted cube.failing
  ∧ 0 ≤ 1 < 2 ^ 64
  ∧ Z.of_nat (length (manifest cube.sources)) < 2 ^ 64
  ∧ runInserts cube.sources 1 = [1]
  ∧ runInserts (joined cube.failing "vector::at" cube.sources 1) 1 = [2]
  ∧ runInserts (joined cube.failing "vector::at" cube.sources 0) 0 = [].
Proof.
  assert (0 ≤ 1 < 2 ^ 64) as Hone by (split; [discriminate|reflexivity]).
  assert (0 ≤ 0 < 2 ^ 64) as Hzero by (split; [discriminate|reflexivity]).
  assert (Z.of_nat (length (manifest cube.sources)) < 2 ^ 64) as Hsize
    by (vm_compute; reflexivity).
  split; [exact failing_keeps_wanted|]. split; [exact Hone|]. split; [exact Hsize|].
  split; [vm_compute; reflexivity|]. split.
  - destruct (X18_runs_work_through_the_manifest cube.failing "vector::at"
                cube.sources 1 1 failing_keeps_wanted Hone Hone Hsize) as [_ Hnext].
    rewrite Hnext. vm_compute. reflexivity.
  - destruct (X18_runs_work_through_the_manifest cube.failing "vector::at"
                cube.sources 0 0 failing_keeps_wanted Hzero Hzero Hsize) as [_ Hnext].
    rewrite Hnext. reflexivity.
Defined.

Lemma nodes_NoDup : NoDup sample.nodes.*1.
Proof. apply (bool_decide_unpack _). vm_compute. exact I. Qed.

Lemma sample_leaves_hierarchy : leaves_hierarchy (M := sample.merge_ops).
Proof. intros shared voxel key ck. reflexivity. Qed.

Lemma X19_witness :
  NoDup sample.nodes.*1
  ∧ leaves_hierarchy (M := sample.merge_ops)
  ∧ ∃ st, mergeOne (M := sample.merge_ops) (cube.meta 2 3) sample.subset_meta
            sample.nodes sample.merged [] = Some st
      ∧ st_reads st = ["0-0-0-0-0"]
      ∧ (λ call, v_data call.1.1) <$> st_calls st = [[Byte.x01]; [Byte.x02]]
      ∧ st_hierarchy st !! (2, 1, 0, 0) = Some 3
      ∧ st_hierarchy st !! (2, 0, 0, 0) = Some 5
      ∧ st_hierarchy st !! (0, 0, 0, 0) = None
      ∧ total (st_hierarchy st) = 8.
Proof.
  split; [exact nodes_NoDup|]. split; [exact sample_leaves_hierarchy|].
  destruct (X19_mergeOne_copies_from_shared_depth (M := sample.merge_ops)
              (cube.meta 2 3) sample.subset_meta sample.nodes sample.merged []
              nodes_NoDup sample_leaves_hierarchy) as [_ Hmerged].
  assert (is_Some (mergeOne (M := sample.merge_ops) (cube.meta 2 3)
                     sample.subset_meta sample.nodes sample.merged []))
    as [st Hrun].
  { apply (bool_decide_unpack _). vm_compute. exact I. }
  destruct (Hmerged st Hrun)
    as (ended & _ & Hrelease & _ & _ & Hreads & Hcalls & Hcopied & Hkept & Htotal).
  assert (st_hierarchy st = st_hierarchy ended) as Hsame by (by injection Hrelease).
  exists st. rewrite Hsame. split_and!.
  - exact Hrun.
  - rewrite Hreads. vm_compute. reflexivity.
  - rewrite Hcalls. vm_compute. reflexivity.
  - apply Hcopied; [|reflexivity]. apply elem_of_cons. right. by left.
  - rewrite Hkept; [reflexivity|].
    intros count Hin.
    repeat (apply elem_of_cons in Hin as [[= <-]|Hin]); by apply elem_of_nil in Hin.
  - rewrite Hkept; [reflexivity|].
    intros count Hin.
    apply elem_of_cons in Hin as [[= ->]|Hin]; [reflexivity|].
    repeat (apply elem_of_cons in Hin as [[= <-]|Hin]); by apply elem_of_nil in Hin.
  - rewrite Htotal. vm_compute. reflexivity.
Defined.

End driver_examples.
